(** * Tensor transfer core of x10 (xla_tensor/tensor_util.cpp)

    A shallow embedding of the type mapper, the shape and stride utilities,
    the strided copy engine, the literal round trip and the tensor hash,
    followed by the properties established about them.

    Conventions of the embedding.
    - [xla::int64] values are integers of [Z]; every arithmetic operation
      the source performs on them is written with [wrap64], the
      two's-complement reduction to 64 bits.
    - Positions in rank-sized vectors (dimension numbers, entries of
      [minor_to_major]) are natural numbers.
    - A subscript outside its vector, a division by zero and an exhausted
      loop budget are results of their own ([OutOfBounds], [DivisionByZero],
      [OutOfFuel]); [XLA_CHECK] and [XLA_ERROR] give the error kinds of the
      error handling design. *)

From Stdlib Require Import ZArith Lia List Bool.
From stdpp Require Import base tactics option numbers list list_numbers.

Open Scope Z_scope.

(** ** Errors and the error monad *)

Inductive Error : Type :=
  | TypeUnsupported
  | ShapeMismatch
  | BufferSizeMismatch
  | ShapeUnsupported
  | OutOfBounds
  | DivisionByZero
  | OutOfFuel.

Inductive Result (A : Type) : Type :=
  | Ok (a : A)
  | Err (e : Error).

Arguments Ok {A} a.
Arguments Err {A} e.

Definition bind {A B : Type} (m : Result A) (k : A -> Result B) : Result B :=
  match m with
  | Ok a => k a
  | Err e => Err e
  end.

Notation "'let!' x ':=' m 'in' k" := (bind m (fun x => k))
  (at level 10, x name, m at level 100, k at level 200).

(** [XLA_CHECK(c)]: continue when [c] holds, fail with [e] otherwise. *)
Definition check (c : bool) (e : Error) : Result unit :=
  if c then Ok tt else Err e.

(** ** 64-bit integers *)

Definition wrap64 (z : Z) : Z := (z + 2 ^ 63) mod 2 ^ 64 - 2 ^ 63.

Definition int64_range (z : Z) : Prop := - 2 ^ 63 <= z < 2 ^ 63.

(** [a / b] on [xla::int64]: truncating, undefined for a zero divisor. *)
Definition div64 (a b : Z) : Result Z :=
  if b =? 0 then Err DivisionByZero else Ok (wrap64 (Z.quot a b)).

(** ** Enumerations *)

(** [at::ScalarType].  The nine kinds the transfer core supports, and
    [Half] for the enumerators that take the [default] branches. *)
Inductive ScalarType : Type :=
  | Bool | Byte | Char | Short | Int | Long | Float | Double | BFloat16
  | Half.

(** [xla::PrimitiveType]. *)
Inductive PrimitiveType : Type :=
  | PRIMITIVE_TYPE_INVALID
  | PRED
  | S8 | S16 | S32 | S64
  | U8 | U16 | U32 | U64
  | F16 | F32 | BF16 | F64
  | C64 | C128
  | TUPLE | OPAQUE_TYPE | TOKEN.

(** [swift_xla::DeviceType] and [swift_xla::Device]. *)
Inductive DeviceType : Type := CPU | GPU | TPU | REMOTE_TPU.

Record Device : Type := mkDevice { hw_type : DeviceType; ordinal : Z }.

#[global] Instance ScalarType_eq_dec : EqDecision ScalarType.
Proof. solve_decision. Defined.
#[global] Instance PrimitiveType_eq_dec : EqDecision PrimitiveType.
Proof. solve_decision. Defined.
#[global] Instance DeviceType_eq_dec : EqDecision DeviceType.
Proof. solve_decision. Defined.

(** ** Process-wide state read by the transfer core

    [UseBF16] and [Use32BitLong] are the cached values of the environment
    variables XLA_USE_BF16 and XLA_USE_32BIT_LONG; [current_device] is what
    [GetCurrentDevice] answers and [hardware_concurrency] what
    [std::thread::hardware_concurrency] answers. *)
Record Env : Type := mkEnv {
  UseBF16 : bool;
  Use32BitLong : bool;
  current_device : Device;
  hardware_concurrency : Z
}.

(** Modelled from the spec: [GetDeviceOrCurrent] of device.h, which is not
    among the sources; a null device pointer resolves to the current
    device. *)
Definition GetDeviceOrCurrent (env : Env) (device : option Device) : Device :=
  match device with
  | Some d => d
  | None => current_device env
  end.

Definition is_TPU (d : Device) : bool :=
  match hw_type d with TPU => true | _ => false end.

(** ** Type mapper *)

Definition XlaTypeFromTensorType (scalar_type : ScalarType) (device : Device)
  : Result PrimitiveType :=
  match scalar_type with
  | Double => Ok (if negb (is_TPU device) then F64 else F32)
  | Float => Ok F32
  | BFloat16 => Ok BF16
  | Bool => Ok PRED
  | Byte => Ok U8
  | Char => Ok S8
  | Short => Ok S16
  | Int => Ok S32
  | Long => Ok S64
  | _ => Err TypeUnsupported
  end.

Definition TensorTypeFromXlaType (env : Env) (xla_type : PrimitiveType)
  : Result ScalarType :=
  match xla_type with
  | BF16 => if negb (UseBF16 env) then Ok BFloat16 else Ok Float
  | F32 => Ok Float
  | F64 => Ok Double
  | PRED => Ok Bool
  | U8 => Ok Byte
  | S8 => Ok Char
  | S16 | U16 => Ok Short
  | S32 | U32 => Ok Int
  | S64 | U64 => Ok Long
  | _ => Err TypeUnsupported
  end.

Definition TensorTypeToRawXlaType (scalar_type : ScalarType)
  : Result PrimitiveType :=
  match scalar_type with
  | Double => Ok F64
  | Float => Ok F32
  | BFloat16 => Ok BF16
  | Bool => Ok PRED
  | Byte => Ok U8
  | Char => Ok S8
  | Short => Ok S16
  | Int => Ok S32
  | Long => Ok S64
  | _ => Err TypeUnsupported
  end.

Definition GetDevicePrimitiveType (env : Env) (type : PrimitiveType)
    (device : option Device) : PrimitiveType :=
  let xla_device := GetDeviceOrCurrent env device in
  match type with
  | F64 =>
      if UseBF16 env then BF16
      else if negb (is_TPU xla_device) then F64 else F32
  | F32 => if UseBF16 env then BF16 else F32
  | U8 => if negb (is_TPU xla_device) then U8 else U32
  | S8 => if negb (is_TPU xla_device) then S8 else S32
  | U16 => if negb (is_TPU xla_device) then U16 else U32
  | S16 => if negb (is_TPU xla_device) then S16 else S32
  | S64 => if Use32BitLong env then S32 else S64
  | U64 => if Use32BitLong env then U32 else U64
  | C128 => if negb (is_TPU xla_device) then C128 else C64
  | _ => type
  end.

Definition MakeXlaPrimitiveType (env : Env) (scalar_type : ScalarType)
    (device : option Device) : Result PrimitiveType :=
  match scalar_type with
  | Double => Ok (GetDevicePrimitiveType env F64 device)
  | Float => Ok (GetDevicePrimitiveType env F32 device)
  | BFloat16 => Ok (GetDevicePrimitiveType env BF16 device)
  | Bool => Ok (GetDevicePrimitiveType env PRED device)
  | Byte => Ok (GetDevicePrimitiveType env U8 device)
  | Char => Ok (GetDevicePrimitiveType env S8 device)
  | Short => Ok (GetDevicePrimitiveType env S16 device)
  | Int => Ok (GetDevicePrimitiveType env S32 device)
  | Long => Ok (GetDevicePrimitiveType env S64 device)
  | _ => Err TypeUnsupported
  end.

Definition GetShapeDimensionType (env : Env) (device : option Device)
  : PrimitiveType :=
  let xla_device := GetDeviceOrCurrent env device in
  match hw_type xla_device with CPU => S64 | _ => S32 end.

(** The promotion table as the specification words it: one chain of
    alternatives, the TPU entries standing under the [else] of the BF16
    test, the 32-bit-long entries after them, identity otherwise. *)
Definition long32_entries (long32 : bool) (raw : PrimitiveType)
  : PrimitiveType :=
  if long32 then
    match raw with S64 => S32 | U64 => U32 | _ => raw end
  else raw.

Definition promotion_table_spec (bf16 long32 tpu : bool)
    (raw : PrimitiveType) : PrimitiveType :=
  if bf16 then
    match raw with
    | F32 | F64 => BF16
    | _ => long32_entries long32 raw
    end
  else if tpu then
    match raw with
    | F64 => F32
    | U8 | U16 => U32
    | S8 | S16 => S32
    | _ => long32_entries long32 raw
    end
  else long32_entries long32 raw.

(** The table with each entry guarded on its own: the BF16 test takes
    precedence for the two floating kinds only, and the TPU widening of the
    small integer kinds does not look at the BF16 toggle. *)
Definition is_wide_float (p : PrimitiveType) : bool :=
  match p with F32 | F64 => true | _ => false end.

Definition tpu_widening (p : PrimitiveType) : option PrimitiveType :=
  match p with
  | F64 => Some F32
  | U8 | U16 => Some U32
  | S8 | S16 => Some S32
  | _ => None
  end.

Definition promotion_table (bf16 long32 tpu : bool) (raw : PrimitiveType)
  : PrimitiveType :=
  if bf16 && is_wide_float raw then BF16
  else match (if tpu then tpu_widening raw else None) with
       | Some wide => wide
       | None => long32_entries long32 raw
       end.

(** ** Vectors and buffers *)

(** [v[i]] and [v[i] = x] on a vector; a subscript outside the vector is
    undefined in the source and an error here. *)
Definition vec_get {A : Type} (v : list A) (i : nat) : Result A :=
  match v !! i with
  | Some x => Ok x
  | None => Err OutOfBounds
  end.

Definition vec_set {A : Type} (v : list A) (i : nat) (x : A)
  : Result (list A) :=
  if decide (i < length v)%nat then Ok (<[i:=x]> v) else Err OutOfBounds.

(** [std::swap(v[i], v[j])]. *)
Definition vec_swap {A : Type} (v : list A) (i j : nat) : Result (list A) :=
  let! a := vec_get v i in
  let! b := vec_get v j in
  let! v' := vec_set v i b in
  vec_set v' j a.

(** [*(p + pos)] and [*(p + pos) = x] for a pointer [p] to the first
    element of a buffer and an element offset [pos]. *)
Definition buf_read (buf : list Z) (pos : Z) : Result Z :=
  if pos <? 0 then Err OutOfBounds else vec_get buf (Z.to_nat pos).

Definition buf_write (buf : list Z) (pos : Z) (x : Z) : Result (list Z) :=
  if pos <? 0 then Err OutOfBounds else vec_set buf (Z.to_nat pos) x.

(** ** Shapes *)

(** [xla::Shape]: element type, dimension sizes, the layout's
    [minor_to_major] list and, for a tuple, its component shapes. *)
#[warnings="-register-all"]
Inductive Shape : Type :=
  mkShape (elt : PrimitiveType) (dims : list Z) (m2m : list nat)
          (comps : list Shape).

Definition element_type (s : Shape) : PrimitiveType :=
  match s with mkShape elt _ _ _ => elt end.
Definition dimensions (s : Shape) : list Z :=
  match s with mkShape _ dims _ _ => dims end.
Definition minor_to_major (s : Shape) : list nat :=
  match s with mkShape _ _ m2m _ => m2m end.
Definition tuple_shapes (s : Shape) : list Shape :=
  match s with mkShape _ _ _ comps => comps end.
Definition rank (s : Shape) : nat := length (dimensions s).

(** [Shape::IsTuple], [primitive_util::IsArrayType] and [Shape::IsArray] of
    the XLA library. *)
Definition IsTuple (s : Shape) : bool :=
  match element_type s with TUPLE => true | _ => false end.

Definition IsArrayType (p : PrimitiveType) : bool :=
  match p with
  | PRIMITIVE_TYPE_INVALID | TUPLE | OPAQUE_TYPE | TOKEN => false
  | _ => true
  end.

Definition IsArray (s : Shape) : bool := IsArrayType (element_type s).

(** [xla::util::Multiply<xla::int64>]. *)
Definition Multiply (sizes : list Z) : Z :=
  fold_left (fun acc d => wrap64 (acc * d)) sizes 1.

(** [xla::ShapeUtil::ElementsIn] and [xla::ShapeUtil::SameDimensions] of
    the XLA library: the product of the dimension sizes, and equality of
    the dimension lists. *)
Definition ElementsIn (s : Shape) : Z := Multiply (dimensions s).

Definition SameDimensions (a b : Shape) : bool :=
  bool_decide (dimensions a = dimensions b).

(** Modelled from the spec: [MakeSwiftTensorLayout] of layout_manager.h,
    which is not among the sources; the host layout is row-major, the last
    dimension being the most minor one. *)
Definition MakeSwiftTensorLayout (dims : list Z) (type : PrimitiveType)
  : Shape :=
  mkShape type dims (rev (seq 0 (length dims))) [].

(** ** Shape and stride utilities *)

Fixpoint ComputeShapeStrides_loop (dims : list Z) (m2m : list nat)
    (strides : list Z) (stride : Z) : Result (list Z) :=
  match m2m with
  | [] => Ok strides
  | dim :: m2m' =>
      let! strides' := vec_set strides dim stride in
      let! size := vec_get dims dim in
      ComputeShapeStrides_loop dims m2m' strides' (wrap64 (stride * size))
  end.

Definition ComputeShapeStrides (shape : Shape) : Result (list Z) :=
  ComputeShapeStrides_loop (dimensions shape) (minor_to_major shape)
    (replicate (rank shape) 0) 1.

(** The loop of [ComputeArrayStrides], [i] counting down to 2. *)
Fixpoint ComputeArrayStrides_loop (sizes : list Z) (i : nat)
    (strides : list Z) : Result (list Z) :=
  match i with
  | S (S j as i') =>
      let! stride := vec_get strides i' in
      let! size := vec_get sizes i' in
      let! strides' := vec_set strides j (wrap64 (stride * size)) in
      ComputeArrayStrides_loop sizes i' strides'
  | _ => Ok strides
  end.

Definition ComputeArrayStrides (sizes : list Z) : Result (list Z) :=
  ComputeArrayStrides_loop sizes (length sizes)
    (replicate (length sizes) 1).

Fixpoint GetComponentShapes_loop (comps : list Shape)
    (component_shapes : list Shape) : Result (list Shape) :=
  match comps with
  | [] => Ok component_shapes
  | component_shape :: comps' =>
      let! _ := check (negb (IsTuple component_shape)) ShapeUnsupported in
      GetComponentShapes_loop comps' (component_shapes ++ [component_shape])
  end.

Definition GetComponentShapes (shape : Shape) : Result (list Shape) :=
  if IsTuple shape then GetComponentShapes_loop (tuple_shapes shape) []
  else Ok [shape].

(** ** Copy engine: iteration order and partitions *)

Fixpoint GetFlatTensorOffset_loop (strides indices : list Z) (base : Z)
    {struct indices} : Result Z :=
  match indices with
  | [] => Ok base
  | x :: indices' =>
      match strides with
      | [] => Err OutOfBounds
      | s :: strides' =>
          GetFlatTensorOffset_loop strides' indices'
            (wrap64 (base + wrap64 (x * s)))
      end
  end.

Definition GetFlatTensorOffset (strides indices : list Z) : Result Z :=
  GetFlatTensorOffset_loop strides indices 0.

Definition kMinorDimScale : Z := 8.

(** The loop of [GetIterationDimensions] from position [i] on: [rest] are
    the entries [iter_dims[i..]]. *)
Fixpoint GetIterationDimensions_loop (dims : list Z) (rest : list nat)
    (i index : nat) (scaled_dim_size : Z) : Result nat :=
  match rest with
  | [] => Ok index
  | dim :: rest' =>
      let! size := vec_get dims dim in
      if scaled_dim_size <? size
      then GetIterationDimensions_loop dims rest' (S i) i size
      else GetIterationDimensions_loop dims rest' (S i) index scaled_dim_size
  end.

Definition GetIterationDimensions (shape : Shape) : Result (list nat) :=
  let iter_dims := minor_to_major shape in
  let! first := vec_get iter_dims 0 in
  let! size := vec_get (dimensions shape) first in
  let! index :=
    GetIterationDimensions_loop (dimensions shape) (drop 1 iter_dims) 1 0
      (wrap64 (kMinorDimScale * size)) in
  vec_swap iter_dims 0 index.

Record CopyPartition : Type := mkCopyPartition {
  base : list Z;
  limit : list Z
}.

(** The constructor [CopyPartition(dimensions)]. *)
Definition CopyPartition_of (dims : list Z) : CopyPartition :=
  mkCopyPartition (replicate (length dims) 0) dims.

Definition kMinThreadElements : Z := 100000.

(** The search for the largest dimension other than the strided copy
    dimension; [None] stands for the initial [max_dim = -1], and [rest] are
    the sizes [dimensions[i..]]. *)
Fixpoint max_dim_loop (dims : list Z) (strided_copy_dimension : nat)
    (rest : list Z) (i : nat) (max_dim : option nat)
  : Result (option nat) :=
  match rest with
  | [] => Ok max_dim
  | size :: rest' =>
      if decide (i = strided_copy_dimension)
      then max_dim_loop dims strided_copy_dimension rest' (S i) max_dim
      else
        match max_dim with
        | None =>
            max_dim_loop dims strided_copy_dimension rest' (S i) (Some i)
        | Some m =>
            let! best := vec_get dims m in
            max_dim_loop dims strided_copy_dimension rest' (S i)
              (if best <? size then Some i else max_dim)
        end
  end.

(** [max_parts]: at most half of the available cores, at least one. *)
Definition max_parts (env : Env) : Z :=
  Z.max (Z.quot (hardware_concurrency env) 2) 1.

Definition part_size_of (max_parts max_dim_size max_dim_unit_elements : Z)
  : Result Z :=
  let! per_part := div64 max_dim_size max_parts in
  let! per_task := div64 kMinThreadElements max_dim_unit_elements in
  Ok (Z.max (Z.max per_part 1) per_task).

Fixpoint CreateCopyPartitions_loop (fuel : nat) (dims : list Z)
    (max_dim : nat) (max_dim_size part_size csize : Z)
    (parts : list CopyPartition) : Result (list CopyPartition) :=
  if csize <? max_dim_size then
    match fuel with
    | O => Err OutOfFuel
    | S fuel' =>
        let n := Z.min part_size (wrap64 (max_dim_size - csize)) in
        let p := CopyPartition_of dims in
        let! b := vec_set (base p) max_dim csize in
        let! l := vec_set (limit p) max_dim (wrap64 (csize + n)) in
        CreateCopyPartitions_loop fuel' dims max_dim max_dim_size part_size
          (wrap64 (csize + n)) (parts ++ [mkCopyPartition b l])
    end
  else Ok parts.

Definition CreateCopyPartitions (env : Env) (fuel : nat) (dims : list Z)
    (strided_copy_dimension : nat) : Result (list CopyPartition) :=
  let! found := max_dim_loop dims strided_copy_dimension dims 0 None in
  let num_elements := Multiply dims in
  match found with
  | None => Err OutOfBounds
  | Some max_dim =>
      let! max_dim_size := vec_get dims max_dim in
      let! max_dim_unit_elements := div64 num_elements max_dim_size in
      let! part_size :=
        part_size_of (max_parts env) max_dim_size max_dim_unit_elements in
      CreateCopyPartitions_loop fuel dims max_dim max_dim_size part_size 0 []
  end.

(** ** Copy engine: element types and kernels *)

(** The C++ element types the dispatch instantiates the copy templates
    with.  A buffer is the list of its elements, each element its object
    representation read as an unsigned integer. *)
Inductive CType : Type :=
  | c_bool
  | c_uint8 | c_int8 | c_int16 | c_uint16
  | c_int32 | c_uint32 | c_int64 | c_uint64
  | c_float | c_double
  | c_at_BFloat16 | c_tf_bfloat16.

#[global] Instance CType_eq_dec : EqDecision CType.
Proof. solve_decision. Defined.

Definition sizeof (t : CType) : Z :=
  match t with
  | c_bool | c_uint8 | c_int8 => 1
  | c_int16 | c_uint16 | c_at_BFloat16 | c_tf_bfloat16 => 2
  | c_int32 | c_uint32 | c_float => 4
  | c_int64 | c_uint64 | c_double => 8
  end.

(** [NeedCast<T>::value]. *)
Definition NeedCast (t : CType) : bool :=
  match t with
  | c_at_BFloat16 | c_tf_bfloat16 => true
  | _ => false
  end.

Section CopyEngine.

(** [static_cast<D>(v)] for a value [v] of type [S], on object
    representations.  The conversions themselves (integer truncation,
    IEEE rounding) are left to the language; the copy engine only
    chooses where to apply them. *)
Variable static_cast : CType -> CType -> Z -> Z.

(** The order in which the shared thread pool runs the scheduled
    closures. *)
Variable pool_order : list CopyPartition -> list CopyPartition.

(** [Caster<S>().cast<D>(value)]. *)
Definition Caster_cast (S D : CType) (value : Z) : Z :=
  if NeedCast S
  then static_cast c_float D (static_cast S c_float value)
  else static_cast S D value.

(** The loop of [StridedCopy]; [dest], [source] and [source_top] are the
    positions of the three pointers in their buffers. *)
Fixpoint StridedCopy_loop (fuel : nat) (S D : CType)
    (dest_buf : list Z) (dest dest_stride : Z)
    (src_buf : list Z) (source source_stride source_top : Z)
  : Result (list Z) :=
  if source <? source_top then
    match fuel with
    | O => Err OutOfFuel
    | Datatypes.S fuel' =>
        let! value := buf_read src_buf source in
        let! dest_buf' := buf_write dest_buf dest (Caster_cast S D value) in
        StridedCopy_loop fuel' S D dest_buf' (dest + dest_stride)
          dest_stride src_buf (source + source_stride) source_stride
          source_top
    end
  else Ok dest_buf.

Definition StridedCopy (fuel : nat) (S D : CType)
    (dest_buf : list Z) (dest dest_stride : Z)
    (src_buf : list Z) (source source_stride n : Z) : Result (list Z) :=
  let source_top := source + wrap64 (n * source_stride) in
  StridedCopy_loop fuel S D dest_buf dest dest_stride src_buf source
    source_stride source_top.

(** Element-wise transfer of the first [n] elements, each passed through
    [f]: [std::copy] with the implicit conversion, [std::memcpy] with the
    identity. *)
Fixpoint copy_elements (f : Z -> Z) (n : nat) (pos : nat)
    (dest_buf src_buf : list Z) : Result (list Z) :=
  match n with
  | O => Ok dest_buf
  | Datatypes.S n' =>
      let! value := vec_get src_buf pos in
      let! dest_buf' := vec_set dest_buf pos (f value) in
      copy_elements f n' (Datatypes.S pos) dest_buf' src_buf
  end.

Definition CheckedMemcpy (dest_buf src_buf : list Z) (n : Z)
  : Result (list Z) :=
  if n <? 0 then Err OutOfBounds
  else copy_elements (fun v => v) (Z.to_nat n) 0 dest_buf src_buf.

(** [CopyData<D, S>], the tag being
    [CopyType<NeedCast<S> || NeedCast<D>>]. *)
Definition CopyData (fuel : nat) (D S : CType) (dest_buf src_buf : list Z)
    (n : Z) : Result (list Z) :=
  if NeedCast S || NeedCast D then
    match D, S with
    | c_at_BFloat16, c_tf_bfloat16
    | c_tf_bfloat16, c_at_BFloat16 => CheckedMemcpy dest_buf src_buf n
    | _, _ => StridedCopy fuel S D dest_buf 0 1 src_buf 0 1 n
    end
  else if n <? 0 then Err OutOfBounds
  else copy_elements (static_cast S D) (Z.to_nat n) 0 dest_buf src_buf.

(** The inner [for] loop of [SlicedCopy]: [ns] are the values of [n]
    still to visit.  [Some indices] when the loop leaves by [break],
    [None] when [n] reaches [indices.size()]. *)
Fixpoint SlicedCopy_advance (iter_dims : list nat) (part : CopyPartition)
    (ns : list nat) (indices : list Z) : Result (option (list Z)) :=
  match ns with
  | [] => Ok None
  | n :: ns' =>
      let! dim := vec_get iter_dims n in
      let! x := vec_get indices dim in
      let! indices1 := vec_set indices dim (wrap64 (x + 1)) in
      let! top := vec_get (limit part) dim in
      if wrap64 (x + 1) <? top then Ok (Some indices1)
      else
        let! bottom := vec_get (base part) dim in
        let! indices2 := vec_set indices1 dim bottom in
        SlicedCopy_advance iter_dims part ns' indices2
  end.

Fixpoint SlicedCopy_loop (fuel budget : nat) (S D : CType)
    (dims : list Z) (src_buf src_strides : list Z) (dest_strides : list Z)
    (iter_dims : list nat) (part : CopyPartition)
    (inner_src_stride inner_dest_stride : Z)
    (indices : list Z) (dest_buf : list Z) : Result (list Z) :=
  match fuel with
  | O => Err OutOfFuel
  | Datatypes.S fuel' =>
      let! dest_off := GetFlatTensorOffset dest_strides indices in
      let! src_off := GetFlatTensorOffset src_strides indices in
      let! front := vec_get iter_dims 0 in
      let! n := vec_get dims front in
      let! dest_buf' :=
        StridedCopy budget S D dest_buf dest_off inner_dest_stride
          src_buf src_off inner_src_stride n in
      let! next :=
        SlicedCopy_advance iter_dims part
          (seq 1 (length indices - 1)) indices in
      match next with
      | None => Ok dest_buf'
      | Some indices' =>
          SlicedCopy_loop fuel' budget S D dims src_buf src_strides
            dest_strides iter_dims part inner_src_stride inner_dest_stride
            indices' dest_buf'
      end
  end.

Definition SlicedCopy (fuel : nat) (S D : CType) (dims : list Z)
    (src_buf src_strides : list Z) (dest_buf dest_strides : list Z)
    (iter_dims : list nat) (part : CopyPartition) : Result (list Z) :=
  let indices := base part in
  let! front := vec_get iter_dims 0 in
  let! inner_src_stride := vec_get src_strides front in
  let! inner_dest_stride := vec_get dest_strides front in
  if bool_decide (0 < length indices)%nat then
    SlicedCopy_loop fuel fuel S D dims src_buf src_strides dest_strides
      iter_dims part inner_src_stride inner_dest_stride indices dest_buf
  else Ok dest_buf.

(** The closures handed to the pool, run to completion one after the
    other in the order the pool picks. *)
Fixpoint run_closures (fuel : nat) (S D : CType) (dims : list Z)
    (src_buf src_strides : list Z) (dest_strides : list Z)
    (iter_dims : list nat) (tasks : list CopyPartition)
    (dest_buf : list Z) : Result (list Z) :=
  match tasks with
  | [] => Ok dest_buf
  | part :: tasks' =>
      let! dest_buf' :=
        SlicedCopy fuel S D dims src_buf src_strides dest_buf dest_strides
          iter_dims part in
      run_closures fuel S D dims src_buf src_strides dest_strides
        iter_dims tasks' dest_buf'
  end.

Definition CopyTensors (env : Env) (fuel : nat) (S D : CType)
    (src_buffer : list Z) (src_shape : Shape)
    (dest_buffer : list Z) (dest_buffer_size : Z) (dest_shape : Shape)
  : Result (list Z) :=
  let! _ := check (SameDimensions src_shape dest_shape) ShapeMismatch in
  let total_elements := ElementsIn src_shape in
  let! _ := check (dest_buffer_size =? (total_elements * sizeof D) mod 2 ^ 64)
              BufferSizeMismatch in
  if bool_decide (minor_to_major src_shape = minor_to_major dest_shape)
  then CopyData fuel D S dest_buffer src_buffer total_elements
  else if 0 <? total_elements then
    let! src_strides := ComputeShapeStrides src_shape in
    let! dest_strides := ComputeShapeStrides dest_shape in
    let! iter_dims := GetIterationDimensions dest_shape in
    let! front := vec_get iter_dims 0 in
    let! parts :=
      CreateCopyPartitions env fuel (dimensions dest_shape) front in
    run_closures fuel S D (dimensions dest_shape) src_buffer src_strides
      dest_strides iter_dims (pool_order parts) dest_buffer
  else Ok dest_buffer.

End CopyEngine.

(** ** Host tensors and literals *)

(** Modelled from the spec: [at::Tensor] of aten_compat.h, which is not
    among the sources; a host tensor has a scalar type tag, a dimension
    list and a contiguous row-major element buffer. *)
Record Tensor : Type := mkTensor {
  scalar_type : ScalarType;
  shape : list Z;
  buffer : list Z
}.

(** [xla::Literal] of the XLA library: a shape with a contiguous typed
    buffer. *)
Record Literal : Type := mkLiteral {
  literal_shape : Shape;
  literal_data : list Z
}.

(** [xla::ShapeUtil::ByteSizeOfPrimitiveType]. *)
Definition ByteSizeOfPrimitiveType (p : PrimitiveType) : Result Z :=
  match p with
  | PRED | S8 | U8 => Ok 1
  | S16 | U16 | F16 | BF16 => Ok 2
  | S32 | U32 | F32 => Ok 4
  | S64 | U64 | F64 | C64 => Ok 8
  | C128 => Ok 16
  | _ => Err ShapeUnsupported
  end.

(** The constructor [xla::Literal(shape)] of an array shape: a buffer of
    [ElementsIn(shape)] elements.  Freshly allocated buffers are filled
    with zeros here; a copy overwrites every element of them. *)
Definition Literal_of (s : Shape) : Literal :=
  mkLiteral s (replicate (Z.to_nat (ElementsIn s)) 0).

Definition size_bytes (l : Literal) : Result Z :=
  let! width := ByteSizeOfPrimitiveType (element_type (literal_shape l)) in
  Ok (wrap64 (ElementsIn (literal_shape l) * width)).

(** Modelled from the spec: the constructor of [at::Tensor] from a buffer
    of [D] and a dimension list (aten_compat.h, not among the sources); the
    scalar type tag of the tensor it builds. *)
Definition ScalarType_of (D : CType) : Result ScalarType :=
  match D with
  | c_bool => Ok Bool
  | c_uint8 => Ok Byte
  | c_int8 => Ok Char
  | c_int16 => Ok Short
  | c_int32 => Ok Int
  | c_int64 => Ok Long
  | c_float => Ok Float
  | c_double => Ok Double
  | c_at_BFloat16 => Ok BFloat16
  | _ => Err TypeUnsupported
  end.

(** Modelled from the spec: [at::internal::GetSizeof] of aten_compat.h,
    which is not among the sources; the size in bytes of an element of a
    scalar kind. *)
Definition GetSizeof (t : ScalarType) : Result Z :=
  match t with
  | Bool | Byte | Char => Ok 1
  | Short | BFloat16 | Half => Ok 2
  | Int | Float => Ok 4
  | Long | Double => Ok 8
  end.

Section Population.

Variable static_cast : CType -> CType -> Z -> Z.
Variable pool_order : list CopyPartition -> list CopyPartition.

Definition TensorToBuffer (env : Env) (fuel : nat) (S D : CType)
    (tensor : Tensor) (dest_shape : Shape) (dest_buffer : list Z)
    (dest_buffer_size : Z) (device : Device) : Result (list Z) :=
  let! type := XlaTypeFromTensorType (scalar_type tensor) device in
  let src_shape := MakeSwiftTensorLayout (shape tensor) type in
  CopyTensors static_cast pool_order env fuel S D (buffer tensor) src_shape
    dest_buffer dest_buffer_size dest_shape.

Definition TensorToBufferSType (env : Env) (fuel : nat) (S : CType)
    (tensor : Tensor) (dest_shape : Shape) (dest_buffer : list Z)
    (dest_buffer_size : Z) (device : Device) : Result (list Z) :=
  let go D := TensorToBuffer env fuel S D tensor dest_shape dest_buffer
                dest_buffer_size device in
  match element_type dest_shape with
  | BF16 => go c_tf_bfloat16
  | F32 => go c_float
  | F64 => go c_double
  | PRED => go c_bool
  | U8 => go c_uint8
  | S8 => go c_int8
  | S16 => go c_int16
  | U16 => go c_uint16
  | S32 => go c_int32
  | U32 => go c_uint32
  | S64 => go c_int64
  | U64 => go c_uint64
  | _ => Err ShapeUnsupported
  end.

Definition PopulateTensorBuffer (env : Env) (fuel : nat) (tensor : Tensor)
    (dest_shape : Shape) (dest_buffer : list Z) (dest_buffer_size : Z)
    (device : Device) : Result (list Z) :=
  let go S := TensorToBufferSType env fuel S tensor dest_shape dest_buffer
                dest_buffer_size device in
  match scalar_type tensor with
  | Double => go c_double
  | Float => go c_float
  | BFloat16 => go c_at_BFloat16
  | Bool => go c_bool
  | Byte => go c_uint8
  | Char => go c_int8
  | Short => go c_int16
  | Int => go c_int32
  | Long => go c_int64
  | _ => Err TypeUnsupported
  end.

Definition XlaLiteralToTensor (env : Env) (fuel : nat) (S D : CType)
    (literal : Literal) (atype : ScalarType) : Result Tensor :=
  let dims := dimensions (literal_shape literal) in
  let swift_shape :=
    MakeSwiftTensorLayout dims (element_type (literal_shape literal)) in
  let total_elements := ElementsIn swift_shape in
  let data := replicate (Z.to_nat total_elements) 0 in
  let! data' :=
    CopyTensors static_cast pool_order env fuel S D (literal_data literal)
      (literal_shape literal) data
      ((total_elements * sizeof D) mod 2 ^ 64) swift_shape in
  let! tag := ScalarType_of D in
  Ok (mkTensor tag dims data').

Definition XlaLiteralToTensorHelper (env : Env) (fuel : nat) (S : CType)
    (literal : Literal) (dest_element_type : ScalarType) : Result Tensor :=
  let go D := XlaLiteralToTensor env fuel S D literal dest_element_type in
  match dest_element_type with
  | Bool => go c_bool
  | Byte => go c_uint8
  | Char => go c_int8
  | Short => go c_int16
  | Int => go c_int32
  | Long => go c_int64
  | Float => go c_float
  | Double => go c_double
  | BFloat16 => go c_at_BFloat16
  | _ => Err TypeUnsupported
  end.

Definition MakeTensorFromXlaLiteral (env : Env) (fuel : nat)
    (literal : Literal) (dest_element_type : ScalarType) : Result Tensor :=
  let go S := XlaLiteralToTensorHelper env fuel S literal
                dest_element_type in
  match element_type (literal_shape literal) with
  | PRED => go c_bool
  | BF16 => go c_tf_bfloat16
  | F32 => go c_float
  | F64 => go c_double
  | U8 => go c_uint8
  | S8 => go c_int8
  | S16 => go c_int16
  | U16 => go c_uint16
  | S32 => go c_int32
  | U32 => go c_uint32
  | S64 => go c_int64
  | U64 => go c_uint64
  | _ => Err ShapeUnsupported
  end.

Definition GetTensorLiteral (env : Env) (fuel : nat) (tensor : Tensor)
    (shape_arg : option Shape) (device : option Device) : Result Literal :=
  let xla_device := GetDeviceOrCurrent env device in
  let! used_shape :=
    match shape_arg with
    | None =>
        let! type := XlaTypeFromTensorType (scalar_type tensor) xla_device in
        Ok (MakeSwiftTensorLayout (shape tensor) type)
    | Some given => Ok given
    end in
  let literal := Literal_of used_shape in
  let! bytes := size_bytes literal in
  let! data :=
    PopulateTensorBuffer env fuel tensor used_shape (literal_data literal)
      (bytes mod 2 ^ 64) xla_device in
  Ok (mkLiteral used_shape data).

End Population.

(** ** Tensor hash *)

(** The object representation of an element of [width] bytes, least
    significant byte first. *)
Fixpoint le_bytes (width : nat) (v : Z) : list Z :=
  match width with
  | O => []
  | S width' => v mod 256 :: le_bytes width' (v / 256)
  end.

(** The bytes of a tensor's element buffer. *)
Definition buffer_bytes (width : Z) (buf : list Z) : list Z :=
  concat (map (le_bytes (Z.to_nat width)) buf).

Section Hash.

Variable hash_t : Type.

(** [xla::util::DataHash(data, size)] as a function of the [size] bytes
    it reads at [data]. *)
Variable DataHash : list Z -> hash_t.

(** [beyond] are the bytes that lie behind the tensor's buffer in
    memory. *)
Definition TensorHash (tensor : Tensor) (beyond : list Z) : Result hash_t :=
  let! width := GetSizeof (scalar_type tensor) in
  let size := wrap64 (Z.of_nat (length (buffer tensor)) * width) in
  let memory := buffer_bytes width (buffer tensor) ++ beyond in
  let read := take (Z.to_nat (size mod 2 ^ 64)) memory in
  match scalar_type tensor with
  | Bool | Byte | Char | Short | Int | Long | Float | Double | BFloat16 =>
      Ok (DataHash read)
  | _ => Err TypeUnsupported
  end.

End Hash.

(** * Notions used by the properties *)

(** The scalar kinds the transfer core supports. *)
Definition supported (k : ScalarType) : Prop := k <> Half.

(** The layout of a shape is a permutation of its dimension numbers. *)
Definition valid_layout (s : Shape) : Prop :=
  minor_to_major s ≡ₚ seq 0 (rank s).


(** The size of the [j]-th dimension of the layout, most minor first. *)
Definition layout_size (s : Shape) (j : nat) : option Z :=
  match minor_to_major s !! j with
  | Some d => dimensions s !! d
  | None => None
  end.

(** The choice of the iteration dimension as the specification words it:
    the first entry of [minor_to_major] is the tentative inner dimension,
    and a later entry replaces the inner choice when its size exceeds 8
    times the size of the current inner dimension; the chosen dimension is
    then moved to the front of the list. *)
Definition size_of (dims : list Z) (d : nat) : Z := default 0 (dims !! d).

Fixpoint inner_choice_spec (dims : list Z) (rest : list nat) (inner : nat)
  : nat :=
  match rest with
  | [] => inner
  | d :: rest' =>
      if 8 * size_of dims inner <? size_of dims d
      then inner_choice_spec dims rest' d
      else inner_choice_spec dims rest' inner
  end.

Definition GetIterationDimensions_spec (s : Shape) : list nat :=
  match minor_to_major s with
  | [] => []
  | first :: rest =>
      let inner := inner_choice_spec (dimensions s) rest first in
      inner :: filter (fun d => d <> inner) (minor_to_major s)
  end.

(** The number of elements of a dimension list, as an integer. *)
Definition product (dims : list Z) : Z := foldr Z.mul 1 dims.

(** [m] is the first dimension of largest size among the dimensions other
    than [strided_copy_dimension]. *)
Definition largest_other (dims : list Z) (strided_copy_dimension m : nat)
  : Prop :=
  (m < length dims)%nat /\ m <> strided_copy_dimension /\
  (forall j nj nm, j <> strided_copy_dimension ->
     dims !! j = Some nj -> dims !! m = Some nm -> nj <= nm) /\
  (forall j nj nm, (j < m)%nat -> j <> strided_copy_dimension ->
     dims !! j = Some nj -> dims !! m = Some nm -> nj < nm).

(** The [j]-th tile of the split dimension [max_dim] by [part_size]: the
    interval from [j * part_size] to [(j + 1) * part_size], cut at the size
    of the dimension, and the full extent of every other dimension. *)
Definition tile (dims : list Z) (max_dim : nat) (max_dim_size part_size : Z)
    (j : nat) : CopyPartition :=
  mkCopyPartition
    (<[max_dim := Z.of_nat j * part_size]> (replicate (length dims) 0))
    (<[max_dim := Z.min ((Z.of_nat j + 1) * part_size) max_dim_size]> dims).

Definition tile_count (max_dim_size part_size : Z) : nat :=
  Z.to_nat ((max_dim_size + part_size - 1) / part_size).

Definition tiling (dims : list Z) (max_dim : nat)
    (max_dim_size part_size : Z) : list CopyPartition :=
  map (tile dims max_dim max_dim_size part_size)
    (seq 0 (tile_count max_dim_size part_size)).

(** The part size as the specification words it. *)
Definition part_size_spec (max_parts split_dim_size total : Z) : Z :=
  Z.max (split_dim_size / max_parts)
        (kMinThreadElements / (total / split_dim_size)).

(** The part size the code computes, on integers. *)
Definition part_size (env : Env) (dims : list Z) (max_dim_size : Z) : Z :=
  Z.max (Z.max (max_dim_size / max_parts env) 1)
        (kMinThreadElements / (product dims / max_dim_size)).

(** The pairs of element types between which [CopyData] transfers the
    object representation unchanged: a type and itself, and the two BF16
    representations in either direction. *)
Definition bit_copy (S D : CType) : Prop :=
  (S = D /\ NeedCast S = false) \/
  (S = c_at_BFloat16 /\ D = c_tf_bfloat16) \/
  (S = c_tf_bfloat16 /\ D = c_at_BFloat16).

(** ** Index vectors, offsets and boxes *)

(** The flat offset of an index vector, on integers. *)
Fixpoint dot (strides indices : list Z) {struct indices} : Z :=
  match indices, strides with
  | x :: indices', s :: strides' => x * s + dot strides' indices'
  | _, _ => 0
  end.

Definition sum_over (f : nat -> Z) (ds : list nat) : Z :=
  foldr (fun d acc => f d + acc) 0 ds.

(** The number an index vector denotes when its coordinates are read as
    digits, the first listed dimension being the least significant one and
    the sizes of the dimensions the radices. *)
Fixpoint mixed_radix (dims : list Z) (ds : list nat) (x : list Z) : Z :=
  match ds with
  | [] => 0
  | d :: ds' => x !!! d + dims !!! d * mixed_radix dims ds' x
  end.

Definition volume (dims : list Z) (ds : list nat) : Z :=
  foldr (fun d acc => dims !!! d * acc) 1 ds.

(** The digits of [x] at the dimensions [ds] are within their radices. *)
Definition digits_ok (dims : list Z) (ds : list nat) (x : list Z) : Prop :=
  forall d, d ∈ ds -> 0 <= x !!! d < dims !!! d.

(** [e] lies in the box from [lo] (inclusive) to [hi] (exclusive). *)
Definition in_box (lo hi e : list Z) : Prop :=
  length e = length hi /\
  forall i, (i < length hi)%nat -> lo !!! i <= e !!! i < hi !!! i.

Definition in_part (p : CopyPartition) (e : list Z) : Prop :=
  in_box (base p) (limit p) e.

Definition in_full (dims : list Z) (e : list Z) : Prop :=
  in_part (CopyPartition_of dims) e.

(** [strides] are the strides of the layout [m2m] of [dims]: positive, and
    weighing every index vector as its mixed-radix number. *)
Definition strides_for (dims : list Z) (m2m : list nat) (strides : list Z)
  : Prop :=
  length strides = length dims /\
  (forall i, (i < length dims)%nat ->
     0 < strides !!! i /\ strides !!! i * dims !!! i <= product dims) /\
  (forall x, sum_over (fun d => x !!! d * strides !!! d) m2m
             = mixed_radix dims m2m x).

(** [d'] is [d] after the cells of the index vectors in [P] have been
    written: the cell [pos e] holds [val e] for every [e] in [P], and every
    cell holds either such a value or what it held in [d]. *)
Definition written (pos : list Z -> nat) (val : list Z -> Z)
    (P : list Z -> Prop) (d d' : list Z) : Prop :=
  length d' = length d /\
  (forall e, P e -> d' !! pos e = Some (val e)) /\
  (forall q v, d' !! q = Some v ->
     (exists e, P e /\ pos e = q /\ v = val e) \/ d !! q = Some v).

(** The cell of the destination buffer an index vector is copied to, and
    the value copied there. *)
Definition cell_pos (dest_strides : list Z) (e : list Z) : nat :=
  Z.to_nat (dot dest_strides e).

Definition cell_val (static_cast : CType -> CType -> Z -> Z) (S D : CType)
    (src_buf src_strides : list Z) (e : list Z) : Z :=
  Caster_cast static_cast S D (src_buf !!! Z.to_nat (dot src_strides e)).

(** The index vectors one call of [StridedCopy] covers: [indices] with its
    coordinate at the inner dimension running over the first [n] values. *)
Definition in_row (inner : nat) (indices : list Z) (from n : nat)
    (e : list Z) : Prop :=
  exists i, (from <= i < n)%nat /\ e = <[inner:=Z.of_nat i]> indices.

(** ** The order in which [SlicedCopy] visits index vectors *)

(** [a] and [b] have the same coordinates at the dimensions [ds]. *)
Definition agree (ds : list nat) (a b : list Z) : Prop :=
  forall d, d ∈ ds -> a !!! d = b !!! d.

(** [a] comes before [b] when the dimensions [ds] are counted like the
    wheels of an odometer, the first listed dimension turning fastest. *)
Fixpoint lex_lt (ds : list nat) (a b : list Z) : Prop :=
  match ds with
  | [] => False
  | d :: ds' => lex_lt ds' a b \/ (agree ds' a b /\ a !!! d < b !!! d)
  end.

(** The number of steps from the base of the partition to [x]. *)
Fixpoint odometer_rank (p : CopyPartition) (ds : list nat) (x : list Z) : Z :=
  match ds with
  | [] => 0
  | d :: ds' =>
      (x !!! d - base p !!! d)
      + (limit p !!! d - base p !!! d) * odometer_rank p ds' x
  end.

Definition extent_volume (p : CopyPartition) (ds : list nat) : Z :=
  foldr (fun d acc => (limit p !!! d - base p !!! d) * acc) 1 ds.

(** A partition of the dimensions [dims]: a non-empty box within the full
    extent of every dimension. *)
Definition part_ok (dims : list Z) (p : CopyPartition) : Prop :=
  length (base p) = length dims /\ length (limit p) = length dims /\
  forall i, (i < length dims)%nat ->
    0 <= base p !!! i /\ base p !!! i < limit p !!! i /\
    limit p !!! i <= dims !!! i.

(** ** Loop invariants *)

(** The state of the scan of [GetIterationDimensions] before position [i],
    [n0] being the size of the first listed dimension: [scaled] bounds the
    sizes seen so far, and is either the initial threshold, nothing having
    been chosen, or the size of the chosen position, which then exceeds the
    initial threshold and every size before it. *)
Definition scan_inv (s : Shape) (n0 : Z) (i index : nat) (scaled : Z)
  : Prop :=
  (forall j nj, (1 <= j < i)%nat -> layout_size s j = Some nj -> nj <= scaled) /\
  ((index = 0%nat /\ scaled = 8 * n0) \/
   ((1 <= index < i)%nat /\ layout_size s index = Some scaled /\
    8 * n0 < scaled /\
    forall j nj, (1 <= j < index)%nat -> layout_size s j = Some nj ->
                 nj < scaled)).

(** The state of the search for the split dimension before position [i]:
    nothing found while every position seen is the strided copy dimension,
    otherwise the first position of largest size among the others. *)
Definition max_dim_inv (dims : list Z) (sd : nat) (i : nat)
    (max_dim : option nat) : Prop :=
  match max_dim with
  | None => forall j, (j < i)%nat -> (j < length dims)%nat -> j = sd
  | Some m =>
      (m < i)%nat /\ (m < length dims)%nat /\ m <> sd /\
      (forall j nj nm, (j < i)%nat -> j <> sd ->
         dims !! j = Some nj -> dims !! m = Some nm -> nj <= nm) /\
      (forall j nj nm, (j < m)%nat -> j <> sd ->
         dims !! j = Some nj -> dims !! m = Some nm -> nj < nm)
  end.

(** The index vector whose digits at the dimensions [ds] spell the number
    [q], written into [e]. *)
Fixpoint decode_index (dims : list Z) (ds : list nat) (q : Z) (e : list Z)
  : list Z :=
  match ds with
  | [] => e
  | d :: ds' =>
      decode_index dims ds' (q / dims !!! d) (<[d:=q mod dims !!! d]> e)
  end.

(** The conversion [CopyData<D, S>] applies to each element: none between
    the two BF16 representations, the cast of [Caster<S>] otherwise. *)
Definition CopyData_conversion (static_cast : CType -> CType -> Z -> Z)
    (S D : CType) (v : Z) : Z :=
  match D, S with
  | c_at_BFloat16, c_tf_bfloat16
  | c_tf_bfloat16, c_at_BFloat16 => v
  | _, _ => Caster_cast static_cast S D v
  end.
(** * Properties *)

(** ** Type mapper *)

(** C1, as stated: on a TPU with BF16 mode enabled the code widens a Byte
    tensor to U32, while the chain of the specification, whose TPU entries
    stand under the [else] of the BF16 test, leaves U8 unchanged. *)
Lemma promotion_chain_counterexample :
  let env := mkEnv true false (mkDevice CPU 0) 8 in
  let tpu := mkDevice TPU 0 in
  TensorTypeToRawXlaType Byte = Ok U8 /\
  MakeXlaPrimitiveType env Byte (Some tpu) = Ok U32 /\
  promotion_table_spec (UseBF16 env) (Use32BitLong env) (is_TPU tpu) U8 = U8.
Proof. repeat split. Qed.

(** C1, amended: for every supported scalar kind, every device and every
    setting of the two toggles, [MakeXlaPrimitiveType] is the promotion
    table applied to the raw mapping, where BF16 mode sends F32 and F64 to
    BF16, a TPU otherwise sends F64 to F32 and, whatever the BF16 toggle,
    U8/U16 to U32 and S8/S16 to S32, 32-bit-long mode sends S64 to S32 and
    U64 to U32, and every other kind is unchanged. *)
Theorem MakeXlaPrimitiveType_table env k device raw :
  TensorTypeToRawXlaType k = Ok raw ->
  MakeXlaPrimitiveType env k device =
  Ok (promotion_table (UseBF16 env) (Use32BitLong env)
        (is_TPU (GetDeviceOrCurrent env device)) raw).
Proof.
  intros Hraw.
  destruct k; simpl in Hraw; try discriminate;
    injection Hraw as <-; unfold MakeXlaPrimitiveType, GetDevicePrimitiveType,
      promotion_table, long32_entries; simpl;
    destruct (UseBF16 env), (Use32BitLong env),
      (is_TPU (GetDeviceOrCurrent env device)); reflexivity.
Qed.

Lemma MakeXlaPrimitiveType_table_witness :
  MakeXlaPrimitiveType (mkEnv false true (mkDevice GPU 1) 4) Long None
  = Ok S32.
Proof.
  exact (MakeXlaPrimitiveType_table (mkEnv false true (mkDevice GPU 1) 4)
           Long None S64 eq_refl).
Defined.

(** C6: [TensorTypeFromXlaType] answers BFloat16 for BF16 when BF16 mode is
    off and Float when it is on, Short for S16 and U16, Int for S32 and
    U32, Long for S64 and U64. *)
Theorem TensorTypeFromXlaType_table env :
  TensorTypeFromXlaType env BF16
    = Ok (if UseBF16 env then Float else BFloat16) /\
  TensorTypeFromXlaType env S16 = Ok Short /\
  TensorTypeFromXlaType env U16 = Ok Short /\
  TensorTypeFromXlaType env S32 = Ok Int /\
  TensorTypeFromXlaType env U32 = Ok Int /\
  TensorTypeFromXlaType env S64 = Ok Long /\
  TensorTypeFromXlaType env U64 = Ok Long.
Proof.
  repeat split. simpl. by destruct (UseBF16 env).
Qed.

(** ** Component shapes *)

Lemma GetComponentShapes_loop_arrays comps acc :
  Forall (fun c => IsTuple c = false) comps ->
  GetComponentShapes_loop comps acc = Ok (acc ++ comps).
Proof.
  revert acc. induction comps as [|c comps IH]; intros acc Hall; simpl.
  - by rewrite app_nil_r.
  - inversion Hall as [|? ? Hc Hrest]; subst.
    rewrite Hc. simpl. rewrite IH by done. by rewrite <- app_assoc.
Qed.

Lemma GetComponentShapes_loop_nested comps acc :
  Exists (fun c => IsTuple c = true) comps ->
  GetComponentShapes_loop comps acc = Err ShapeUnsupported.
Proof.
  revert acc. induction comps as [|c comps IH]; intros acc Hex; simpl.
  - inversion Hex.
  - destruct (IsTuple c) eqn:Hc; simpl; [done|].
    apply IH. inversion Hex; subst; [congruence|done].
Qed.

Lemma IsArray_not_tuple s : IsArray s = true -> IsTuple s = false.
Proof. unfold IsArray, IsTuple. by destruct (element_type s). Qed.

(** C8: [GetComponentShapes] answers the one-element list for an array
    shape, the direct children in order for a tuple whose children are all
    arrays, and fails with ShapeUnsupported for a tuple with a tuple
    child. *)
Theorem GetComponentShapes_cases (s : Shape) :
  (IsArray s = true -> GetComponentShapes s = Ok [s]) /\
  (IsTuple s = true ->
   Forall (fun c => IsArray c = true) (tuple_shapes s) ->
   GetComponentShapes s = Ok (tuple_shapes s)) /\
  (IsTuple s = true ->
   Exists (fun c => IsTuple c = true) (tuple_shapes s) ->
   GetComponentShapes s = Err ShapeUnsupported).
Proof.
  unfold GetComponentShapes. repeat split.
  - intros Ha. by rewrite (IsArray_not_tuple s Ha).
  - intros -> Hall. rewrite GetComponentShapes_loop_arrays; [done|].
    eapply Forall_impl; [exact Hall|]. intros c. apply IsArray_not_tuple.
  - intros -> Hex. by apply GetComponentShapes_loop_nested.
Qed.

Lemma GetComponentShapes_cases_witness :
  let a := mkShape F32 [2] [0%nat] [] in
  let b := mkShape S32 [3] [0%nat] [] in
  let t := mkShape TUPLE [] [] [a; b] in
  let n := mkShape TUPLE [] [] [t] in
  GetComponentShapes a = Ok [a] /\
  GetComponentShapes t = Ok [a; b] /\
  GetComponentShapes n = Err ShapeUnsupported.
Proof.
  intros a b t n. split; [|split].
  - apply (GetComponentShapes_cases a). reflexivity.
  - apply (GetComponentShapes_cases t); [reflexivity|].
    repeat constructor.
  - apply (GetComponentShapes_cases n); [reflexivity|].
    apply Exists_cons_hd. reflexivity.
Defined.

(** ** Tensor hash *)

Lemma le_bytes_length width v : length (le_bytes width v) = width.
Proof. revert v. induction width as [|w IH]; intros v; simpl; [done|]. by rewrite IH. Qed.

Lemma buffer_bytes_length width buf :
  0 <= width ->
  Z.of_nat (length (buffer_bytes width buf)) = Z.of_nat (length buf) * width.
Proof.
  intros Hw. unfold buffer_bytes. induction buf as [|v buf IH]; simpl; [lia|].
  rewrite length_app, le_bytes_length. lia.
Qed.

Lemma wrap64_id z : int64_range z -> wrap64 z = z.
Proof.
  unfold int64_range, wrap64. intros H.
  rewrite Z.mod_small by lia. lia.
Qed.

Lemma GetSizeof_pos k width : GetSizeof k = Ok width -> 0 < width.
Proof. destruct k; simpl; intros H; injection H as <-; lia. Qed.

(** C9: for a tensor of a supported scalar kind, [TensorHash] is the byte
    hash of exactly the [element_count * sizeof(scalar)] bytes of the
    tensor's buffer: it does not depend on what lies behind the buffer, and
    it does not depend on the tensor's shape. *)
Theorem TensorHash_content (hash_t : Type) (DataHash : list Z -> hash_t)
    (k : ScalarType) (dims : list Z) (buf : list Z) (beyond : list Z)
    (width : Z) :
  supported k ->
  GetSizeof k = Ok width ->
  Z.of_nat (length buf) * width < 2 ^ 63 ->
  TensorHash hash_t DataHash (mkTensor k dims buf) beyond
    = Ok (DataHash (buffer_bytes width buf)) /\
  Z.of_nat (length (buffer_bytes width buf)) = Z.of_nat (length buf) * width /\
  (forall dims' beyond',
     TensorHash hash_t DataHash (mkTensor k dims' buf) beyond'
     = TensorHash hash_t DataHash (mkTensor k dims buf) beyond).
Proof.
  intros Hk Hw Hfit.
  pose proof (GetSizeof_pos k width Hw) as Hpos.
  assert (Hread : forall dims0 beyond0,
    TensorHash hash_t DataHash (mkTensor k dims0 buf) beyond0
    = Ok (DataHash (buffer_bytes width buf))).
  { intros dims0 beyond0. unfold TensorHash. simpl. rewrite Hw. simpl.
    rewrite wrap64_id by (unfold int64_range; lia).
    rewrite Z.mod_small by lia.
    rewrite <- (buffer_bytes_length width buf) by lia.
    rewrite Nat2Z.id, take_app_length.
    destruct k; try reflexivity. by destruct Hk. }
  split; [apply Hread|]. split; [apply buffer_bytes_length; lia|].
  intros dims' beyond'. by rewrite !Hread.
Qed.

Lemma TensorHash_content_witness :
  TensorHash Z (fun bytes => fold_right Z.add 0 bytes)
    (mkTensor Int [3] [1; 2; 3]) [255; 255]
  = Ok 6.
Proof.
  refine (proj1 (TensorHash_content Z (fun bytes => fold_right Z.add 0 bytes)
                   Int [3] [1; 2; 3] [255; 255] 4 _ eq_refl _)).
  - intros E. discriminate E.
  - simpl. lia.
Defined.

(** ** Strides *)

Lemma vec_get_Ok {A} (v : list A) i x : v !! i = Some x -> vec_get v i = Ok x.
Proof. unfold vec_get. by intros ->. Qed.

Lemma vec_set_Ok {A} (v : list A) i x :
  (i < length v)%nat -> vec_set v i x = Ok (<[i:=x]> v).
Proof. unfold vec_set. intros H. by rewrite decide_True. Qed.

Lemma valid_layout_NoDup s : valid_layout s -> NoDup (minor_to_major s).
Proof. unfold valid_layout. intros H. rewrite H. apply NoDup_seq. Qed.

Lemma valid_layout_lt s d :
  valid_layout s -> d ∈ minor_to_major s -> (d < rank s)%nat.
Proof.
  unfold valid_layout. intros H Hd. rewrite H in Hd.
  apply elem_of_seq in Hd. lia.
Qed.

Lemma valid_layout_length s :
  valid_layout s -> length (minor_to_major s) = rank s.
Proof. unfold valid_layout. intros H. rewrite H. apply length_seq. Qed.

(** What the loop of [ComputeShapeStrides] leaves in [strides]: the entry
    of the first listed dimension is the incoming [stride], the entry of
    each further listed dimension is the wrapped product of the entry and
    the size of the dimension listed before it, and the entries of the
    dimensions not listed are untouched. *)
Lemma ComputeShapeStrides_loop_spec dims m2m strides stride :
  NoDup m2m ->
  (forall d, d ∈ m2m -> (d < length dims)%nat) ->
  length strides = length dims ->
  exists strides',
    ComputeShapeStrides_loop dims m2m strides stride = Ok strides' /\
    length strides' = length dims /\
    (forall d, m2m !! 0%nat = Some d -> strides' !! d = Some stride) /\
    (forall k d d' s n,
       m2m !! k = Some d -> m2m !! S k = Some d' ->
       strides' !! d = Some s -> dims !! d = Some n ->
       strides' !! d' = Some (wrap64 (s * n))) /\
    (forall d, d ∉ m2m -> strides' !! d = strides !! d).
Proof.
  revert strides stride.
  induction m2m as [|d m2m IH]; intros strides stride Hnd Hlt Hlen; simpl.
  - exists strides. repeat split; try done.
  - apply NoDup_cons in Hnd as [Hd Hnd].
    assert (Hdlt : (d < length dims)%nat) by (apply Hlt; left).
    rewrite vec_set_Ok by lia. simpl.
    destruct (lookup_lt_is_Some_2 dims d Hdlt) as [n Hn].
    rewrite (vec_get_Ok _ _ _ Hn). simpl.
    destruct (IH (<[d:=stride]> strides) (wrap64 (stride * n)) Hnd)
      as (strides' & Hrun & Hlen' & Hfirst & Hstep & Hrest).
    { intros d' Hd'. apply Hlt. by right. }
    { by rewrite length_insert. }
    assert (Hhere : strides' !! d = Some stride).
    { rewrite Hrest by done. apply list_lookup_insert_eq. lia. }
    exists strides'. split; [done|]. split; [done|]. split; [|split].
    + intros d0 Hd0. simpl in Hd0. by injection Hd0 as <-.
    + intros k a b s m Ha Hb Hs Hm. destruct k as [|k]; simpl in Ha, Hb.
      * injection Ha as <-. rewrite Hhere in Hs. injection Hs as <-.
        rewrite Hn in Hm. injection Hm as <-. by apply Hfirst.
      * exact (Hstep k a b s m Ha Hb Hs Hm).
    + intros d0 Hd0. apply not_elem_of_cons in Hd0 as [Hne Hd0].
      rewrite Hrest by done. by apply list_lookup_insert_ne.
Qed.

(** C5, as stated: the code multiplies in [xla::int64], so the recurrence
    does not hold over the integers for every shape.  With sizes
    [2^32; 2^32; 4] in the layout [[0; 1; 2]] the third stride is 0, while
    the second stride times the second size is 2^64; the same happens on
    the empty row-major shape of sizes [0; 2^40; 2^40]. *)
Lemma ComputeShapeStrides_counterexample :
  let s := mkShape S32 [2 ^ 32; 2 ^ 32; 4] [0; 1; 2]%nat [] in
  let e := mkShape S32 [0; 2 ^ 40; 2 ^ 40] [2; 1; 0]%nat [] in
  valid_layout s /\
  ComputeShapeStrides s = Ok [1; 2 ^ 32; 0] /\
  dimensions s !! 1%nat = Some (2 ^ 32) /\
  2 ^ 32 * 2 ^ 32 <> 0 /\
  valid_layout e /\
  ComputeShapeStrides e = Ok [0; 2 ^ 40; 1] /\
  dimensions e !! 1%nat = Some (2 ^ 40) /\
  2 ^ 40 * 2 ^ 40 <> 0.
Proof.
  cbv zeta. split; [|split; [|split; [|split; [|split; [|split; [|split]]]]]].
  - unfold valid_layout. reflexivity.
  - reflexivity.
  - reflexivity.
  - lia.
  - unfold valid_layout. simpl.
    change [2; 1; 0]%nat with (reverse [0; 1; 2]%nat).
    apply reverse_Permutation.
  - reflexivity.
  - reflexivity.
  - lia.
Qed.

(** C5, amended: for every shape whose layout is the permutation
    [[d0; ...; d_{r-1}]] of its dimension numbers, [ComputeShapeStrides]
    returns one stride per dimension with [stride[d0] = 1] and, for every
    [k < r - 1], [stride[d_{k+1}]] the product [stride[d_k] * dim[d_k]]
    reduced to 64 bits in two's complement; it is the product of the
    integers whenever that product is representable in 64 bits. *)
Theorem ComputeShapeStrides_formula (s : Shape) :
  valid_layout s ->
  exists strides,
    ComputeShapeStrides s = Ok strides /\
    length strides = rank s /\
    (forall d0, minor_to_major s !! 0%nat = Some d0 -> strides !! d0 = Some 1) /\
    (forall k dk dk1 sk nk,
       minor_to_major s !! k = Some dk ->
       minor_to_major s !! S k = Some dk1 ->
       strides !! dk = Some sk ->
       dimensions s !! dk = Some nk ->
       strides !! dk1 = Some (wrap64 (sk * nk))) /\
    (forall k dk dk1 sk nk,
       minor_to_major s !! k = Some dk ->
       minor_to_major s !! S k = Some dk1 ->
       strides !! dk = Some sk ->
       dimensions s !! dk = Some nk ->
       int64_range (sk * nk) ->
       strides !! dk1 = Some (sk * nk)).
Proof.
  intros Hv. unfold ComputeShapeStrides.
  destruct (ComputeShapeStrides_loop_spec (dimensions s) (minor_to_major s)
              (replicate (rank s) 0) 1)
    as (strides & Hrun & Hlen & Hfirst & Hstep & _).
  - by apply valid_layout_NoDup.
  - intros d Hd. by apply valid_layout_lt.
  - by rewrite length_replicate.
  - exists strides.
    split; [done|]. split; [done|]. split; [done|]. split; [exact Hstep|].
    intros k dk dk1 sk nk Hk Hk1 Hsk Hnk Hfit.
    rewrite <- (wrap64_id (sk * nk)) by done.
    exact (Hstep k dk dk1 sk nk Hk Hk1 Hsk Hnk).
Qed.

Lemma ComputeShapeStrides_formula_witness :
  exists strides,
    ComputeShapeStrides (mkShape S32 [2; 3; 4] [1; 2; 0]%nat []) = Ok strides /\
    strides !! 1%nat = Some 1 /\
    strides !! 2%nat = Some 3 /\
    strides !! 0%nat = Some 12.
Proof.
  destruct (ComputeShapeStrides_formula (mkShape S32 [2; 3; 4] [1; 2; 0]%nat []))
    as (strides & Hrun & Hlen & Hfirst & _ & Hstep).
  - unfold valid_layout. simpl.
    change [1; 2; 0]%nat with ([1; 2]%nat ++ [0%nat]).
    change [0; 1; 2]%nat with ([0%nat] ++ [1; 2]%nat).
    apply Permutation_app_comm.
  - exists strides. split; [exact Hrun|].
    assert (H1 : strides !! 1%nat = Some 1) by (by apply Hfirst).
    assert (H2 : strides !! 2%nat = Some 3).
    { apply (Hstep 0%nat 1%nat 2%nat 1 3);
        first [done | unfold int64_range; lia]. }
    split; [exact H1|]. split; [exact H2|].
    apply (Hstep 1%nat 2%nat 0%nat 3 4);
      first [done | unfold int64_range; lia].
Defined.

(** ** Iteration dimensions *)

(** C3, as stated: with layout sizes 1, 9, 10 the code first moves to the
    dimension of size 9 and then to the one of size 10, which does not
    exceed 8 times 9; the specification stays at the dimension of size 9.
    The code also exchanges the two entries instead of moving one to the
    front. *)
Lemma GetIterationDimensions_counterexample :
  let s := mkShape S32 [1; 9; 10] [0; 1; 2]%nat [] in
  GetIterationDimensions s = Ok [2; 1; 0]%nat /\
  GetIterationDimensions_spec s = [1; 0; 2]%nat /\
  layout_size s 1 = Some 9 /\ layout_size s 2 = Some 10.
Proof. repeat split. Qed.

Section IterationScan.

Variable s : Shape.
Variable n0 : Z.

Hypothesis layout_in_range :
  forall d, d ∈ minor_to_major s -> (d < rank s)%nat.

Lemma GetIterationDimensions_loop_inv rest i index scaled :
  (1 <= i)%nat ->
  drop i (minor_to_major s) = rest ->
  scan_inv s n0 i index scaled ->
  exists index' scaled',
    GetIterationDimensions_loop (dimensions s) rest i index scaled = Ok index' /\
    scan_inv s n0 (Nat.max i (length (minor_to_major s))) index' scaled'.
Proof.
  revert i index scaled.
  induction rest as [|dim rest IH]; intros i index scaled Hpos Hdrop Hinv;
    simpl.
  - exists index, scaled. split; [done|].
    assert (Hlen : (length (minor_to_major s) <= i)%nat).
    { apply (f_equal length) in Hdrop. rewrite length_drop in Hdrop.
      simpl in Hdrop. lia. }
    by replace (Nat.max i (length (minor_to_major s))) with i by lia.
  - assert (Hi : minor_to_major s !! i = Some dim).
    { rewrite <- (Nat.add_0_r i), <- lookup_drop, Hdrop. done. }
    assert (Hrest : drop (S i) (minor_to_major s) = rest).
    { rewrite (drop_S _ _ _ Hi) in Hdrop. by injection Hdrop. }
    assert (Hdim : (dim < rank s)%nat).
    { apply layout_in_range. by eapply list_elem_of_lookup_2. }
    destruct (lookup_lt_is_Some_2 (dimensions s) dim Hdim) as [size Hsize].
    rewrite (vec_get_Ok _ _ _ Hsize). simpl.
    assert (Hsz : layout_size s i = Some size).
    { unfold layout_size. by rewrite Hi. }
    assert (Hmax : Nat.max i (length (minor_to_major s))
                   = Nat.max (S i) (length (minor_to_major s))).
    { apply lookup_lt_Some in Hi. lia. }
    rewrite Hmax.
    destruct Hinv as [Hbound Hchoice].
    destruct (Z.ltb_spec scaled size) as [Hlt|Hge].
    + apply IH; [lia|done|]. split.
      * intros j nj Hj Hnj. destruct (decide (j = i)) as [->|Hne].
        -- rewrite Hsz in Hnj. injection Hnj as <-. lia.
        -- assert (nj <= scaled) by (apply (Hbound j); [lia|done]). lia.
      * right.
        split; [lia|]. split; [done|]. split.
        -- destruct Hchoice as [[_ ->]|(_ & _ & Hgt & _)]; lia.
        -- intros j nj Hj Hnj.
           assert (nj <= scaled) by (apply (Hbound j); [lia|done]). lia.
    + apply IH; [lia|done|]. split.
      * intros j nj Hj Hnj. destruct (decide (j = i)) as [->|Hne].
        -- rewrite Hsz in Hnj. injection Hnj as <-. lia.
        -- apply (Hbound j); [lia|done].
      * destruct Hchoice as [?|(Hidx & ? & ? & ?)]; [by left|right].
        repeat split; try done; lia.
Qed.

End IterationScan.

Lemma vec_swap_Ok {A} (v : list A) i j a b :
  v !! i = Some a -> v !! j = Some b ->
  vec_swap v i j = Ok (<[j:=a]> (<[i:=b]> v)).
Proof.
  intros Ha Hb. unfold vec_swap.
  rewrite (vec_get_Ok _ _ _ Ha), (vec_get_Ok _ _ _ Hb). simpl.
  rewrite vec_set_Ok by (by eapply lookup_lt_Some). simpl.
  rewrite vec_set_Ok; [done|].
  rewrite length_insert. by eapply lookup_lt_Some.
Qed.

(** C3, amended: the selection starts from the destination's
    [minor_to_major] list with its first entry as the tentative inner
    dimension and 8 times its size as the threshold; walking the remaining
    entries, an entry replaces the inner choice when its size exceeds the
    threshold, and the threshold then becomes that size itself.  So either
    no later entry exceeds 8 times the first size and the list is returned
    as it is, or the chosen entry is the first one of largest size among the
    later entries, that size exceeding 8 times the first size.  The returned
    list is [minor_to_major] with the first entry and the chosen entry
    exchanged. *)
Theorem GetIterationDimensions_choice (s : Shape) (first : nat) (n0 : Z) :
  (forall d, d ∈ minor_to_major s -> (d < rank s)%nat) ->
  minor_to_major s !! 0%nat = Some first ->
  dimensions s !! first = Some n0 ->
  int64_range (8 * n0) ->
  exists index chosen n,
    minor_to_major s !! index = Some chosen /\
    layout_size s index = Some n /\
    GetIterationDimensions s
      = Ok (<[index:=first]> (<[0%nat:=chosen]> (minor_to_major s))) /\
    ((index = 0%nat /\
      forall j nj, (1 <= j)%nat -> layout_size s j = Some nj -> nj <= 8 * n0) \/
     ((1 <= index)%nat /\ 8 * n0 < n /\
      (forall j nj, (1 <= j)%nat -> layout_size s j = Some nj -> nj <= n) /\
      (forall j nj, (1 <= j < index)%nat -> layout_size s j = Some nj ->
                    nj < n))).
Proof.
  intros Hrange Hfirst Hn0 Hfit.
  destruct (GetIterationDimensions_loop_inv s n0 Hrange
              (drop 1 (minor_to_major s)) 1 0 (8 * n0))
    as (index & scaled & Hrun & Hbound & Hchoice); [lia|done| |].
  { split; [intros j nj Hj; lia|by left]. }
  assert (Hin : forall j nj, layout_size s j = Some nj ->
                (j < Nat.max 1 (length (minor_to_major s)))%nat).
  { intros j nj Hj. unfold layout_size in Hj.
    destruct (minor_to_major s !! j) eqn:E; [|done].
    apply lookup_lt_Some in E. lia. }
  unfold GetIterationDimensions.
  rewrite (vec_get_Ok _ _ _ Hfirst). simpl.
  rewrite (vec_get_Ok _ _ _ Hn0). simpl.
  unfold kMinorDimScale. rewrite (wrap64_id _ Hfit), Hrun. simpl.
  destruct Hchoice as [[-> ->]|(Hidx & Hsize & Hgt & Hbefore)].
  - exists 0%nat, first, n0. split; [done|]. split.
    { unfold layout_size. by rewrite Hfirst. }
    split; [by apply vec_swap_Ok|]. left. split; [done|].
    intros j nj Hj Hnj. apply (Hbound j); [|done].
    specialize (Hin j nj Hnj). lia.
  - assert (Hsize' := Hsize). unfold layout_size in Hsize'.
    destruct (minor_to_major s !! index) as [chosen|] eqn:Hchosen; [|done].
    exists index, chosen, scaled. split; [done|]. split; [done|].
    split; [by apply vec_swap_Ok|]. right. split; [lia|]. split; [done|].
    split; [|done].
    intros j nj Hj Hnj. apply (Hbound j); [|done].
    specialize (Hin j nj Hnj). lia.
Qed.

Lemma GetIterationDimensions_choice_witness :
  exists index chosen n,
    minor_to_major (mkShape S32 [1; 9; 10] [0; 1; 2]%nat []) !! index
      = Some chosen /\
    layout_size (mkShape S32 [1; 9; 10] [0; 1; 2]%nat []) index = Some n /\
    GetIterationDimensions (mkShape S32 [1; 9; 10] [0; 1; 2]%nat [])
      = Ok (<[index:=0%nat]> (<[0%nat:=chosen]> [0; 1; 2]%nat)).
Proof.
  destruct (GetIterationDimensions_choice
              (mkShape S32 [1; 9; 10] [0; 1; 2]%nat []) 0%nat 1)
    as (index & chosen & n & H1 & H2 & H3 & _).
  - intros d Hd. simpl in *. 
    apply list_elem_of_In in Hd. simpl in Hd.
    destruct Hd as [<-|[<-|[<-|[]]]]; unfold rank; simpl; lia.
  - reflexivity.
  - reflexivity.
  - unfold int64_range. lia.
  - exists index, chosen, n. split; [exact H1|]. split; [exact H2|exact H3].
Defined.

(** ** Copy partitions *)

Lemma product_pos dims : Forall (fun d => 0 < d) dims -> 0 < product dims.
Proof.
  induction 1 as [|d dims Hd _ IH]; unfold product in *; simpl; [lia|]. nia.
Qed.

Lemma Multiply_loop_exact dims acc :
  Forall (fun d => 0 < d) dims -> 0 < acc -> acc * product dims < 2 ^ 63 ->
  fold_left (fun a d => wrap64 (a * d)) dims acc = acc * product dims.
Proof.
  intros Hall. revert acc.
  induction Hall as [|d dims Hd Hall IH]; intros acc Hacc Hfit; simpl.
  - lia.
  - pose proof (product_pos dims Hall) as Hp.
    simpl in Hfit. fold (product dims) in Hfit |- *.
    assert (acc * d <= acc * d * product dims) by nia.
    rewrite wrap64_id by (unfold int64_range; nia).
    rewrite IH; [ring|nia|].
    replace (acc * d * product dims) with (acc * (d * product dims)) by ring.
    done.
Qed.

Lemma Multiply_exact dims :
  Forall (fun d => 0 < d) dims -> product dims < 2 ^ 63 ->
  Multiply dims = product dims.
Proof.
  intros Hall Hfit. unfold Multiply.
  rewrite Multiply_loop_exact; [lia|done|lia|lia].
Qed.

Lemma product_lookup_le dims i n :
  Forall (fun d => 0 < d) dims -> dims !! i = Some n ->
  0 < n /\ n * (product dims / n) = product dims /\ 0 < product dims / n.
Proof.
  intros Hall. revert i.
  induction Hall as [|d dims Hd Hall IH]; intros i Hi; [done|].
  pose proof (product_pos dims Hall) as Hp.
  destruct i as [|i]; simpl in Hi.
  - injection Hi as <-. simpl. fold (product dims).
    assert (E : d * product dims / d = product dims).
    { rewrite Z.mul_comm. apply Z.div_mul. lia. }
    rewrite E. split; [lia|]. split; lia.
  - destruct (IH i Hi) as (Hn & Hmul & Hq). simpl. fold (product dims).
    split; [done|].
    assert (E : d * product dims / n = d * (product dims / n)).
    { rewrite <- Hmul at 1.
      replace (d * (n * (product dims / n)))
        with (d * (product dims / n) * n) by ring.
      apply Z.div_mul. lia. }
    rewrite E. split; [|nia].
    rewrite <- Hmul at 2. ring.
Qed.

Section MaxDim.

Variable dims : list Z.
Variable sd : nat.

Lemma max_dim_loop_inv rest i max_dim :
  drop i dims = rest ->
  max_dim_inv dims sd i max_dim ->
  exists found,
    max_dim_loop dims sd rest i max_dim = Ok found /\
    max_dim_inv dims sd (Nat.max i (length dims)) found.
Proof.
  revert i max_dim.
  induction rest as [|size rest IH]; intros i max_dim Hdrop Hinv; simpl.
  - exists max_dim. split; [done|].
    assert (Hlen : (length dims <= i)%nat).
    { apply (f_equal length) in Hdrop. rewrite length_drop in Hdrop.
      simpl in Hdrop. lia. }
    by replace (Nat.max i (length dims)) with i by lia.
  - assert (Hi : dims !! i = Some size).
    { rewrite <- (Nat.add_0_r i), <- lookup_drop, Hdrop. done. }
    assert (Hrest : drop (S i) dims = rest).
    { rewrite (drop_S _ _ _ Hi) in Hdrop. by injection Hdrop. }
    assert (Hmax : Nat.max i (length dims) = Nat.max (S i) (length dims)).
    { apply lookup_lt_Some in Hi. lia. }
    rewrite Hmax.
    destruct (decide (i = sd)) as [Heq|Hne].
    + apply IH; [done|]. destruct max_dim as [m|]; simpl in *.
      * destruct Hinv as (? & ? & ? & Hle & Hlt).
        repeat split; try done; [lia|].
        intros j nj nm Hj Hjs. apply Hle; [lia|done].
      * intros j Hj Hjl. destruct (decide (j = i)); [lia|]. apply Hinv; lia.
    + destruct max_dim as [m|]; simpl in Hinv.
      * destruct Hinv as (Hmi & Hml & Hms & Hle & Hlt).
        destruct (lookup_lt_is_Some_2 dims m Hml) as [best Hbest].
        rewrite (vec_get_Ok _ _ _ Hbest). simpl.
        apply IH; [done|].
        destruct (Z.ltb_spec best size) as [Hlt'|Hge]; simpl.
        -- split; [lia|]. split; [by eapply lookup_lt_Some|]. split; [done|].
           split.
           ++ intros j nj nm Hj Hjs Hnj Hnm.
              rewrite Hi in Hnm. injection Hnm as <-.
              destruct (decide (j = i)) as [->|Hji].
              ** rewrite Hi in Hnj. injection Hnj as <-. lia.
              ** assert (nj <= best) by (by apply (Hle j nj best); [lia|..]).
                 lia.
           ++ intros j nj nm Hj Hjs Hnj Hnm.
              rewrite Hi in Hnm. injection Hnm as <-.
              assert (nj <= best) by (by apply (Hle j nj best); [lia|..]).
              lia.
        -- split; [lia|]. split; [done|]. split; [done|]. split; [|done].
           intros j nj nm Hj Hjs Hnj Hnm.
           destruct (decide (j = i)) as [->|Hji].
           ++ rewrite Hi in Hnj. injection Hnj as <-.
              rewrite Hbest in Hnm. injection Hnm as <-. lia.
           ++ apply (Hle j nj nm); [lia|done..].
      * apply IH; [done|]. simpl.
        split; [lia|]. split; [by eapply lookup_lt_Some|]. split; [done|].
        split.
        -- intros j nj nm Hj Hjs Hnj Hnm.
           destruct (decide (j = i)) as [->|Hji].
           ++ rewrite Hnj in Hnm. injection Hnm as <-. lia.
           ++ exfalso. apply Hjs, Hinv; [lia|by eapply lookup_lt_Some].
        -- intros j nj nm Hj Hjs Hnj Hnm.
           exfalso. apply Hjs, Hinv; [lia|by eapply lookup_lt_Some].
Qed.

Lemma max_dim_loop_found :
  (exists i, (i < length dims)%nat /\ i <> sd) ->
  exists m, max_dim_loop dims sd dims 0 None = Ok (Some m) /\
            largest_other dims sd m.
Proof.
  intros (i & Hi & His).
  destruct (max_dim_loop_inv dims 0 None) as (found & Hrun & Hinv);
    [done|intros j Hj; lia|].
  replace (Nat.max 0 (length dims)) with (length dims) in Hinv by lia.
  destruct found as [m|]; simpl in Hinv.
  - exists m. split; [done|].
    destruct Hinv as (_ & Hml & Hms & Hle & Hlt).
    split; [done|]. split; [done|]. split; [|done].
    intros j nj nm Hjs Hnj Hnm. apply (Hle j nj nm); try done.
    by eapply lookup_lt_Some.
  - exfalso. apply His. by apply Hinv.
Qed.

End MaxDim.

Lemma tile_count_spec size ps j :
  0 < ps -> Z.of_nat j * ps < size <-> (j < tile_count size ps)%nat.
Proof.
  intros Hps. unfold tile_count.
  pose proof (Z.mul_div_le (size + ps - 1) ps Hps) as Hlo.
  pose proof (Z.mul_succ_div_gt (size + ps - 1) ps Hps) as Hhi.
  set (q := (size + ps - 1) / ps) in *.
  split; intros H.
  - assert (Z.of_nat j < q) by nia. lia.
  - assert (Z.of_nat j + 1 <= q) by lia. nia.
Qed.

Lemma tile_count_le size ps :
  0 < ps -> 0 <= size -> (tile_count size ps <= Z.to_nat size)%nat.
Proof.
  intros Hps Hsize.
  destruct (decide (tile_count size ps <= Z.to_nat size)%nat) as [|Hn]; [done|].
  exfalso.
  assert (H : (Z.to_nat size < tile_count size ps)%nat) by lia.
  apply tile_count_spec in H; [|done]. nia.
Qed.

Lemma CreateCopyPartitions_loop_spec fuel dims m size ps j parts :
  (m < length dims)%nat -> 0 < ps < 2 ^ 63 -> 0 <= size < 2 ^ 63 ->
  (tile_count size ps - j <= fuel)%nat ->
  CreateCopyPartitions_loop fuel dims m size ps
    (Z.min (Z.of_nat j * ps) size) parts
  = Ok (parts ++ map (tile dims m size ps) (seq j (tile_count size ps - j))).
Proof.
  intros Hm Hps Hsize. revert j parts.
  induction fuel as [|fuel IH]; intros j parts Hfuel.
  - assert (Hj : ~ (j < tile_count size ps)%nat) by lia.
    rewrite <- tile_count_spec in Hj by lia.
    replace (tile_count size ps - j)%nat with 0%nat by lia.
    simpl. rewrite app_nil_r.
    destruct (Z.ltb_spec (Z.min (Z.of_nat j * ps) size) size); [lia|done].
  - destruct (decide (j < tile_count size ps)%nat) as [Hj|Hj].
    + assert (Hlt := Hj). rewrite <- tile_count_spec in Hlt by lia.
      rewrite Z.min_l by lia. simpl.
      destruct (Z.ltb_spec (Z.of_nat j * ps) size) as [_|]; [|lia].
      rewrite vec_set_Ok by (by rewrite length_replicate). simpl.
      rewrite (wrap64_id (size - _)) by (unfold int64_range; lia).
      rewrite (wrap64_id (_ + _)) by (unfold int64_range; lia).
      rewrite vec_set_Ok by done. simpl.
      replace (Z.of_nat j * ps + Z.min ps (size - Z.of_nat j * ps))
        with (Z.min (Z.of_nat (S j) * ps) size) by lia.
      rewrite IH by lia.
      replace (tile_count size ps - j)%nat
        with (S (tile_count size ps - S j)) by lia.
      rewrite <- app_assoc. simpl. do 3 f_equal.
      unfold tile. do 3 f_equal. lia.
    + assert (Hge := Hj). rewrite <- tile_count_spec in Hge by lia.
      replace (tile_count size ps - j)%nat with 0%nat by lia.
      simpl. rewrite app_nil_r.
      destruct (Z.ltb_spec (Z.min (Z.of_nat j * ps) size) size); [lia|done].
Qed.

Lemma max_parts_pos env : 1 <= max_parts env.
Proof. unfold max_parts. lia. Qed.

Lemma div64_exact a b :
  0 <= a < 2 ^ 63 -> 0 < b -> div64 a b = Ok (a / b).
Proof.
  intros Ha Hb. unfold div64.
  destruct (Z.eqb_spec b 0); [lia|].
  rewrite Z.quot_div_nonneg by lia.
  pose proof (Z.div_pos a b ltac:(lia) Hb).
  pose proof (Z.div_le_upper_bound a b a Hb ltac:(nia)).
  rewrite wrap64_id; [done|unfold int64_range; lia].
Qed.

Lemma part_size_bounds env dims i size :
  Forall (fun d => 0 < d) dims -> product dims < 2 ^ 63 ->
  dims !! i = Some size ->
  0 < part_size env dims size < 2 ^ 63.
Proof.
  intros Hall Hfit Hi. unfold part_size, kMinThreadElements.
  destruct (product_lookup_le dims i size Hall Hi) as (Hpos & Hmul & Hunit).
  pose proof (max_parts_pos env) as Hmp.
  pose proof (Z.div_le_upper_bound size (max_parts env) size ltac:(lia)
                ltac:(nia)).
  pose proof (Z.div_le_upper_bound 100000 (product dims / size) 100000
                ltac:(lia) ltac:(nia)).
  assert (size <= product dims) by nia. lia.
Qed.

(** What [CreateCopyPartitions] returns on a dimension list of positive
    sizes whose product is representable, when some dimension other than
    the strided copy dimension exists. *)
Lemma CreateCopyPartitions_Ok env dims sd :
  Forall (fun d => 0 < d) dims -> product dims < 2 ^ 63 ->
  (exists i, (i < length dims)%nat /\ i <> sd) ->
  exists max_dim size,
    largest_other dims sd max_dim /\ dims !! max_dim = Some size /\
    forall fuel, (tile_count size (part_size env dims size) <= fuel)%nat ->
      CreateCopyPartitions env fuel dims sd
      = Ok (tiling dims max_dim size (part_size env dims size)).
Proof.
  intros Hall Hfit Hother.
  destruct (max_dim_loop_found dims sd Hother) as (m & Hrun & Hlarge).
  assert (Hm : (m < length dims)%nat) by apply Hlarge.
  destruct (lookup_lt_is_Some_2 dims m Hm) as [size Hsize].
  exists m, size. split; [done|]. split; [done|]. intros fuel Hfuel.
  destruct (product_lookup_le dims m size Hall Hsize) as (Hpos & Hmul & Hunit).
  pose proof (part_size_bounds env dims m size Hall Hfit Hsize) as Hps.
  pose proof (max_parts_pos env) as Hmp.
  assert (size <= product dims) by nia.
  unfold CreateCopyPartitions. rewrite Hrun. simpl.
  rewrite (vec_get_Ok _ _ _ Hsize). simpl.
  rewrite (Multiply_exact dims Hall Hfit).
  pose proof (product_pos dims Hall).
  rewrite div64_exact by lia. simpl.
  unfold part_size_of.
  rewrite (div64_exact size (max_parts env)) by lia. simpl.
  assert (product dims / size <= product dims) by nia.
  rewrite div64_exact by (unfold kMinThreadElements; lia). simpl.
  fold (part_size env dims size).
  pose proof (CreateCopyPartitions_loop_spec fuel dims m size
                (part_size env dims size) 0 [] Hm Hps ltac:(lia)
                ltac:(lia)) as Hloop.
  rewrite Z.min_l in Hloop by lia.
  change (Z.of_nat 0 * part_size env dims size) with 0 in Hloop.
  rewrite Hloop. unfold tiling. by rewrite Nat.sub_0_r.
Qed.

(** C4, as stated: with 8 hardware threads ([max_parts] 4), dimensions
    [[3; 100001]] and inner dimension 1, both quotients of the formula are
    0, so the stated part size is 0; the code clamps the first quotient to
    1 and returns three partitions of width 1.  The code has no result on a
    list without a dimension other than the inner one, on a list with an
    empty dimension, or on a list whose product wraps to 0. *)
Lemma part_size_counterexample :
  let env := mkEnv false false (mkDevice CPU 0) 8 in
  max_parts env = 4 /\
  part_size_spec (max_parts env) 3 (product [3; 100001]) = 0 /\
  part_size_of (max_parts env) 3 100001 = Ok 1 /\
  CreateCopyPartitions env 3 [3; 100001] 1
    = Ok [mkCopyPartition [0; 0] [1; 100001];
          mkCopyPartition [1; 0] [2; 100001];
          mkCopyPartition [2; 0] [3; 100001]] /\
  CreateCopyPartitions env 3 [5] 0 = Err OutOfBounds /\
  CreateCopyPartitions env 3 [0; 3] 0 = Err DivisionByZero /\
  CreateCopyPartitions env 3 [2 ^ 33; 2 ^ 31] 0 = Err DivisionByZero.
Proof. vm_compute. repeat split. Qed.

(** C4, amended: for every dimension list of positive sizes whose product
    is representable in 64 bits and every inner dimension that leaves some
    other dimension, the partitioner selects the first largest dimension
    other than the inner one as the split dimension, computes
    [part_size = max(max(split_dim_size / max_parts, 1),
                     min_elements_per_task / (total / split_dim_size))]
    with [max_parts = max(1, hardware_concurrency / 2)] and
    [min_elements_per_task = 100000], and tiles the split dimension by
    [part_size], each partition spanning the full extent of every other
    dimension. *)
Theorem CreateCopyPartitions_tiling env dims sd :
  Forall (fun d => 0 < d) dims -> product dims < 2 ^ 63 ->
  (exists i, (i < length dims)%nat /\ i <> sd) ->
  exists max_dim size,
    largest_other dims sd max_dim /\ dims !! max_dim = Some size /\
    forall fuel, (Z.to_nat size <= fuel)%nat ->
      CreateCopyPartitions env fuel dims sd
      = Ok (tiling dims max_dim size
              (Z.max (Z.max (size / Z.max (hardware_concurrency env / 2) 1) 1)
                     (100000 / (product dims / size)))).
Proof.
  intros Hall Hfit Hother.
  destruct (CreateCopyPartitions_Ok env dims sd Hall Hfit Hother)
    as (m & size & Hlarge & Hsize & Hrun).
  exists m, size. split; [done|]. split; [done|]. intros fuel Hfuel.
  pose proof (part_size_bounds env dims m size Hall Hfit Hsize) as Hps.
  destruct (product_lookup_le dims m size Hall Hsize) as (Hpos & _ & _).
  pose proof (tile_count_le size (part_size env dims size) ltac:(lia)
                ltac:(lia)).
  rewrite Hrun by lia. unfold part_size, max_parts, kMinThreadElements.
  destruct (Z.le_gt_cases 0 (hardware_concurrency env)) as [Hhc|Hhc].
  - by rewrite Z.quot_div_nonneg by lia.
  - assert (Hq : Z.quot (hardware_concurrency env) 2 <= 0).
    { apply Z.quot_le_upper_bound; lia. }
    assert (Hd : hardware_concurrency env / 2 <= 0).
    { apply Z.div_le_upper_bound; lia. }
    rewrite (Z.max_r (Z.quot (hardware_concurrency env) 2) 1) by lia.
    by rewrite (Z.max_r (hardware_concurrency env / 2) 1) by lia.
Qed.

Lemma CreateCopyPartitions_tiling_witness :
  exists max_dim size,
    largest_other [2; 3] 0 max_dim /\ [2; 3] !! max_dim = Some size /\
    forall fuel, (Z.to_nat size <= fuel)%nat ->
      CreateCopyPartitions (mkEnv false false (mkDevice CPU 0) 8) fuel [2; 3] 0
      = Ok (tiling [2; 3] max_dim size
              (Z.max (Z.max (size / Z.max (8 / 2) 1) 1)
                     (100000 / (product [2; 3] / size)))).
Proof.
  apply (CreateCopyPartitions_tiling (mkEnv false false (mkDevice CPU 0) 8)
           [2; 3] 0%nat).
  - repeat constructor.
  - simpl. lia.
  - exists 1%nat. simpl. lia.
Defined.

Lemma tiling_lookup dims m size ps k p :
  tiling dims m size ps !! k = Some p <->
  (k < tile_count size ps)%nat /\ p = tile dims m size ps k.
Proof.
  unfold tiling. rewrite list_lookup_fmap. split.
  - destruct (seq 0 (tile_count size ps) !! k) as [k'|] eqn:E; [|done].
    apply lookup_seq in E as [-> ?]. simpl. intros Hp. by injection Hp as <-.
  - intros [Hk ->]. by rewrite lookup_seq_lt.
Qed.

Lemma tiling_elem dims m size ps p :
  p ∈ tiling dims m size ps <->
  exists k, (k < tile_count size ps)%nat /\ p = tile dims m size ps k.
Proof.
  rewrite list_elem_of_lookup. split.
  - intros [k Hk]. exists k. by apply tiling_lookup.
  - intros [k Hk]. exists k. by apply tiling_lookup.
Qed.

Lemma tiling_length dims m size ps :
  length (tiling dims m size ps) = tile_count size ps.
Proof. unfold tiling. by rewrite length_map, length_seq. Qed.

(** C10, as stated: on a one-dimensional list whose only dimension is the
    inner one no split dimension exists and the code subscripts the list
    at -1; on a list of positive sizes whose product wraps to 0 the code
    divides by zero.  Neither call returns a partition list. *)
Lemma CreateCopyPartitions_counterexample :
  let env := mkEnv false false (mkDevice CPU 0) 8 in
  CreateCopyPartitions env 8 [5] 0 = Err OutOfBounds /\
  CreateCopyPartitions env 8 [2 ^ 32; 2 ^ 32] 0 = Err DivisionByZero.
Proof. vm_compute. split; reflexivity. Qed.

(** C10, amended: for every dimension list whose entries are all positive
    and whose product is representable in 64 bits, and every inner
    dimension that leaves some other dimension, the partition list returned
    by [CreateCopyPartitions] is non-empty, each partition's base and limit
    on the split dimension form a non-empty interval, consecutive
    partitions' intervals are adjacent and the intervals are pairwise
    disjoint, the first starts at 0 and the last ends at the split
    dimension's size, every point of [[0, split_dim_size)] lies in one of
    them, and every partition has base 0 and limit equal to the full
    dimension size on every other dimension. *)
Theorem CreateCopyPartitions_intervals env dims sd :
  Forall (fun d => 0 < d) dims -> product dims < 2 ^ 63 ->
  (exists i, (i < length dims)%nat /\ i <> sd) ->
  exists max_dim size parts,
    largest_other dims sd max_dim /\ dims !! max_dim = Some size /\
    (forall fuel, (Z.to_nat size <= fuel)%nat ->
       CreateCopyPartitions env fuel dims sd = Ok parts) /\
    parts <> [] /\
    (forall p, p ∈ parts ->
       length (base p) = length dims /\ length (limit p) = length dims /\
       (exists b l, base p !! max_dim = Some b /\
                    limit p !! max_dim = Some l /\ 0 <= b < l /\ l <= size) /\
       (forall i, i <> max_dim -> (i < length dims)%nat ->
          base p !! i = Some 0 /\ limit p !! i = dims !! i)) /\
    (forall k p q, parts !! k = Some p -> parts !! S k = Some q ->
       limit p !! max_dim = base q !! max_dim) /\
    (forall k k' p q l b, (k < k')%nat ->
       parts !! k = Some p -> parts !! k' = Some q ->
       limit p !! max_dim = Some l -> base q !! max_dim = Some b -> l <= b) /\
    (exists p, parts !! 0%nat = Some p /\ base p !! max_dim = Some 0) /\
    (exists p, last parts = Some p /\ limit p !! max_dim = Some size) /\
    (forall x, 0 <= x < size ->
       exists p b l, p ∈ parts /\ base p !! max_dim = Some b /\
                     limit p !! max_dim = Some l /\ b <= x < l).
Proof.
  intros Hall Hfit Hother.
  destruct (CreateCopyPartitions_Ok env dims sd Hall Hfit Hother)
    as (m & size & Hlarge & Hsize & Hrun).
  pose proof (part_size_bounds env dims m size Hall Hfit Hsize) as Hps.
  destruct (product_lookup_le dims m size Hall Hsize) as (Hpos & _ & _).
  set (ps := part_size env dims size) in *.
  assert (Hm : (m < length dims)%nat) by apply Hlarge.
  assert (Hcount : forall k, Z.of_nat k * ps < size <->
                             (k < tile_count size ps)%nat).
  { intros k. apply tile_count_spec. lia. }
  assert (Hb : forall k, base (tile dims m size ps k) !! m
                         = Some (Z.of_nat k * ps)).
  { intros k. simpl. apply list_lookup_insert_eq.
    by rewrite length_replicate. }
  assert (Hl : forall k, limit (tile dims m size ps k) !! m
                         = Some (Z.min ((Z.of_nat k + 1) * ps) size)).
  { intros k. simpl. by apply list_lookup_insert_eq. }
  exists m, size, (tiling dims m size ps).
  split; [done|]. split; [done|]. split.
  { intros fuel Hfuel. apply Hrun.
    pose proof (tile_count_le size ps ltac:(lia) ltac:(lia)). lia. }
  split.
  { intros Hnil. apply (f_equal length) in Hnil.
    rewrite tiling_length in Hnil. simpl in Hnil.
    assert (0 < tile_count size ps)%nat by (apply Hcount; lia). lia. }
  split.
  { intros p Hp. apply tiling_elem in Hp as (k & Hk & ->).
    apply Hcount in Hk.
    split; [simpl; by rewrite length_insert, length_replicate|].
    split; [simpl; by rewrite length_insert|]. split.
    - eexists _, _. split; [apply Hb|]. split; [apply Hl|]. nia.
    - intros i Hi Hil. simpl.
      rewrite !list_lookup_insert_ne by done.
      split; [|done]. by apply lookup_replicate_2. }
  split.
  { intros k p q Hp Hq.
    apply tiling_lookup in Hp as [_ ->]. apply tiling_lookup in Hq as [Hk ->].
    apply Hcount in Hk. rewrite Hb, Hl. f_equal. lia. }
  split.
  { intros k k' p q l b Hkk Hp Hq Hlp Hbq.
    apply tiling_lookup in Hp as [_ ->]. apply tiling_lookup in Hq as [_ ->].
    rewrite Hl in Hlp. rewrite Hb in Hbq.
    injection Hlp as <-. injection Hbq as <-. nia. }
  split.
  { exists (tile dims m size ps 0). split; [|by rewrite Hb].
    apply tiling_lookup. split; [apply Hcount; lia|done]. }
  split.
  { assert (Hq : (0 < tile_count size ps)%nat) by (apply Hcount; lia).
    exists (tile dims m size ps (pred (tile_count size ps))). split.
    - rewrite last_lookup, tiling_length. apply tiling_lookup. split; [lia|done].
    - rewrite Hl. f_equal.
      assert (Hn : ~ (tile_count size ps < tile_count size ps)%nat) by lia.
      rewrite <- Hcount in Hn.
      replace (Z.of_nat (pred (tile_count size ps)) + 1)
        with (Z.of_nat (tile_count size ps)) by lia.
      lia. }
  intros x Hx.
  pose proof (Z.mul_div_le x ps ltac:(lia)) as Hlo.
  pose proof (Z.mul_succ_div_gt x ps ltac:(lia)) as Hhi.
  pose proof (Z.div_pos x ps ltac:(lia) ltac:(lia)) as Hk0.
  exists (tile dims m size ps (Z.to_nat (x / ps))).
  eexists _, _. split; [|split; [apply Hb|split; [apply Hl|]]].
  - apply tiling_elem. eexists. split; [|done]. apply Hcount. nia.
  - rewrite Z2Nat.id by lia. nia.
Qed.

Lemma CreateCopyPartitions_intervals_witness :
  exists parts, parts <> [] /\
    CreateCopyPartitions (mkEnv false false (mkDevice CPU 0) 2) 7 [4; 7] 0
    = Ok parts.
Proof.
  destruct (CreateCopyPartitions_intervals
              (mkEnv false false (mkDevice CPU 0) 2) [4; 7] 0%nat)
    as (m & size & parts & Hlarge & Hsize & Hrun & Hne & _).
  - repeat constructor.
  - simpl. lia.
  - exists 1%nat. simpl. lia.
  - exists parts. split; [exact Hne|]. apply Hrun.
    destruct Hlarge as (Hm & Hms & _). simpl in Hm.
    assert (m = 1%nat) as -> by lia.
    simpl in Hsize. injection Hsize as <-. simpl. lia.
Defined.

(** ** Linear copy and the literal round trip *)

Lemma copy_elements_lookup f n pos dest_buf src_buf :
  (pos + n <= length src_buf)%nat -> (pos + n <= length dest_buf)%nat ->
  exists r,
    copy_elements f n pos dest_buf src_buf = Ok r /\
    length r = length dest_buf /\
    forall i, r !! i = if decide (pos <= i < pos + n)%nat
                       then f <$> src_buf !! i else dest_buf !! i.
Proof.
  revert pos dest_buf.
  induction n as [|n IH]; intros pos dest_buf Hsrc Hdest; simpl.
  - exists dest_buf. split; [done|]. split; [done|].
    intros i. by rewrite decide_False by lia.
  - destruct (lookup_lt_is_Some_2 src_buf pos ltac:(lia)) as [x Hx].
    rewrite (vec_get_Ok _ _ _ Hx). simpl.
    rewrite vec_set_Ok by lia. simpl.
    destruct (IH (S pos) (<[pos:=f x]> dest_buf)) as (r & Hrun & Hlen & Hr);
      [lia|rewrite length_insert; lia|].
    exists r. split; [done|]. split; [by rewrite Hlen, length_insert|].
    intros i. rewrite Hr.
    destruct (decide (S pos <= i < S pos + n)%nat).
    + by rewrite decide_True by lia.
    + destruct (decide (i = pos)) as [->|Hne].
      * rewrite decide_True by lia.
        rewrite list_lookup_insert_eq by lia. by rewrite Hx.
      * rewrite decide_False by lia. by apply list_lookup_insert_ne.
Qed.

Lemma copy_elements_identity f src_buf dest_buf :
  (forall v, f v = v) -> length dest_buf = length src_buf ->
  copy_elements f (length src_buf) 0 dest_buf src_buf = Ok src_buf.
Proof.
  intros Hf Hlen.
  destruct (copy_elements_lookup f (length src_buf) 0 dest_buf src_buf)
    as (r & Hrun & Hrlen & Hr); [lia|lia|].
  rewrite Hrun. f_equal. apply list_eq. intros i. rewrite Hr.
  destruct (decide (0 <= i < 0 + length src_buf)%nat) as [Hi|Hi].
  - destruct (src_buf !! i); simpl; [by rewrite Hf|done].
  - rewrite !lookup_ge_None_2; [done|lia|lia].
Qed.

Section RoundTrip.

Variable static_cast : CType -> CType -> Z -> Z.
Variable pool_order : list CopyPartition -> list CopyPartition.

Hypothesis static_cast_same : forall T v, static_cast T T v = v.

Lemma CopyData_bit_copy fuel S D dest_buf src_buf :
  bit_copy S D -> length dest_buf = length src_buf ->
  CopyData static_cast fuel D S dest_buf src_buf (Z.of_nat (length src_buf))
  = Ok src_buf.
Proof.
  intros Hbc Hlen. unfold CopyData, CheckedMemcpy.
  assert (Hneg : (Z.of_nat (length src_buf) <? 0) = false) by lia.
  destruct Hbc as [[<- Hnc]|[[-> ->]|[-> ->]]].
  - rewrite Hnc. simpl. rewrite Hneg, Nat2Z.id.
    by apply copy_elements_identity.
  - simpl. rewrite Hneg, Nat2Z.id. by apply copy_elements_identity.
  - simpl. rewrite Hneg, Nat2Z.id. by apply copy_elements_identity.
Qed.

(** The linear path of [CopyTensors]: two shapes of equal dimensions and
    equal layout, element types copied bit for bit. *)
Lemma CopyTensors_bit_copy env fuel S D src_buf src_shape dest_buf size
    dest_shape :
  bit_copy S D ->
  dimensions src_shape = dimensions dest_shape ->
  minor_to_major src_shape = minor_to_major dest_shape ->
  ElementsIn src_shape = Z.of_nat (length src_buf) ->
  length dest_buf = length src_buf ->
  size mod 2 ^ 64 = (ElementsIn src_shape * sizeof D) mod 2 ^ 64 ->
  CopyTensors static_cast pool_order env fuel S D src_buf src_shape dest_buf
    (size mod 2 ^ 64) dest_shape
  = Ok src_buf.
Proof.
  intros Hbc Hdims Hlayout Hcount Hlen Hsize. unfold CopyTensors.
  unfold SameDimensions. rewrite bool_decide_eq_true_2 by done. simpl.
  rewrite Hsize, Z.eqb_refl. simpl.
  rewrite bool_decide_eq_true_2 by done.
  rewrite Hcount. by apply CopyData_bit_copy.
Qed.

End RoundTrip.

Lemma wrap64_mod z : wrap64 z mod 2 ^ 64 = z mod 2 ^ 64.
Proof.
  unfold wrap64. rewrite Zminus_mod_idemp_l. f_equal. lia.
Qed.

(** C2: for every supported scalar kind, every dimension list and every
    element content, on a device that is not a TPU, converting a host
    tensor to a literal ([GetTensorLiteral] with a null shape) and back
    ([MakeTensorFromXlaLiteral] with the tensor's own scalar kind as
    destination) gives back the tensor: same kind, same dimensions, same
    elements.  Neither function reads the BF16 toggle, so this holds with
    BF16 mode off in particular. *)
Theorem literal_round_trip
    (static_cast : CType -> CType -> Z -> Z)
    (pool_order : list CopyPartition -> list CopyPartition)
    (env : Env) (fuel : nat) (t : Tensor) (device : option Device) :
  (forall T v, static_cast T T v = v) ->
  supported (scalar_type t) ->
  is_TPU (GetDeviceOrCurrent env device) = false ->
  Z.of_nat (length (buffer t)) = Multiply (shape t) ->
  exists literal,
    GetTensorLiteral static_cast pool_order env fuel t None device
      = Ok literal /\
    dimensions (literal_shape literal) = shape t /\
    MakeTensorFromXlaLiteral static_cast pool_order env fuel literal
      (scalar_type t) = Ok t.
Proof.
  intros Hsame Hk Htpu Hcount.
  destruct t as [k dims buf]. simpl in *.
  assert (Hzeros : length (replicate (Z.to_nat (Multiply dims)) 0) = length buf).
  { rewrite length_replicate. lia. }
  assert (Hto : forall S D type,
    bit_copy S D ->
    ByteSizeOfPrimitiveType type = Ok (sizeof D) ->
    CopyTensors static_cast pool_order env fuel S D buf
      (MakeSwiftTensorLayout dims type)
      (replicate (Z.to_nat (Multiply dims)) 0)
      (wrap64 (Multiply dims * sizeof D) mod 2 ^ 64)
      (MakeSwiftTensorLayout dims type) = Ok buf).
  { intros S D type Hbc _.
    apply CopyTensors_bit_copy; try done. apply wrap64_mod. }
  assert (Hfrom : forall S D type,
    bit_copy S D ->
    CopyTensors static_cast pool_order env fuel S D buf
      (MakeSwiftTensorLayout dims type)
      (replicate (Z.to_nat (Multiply dims)) 0)
      ((Multiply dims * sizeof D) mod 2 ^ 64)
      (MakeSwiftTensorLayout dims type) = Ok buf).
  { intros S D type Hbc. by apply CopyTensors_bit_copy. }
  assert (Hself : forall T, NeedCast T = false -> bit_copy T T).
  { intros T HT. by left. }
  unfold GetTensorLiteral, size_bytes, Literal_of, PopulateTensorBuffer,
    TensorToBufferSType, TensorToBuffer, MakeTensorFromXlaLiteral,
    XlaLiteralToTensorHelper, XlaLiteralToTensor, ElementsIn.
  destruct k; simpl; try (by destruct Hk); rewrite ?Htpu; simpl.
  all: eexists; split;
    [ rewrite Hto; [simpl; reflexivity| |reflexivity]
    | split; [reflexivity|simpl; rewrite Hfrom; [simpl; reflexivity|]] ].
  all: first [ by apply Hself
             | right; left; by split
             | right; right; by split ].
Qed.

Lemma literal_round_trip_witness :
  exists literal,
    GetTensorLiteral (fun _ _ v => v) (fun parts => parts)
      (mkEnv false false (mkDevice CPU 0) 8) 0
      (mkTensor Int [2; 3] [1; 2; 3; 4; 5; 6]) None None = Ok literal /\
    dimensions (literal_shape literal) = [2; 3] /\
    MakeTensorFromXlaLiteral (fun _ _ v => v) (fun parts => parts)
      (mkEnv false false (mkDevice CPU 0) 8) 0 literal Int
    = Ok (mkTensor Int [2; 3] [1; 2; 3; 4; 5; 6]).
Proof.
  apply (literal_round_trip (fun _ _ v => v) (fun parts => parts)
           (mkEnv false false (mkDevice CPU 0) 8) 0
           (mkTensor Int [2; 3] [1; 2; 3; 4; 5; 6]) None).
  - reflexivity.
  - intros E. discriminate E.
  - reflexivity.
  - reflexivity.
Defined.

(** ** Offsets as mixed-radix numbers *)

Lemma Forall_pos_lookup dims d :
  Forall (fun n => 0 < n) dims -> (d < length dims)%nat -> 0 < dims !!! d.
Proof.
  intros Hall Hd.
  destruct (lookup_lt_is_Some_2 dims d Hd) as [n Hn].
  rewrite (list_lookup_total_correct _ _ _ Hn).
  by apply (Forall_lookup_1 _ _ _ _ Hall Hn).
Qed.

Lemma sum_over_perm f ds ds' : ds ≡ₚ ds' -> sum_over f ds = sum_over f ds'.
Proof.
  unfold sum_over. induction 1; simpl; lia.
Qed.

Lemma volume_perm dims ds ds' : ds ≡ₚ ds' -> volume dims ds = volume dims ds'.
Proof.
  unfold volume. induction 1; simpl; lia.
Qed.

Lemma volume_seq dims :
  volume dims (seq 0 (length dims)) = product dims.
Proof.
  assert (H : forall pre, volume (pre ++ dims) (seq (length pre) (length dims))
                          = product dims).
  { induction dims as [|n dims IH]; intros pre; simpl; [done|].
    rewrite list_lookup_total_middle by done. f_equal.
    specialize (IH (pre ++ [n])).
    rewrite length_app, <- app_assoc in IH. simpl in IH.
    by rewrite Nat.add_1_r in IH. }
  apply (H []).
Qed.

Lemma volume_pos dims ds :
  Forall (fun n => 0 < n) dims -> (forall d, d ∈ ds -> (d < length dims)%nat) ->
  0 < volume dims ds.
Proof.
  intros Hall. induction ds as [|d ds IH]; intros Hlt; simpl; [lia|].
  pose proof (Forall_pos_lookup dims d Hall (Hlt d ltac:(left))).
  assert (0 < volume dims ds) by (apply IH; intros; apply Hlt; by right).
  unfold volume in *. nia.
Qed.

Section MixedRadix.

Variable dims : list Z.
Hypothesis dims_pos : Forall (fun n => 0 < n) dims.

Lemma mixed_radix_bounds ds x :
  (forall d, d ∈ ds -> (d < length dims)%nat) ->
  digits_ok dims ds x ->
  0 <= mixed_radix dims ds x < volume dims ds.
Proof.
  induction ds as [|d ds IH]; intros Hlt Hx; simpl; [lia|].
  pose proof (Hx d ltac:(left)) as Hd.
  assert (0 <= mixed_radix dims ds x < volume dims ds) as Hrest.
  { apply IH; [intros; apply Hlt; by right|intros d' Hd'; apply Hx; by right]. }
  unfold volume in *. nia.
Qed.

Lemma mixed_radix_inj ds x y :
  (forall d, d ∈ ds -> (d < length dims)%nat) ->
  digits_ok dims ds x -> digits_ok dims ds y ->
  mixed_radix dims ds x = mixed_radix dims ds y ->
  forall d, d ∈ ds -> x !!! d = y !!! d.
Proof.
  induction ds as [|d ds IH]; intros Hlt Hx Hy Heq d' Hd'.
  - by apply elem_of_nil in Hd'.
  - simpl in Heq.
    pose proof (Hx d ltac:(left)) as Hxd.
    pose proof (Hy d ltac:(left)) as Hyd.
    assert (Hsplit : x !!! d = y !!! d /\
                     mixed_radix dims ds x = mixed_radix dims ds y).
    { set (a := mixed_radix dims ds x) in *.
      set (b := mixed_radix dims ds y) in *.
      assert (a = b) by nia. split; [nia|done]. }
    destruct Hsplit as [Hhead Htail].
    apply elem_of_cons in Hd' as [->|Hd']; [done|].
    apply IH; try done.
    + intros; apply Hlt; by right.
    + intros ? ?; apply Hx; by right.
    + intros ? ?; apply Hy; by right.
Qed.

(** The strides the loop of [ComputeShapeStrides] computes weigh an index
    vector as its mixed-radix number. *)
Lemma ComputeShapeStrides_loop_exact m2m strides stride :
  NoDup m2m ->
  (forall d, d ∈ m2m -> (d < length dims)%nat) ->
  length strides = length dims ->
  0 < stride -> stride * volume dims m2m < 2 ^ 63 ->
  exists strides',
    ComputeShapeStrides_loop dims m2m strides stride = Ok strides' /\
    length strides' = length dims /\
    (forall d, d ∉ m2m -> strides' !! d = strides !! d) /\
    (forall d, d ∈ m2m ->
       0 < strides' !!! d /\
       strides' !!! d * dims !!! d <= stride * volume dims m2m) /\
    (forall x, sum_over (fun d => x !!! d * strides' !!! d) m2m
               = stride * mixed_radix dims m2m x).
Proof.
  revert strides stride.
  induction m2m as [|d m2m IH]; intros strides stride Hnd Hlt Hlen Hs Hfit;
    simpl.
  - exists strides. split; [done|]. split; [done|]. split; [done|].
    split; [|intros; lia].
    intros d Hd. by apply elem_of_nil in Hd.
  - apply NoDup_cons in Hnd as [Hd Hnd].
    assert (Hdlt : (d < length dims)%nat) by (apply Hlt; left).
    assert (Hrest : forall d', d' ∈ m2m -> (d' < length dims)%nat).
    { intros d' Hd'. apply Hlt. by right. }
    pose proof (Forall_pos_lookup dims d dims_pos Hdlt) as Hn.
    pose proof (volume_pos dims m2m dims_pos Hrest) as Hvol.
    simpl in Hfit. fold (volume dims m2m) in Hfit.
    rewrite vec_set_Ok by lia. simpl.
    rewrite (vec_get_Ok dims d (dims !!! d))
      by (by apply list_lookup_lookup_total_lt). simpl.
    assert (Hprod : stride * dims !!! d <= stride * (dims !!! d * volume dims m2m))
      by nia.
    rewrite wrap64_id by (unfold int64_range; nia).
    destruct (IH (<[d:=stride]> strides) (stride * dims !!! d) Hnd Hrest)
      as (strides' & Hrun & Hlen' & Hout & Hpos & Hsum);
      [by rewrite length_insert|nia|nia|].
    assert (Hhere : strides' !!! d = stride).
    { apply list_lookup_total_correct. rewrite Hout by done.
      apply list_lookup_insert_eq. lia. }
    exists strides'. split; [done|]. split; [done|]. split; [|split].
    + intros d0 Hd0. apply not_elem_of_cons in Hd0 as [Hne Hd0].
      rewrite Hout by done. by apply list_lookup_insert_ne.
    + intros d0 Hd0. fold (volume dims m2m).
      apply elem_of_cons in Hd0 as [->|Hd0]; [rewrite Hhere; nia|].
      destruct (Hpos d0 Hd0). split; [done|nia].
    + intros x. fold (sum_over (fun d => x !!! d * strides' !!! d) m2m).
      rewrite Hsum, Hhere. ring.
Qed.

End MixedRadix.

Lemma in_full_spec dims e :
  in_full dims e <->
  length e = length dims /\
  forall i, (i < length dims)%nat -> 0 <= e !!! i < dims !!! i.
Proof.
  unfold in_full, in_part, in_box, CopyPartition_of. simpl.
  split; intros [Hlen Hbox]; (split; [done|]); intros i Hi;
    specialize (Hbox i Hi); by rewrite lookup_total_replicate_2 in *.
Qed.

Lemma sum_over_shift f k n :
  sum_over f (seq (S k) n) = sum_over (fun i => f (S i)) (seq k n).
Proof.
  revert k. unfold sum_over.
  induction n as [|n IH]; intros k; simpl; [done|]. by rewrite IH.
Qed.

Lemma dot_sum_over strides x :
  (length x <= length strides)%nat ->
  dot strides x
  = sum_over (fun i => x !!! i * strides !!! i) (seq 0 (length x)).
Proof.
  revert strides. induction x as [|a x IH]; intros strides Hlen; [done|].
  destruct strides as [|s strides]; simpl in Hlen; [lia|].
  simpl. rewrite (sum_over_shift _ 0). rewrite IH by lia. done.
Qed.

Lemma dot_nonneg strides x :
  Forall (fun v => 0 <= v) x -> Forall (fun v => 0 <= v) strides ->
  0 <= dot strides x.
Proof.
  intros Hx. revert strides.
  induction Hx as [|a x Ha Hx IH]; intros strides Hs; simpl; [lia|].
  destruct Hs as [|s strides Hs0 Hs]; [lia|].
  specialize (IH strides Hs). nia.
Qed.

Lemma GetFlatTensorOffset_loop_exact strides x base :
  (length x <= length strides)%nat ->
  Forall (fun v => 0 <= v) x -> Forall (fun v => 0 <= v) strides ->
  0 <= base -> base + dot strides x < 2 ^ 63 ->
  GetFlatTensorOffset_loop strides x base = Ok (base + dot strides x).
Proof.
  intros Hlen Hx. revert strides base Hlen.
  induction Hx as [|a x Ha Hx IH]; intros strides base Hlen Hs Hb Hfit; simpl.
  - f_equal. lia.
  - destruct Hs as [|s strides Hs0 Hs]; simpl in Hlen; [lia|].
    simpl in Hfit.
    pose proof (dot_nonneg strides x Hx Hs).
    assert (0 <= a * s) by nia.
    rewrite (wrap64_id (a * s)) by (unfold int64_range; lia).
    rewrite wrap64_id by (unfold int64_range; lia).
    rewrite IH; [f_equal; lia|lia|done|lia|lia].
Qed.

Section Offsets.

Variable dims : list Z.
Variable m2m : list nat.
Variable strides : list Z.

Hypothesis dims_pos : Forall (fun n => 0 < n) dims.
Hypothesis dims_fit : product dims < 2 ^ 63.
Hypothesis layout_perm : m2m ≡ₚ seq 0 (length dims).
Hypothesis strides_ok : strides_for dims m2m strides.

Lemma layout_lt d : d ∈ m2m -> (d < length dims)%nat.
Proof. rewrite layout_perm. intros Hd. apply elem_of_seq in Hd. lia. Qed.

Lemma layout_elem d : (d < length dims)%nat -> d ∈ m2m.
Proof. rewrite layout_perm. intros Hd. apply elem_of_seq. lia. Qed.

Lemma in_full_digits e : in_full dims e -> digits_ok dims m2m e.
Proof.
  intros He d Hd. apply in_full_spec in He as [_ He].
  apply He. by apply layout_lt.
Qed.

Lemma dot_mixed_radix e :
  in_full dims e -> dot strides e = mixed_radix dims m2m e.
Proof.
  intros He.
  assert (Hlen : length e = length dims) by (apply in_full_spec in He; tauto).
  destruct strides_ok as (Hslen & _ & Hsum).
  rewrite dot_sum_over by lia. rewrite Hlen, <- Hsum.
  symmetry. by apply sum_over_perm.
Qed.

Lemma dot_bounds e : in_full dims e -> 0 <= dot strides e < product dims.
Proof.
  intros He. rewrite (dot_mixed_radix e He).
  rewrite <- volume_seq, <- (volume_perm dims _ _ layout_perm).
  apply mixed_radix_bounds; [apply layout_lt|by apply in_full_digits].
Qed.

Lemma dot_inj e e' :
  in_full dims e -> in_full dims e' ->
  dot strides e = dot strides e' -> e = e'.
Proof.
  intros He He' Heq.
  rewrite (dot_mixed_radix e He), (dot_mixed_radix e' He') in Heq.
  pose proof (mixed_radix_inj dims m2m e e' layout_lt
                (in_full_digits e He) (in_full_digits e' He') Heq) as Hd.
  apply in_full_spec in He as [Hlen _]. apply in_full_spec in He' as [Hlen' _].
  apply list_eq. intros i.
  destruct (decide (i < length dims)%nat) as [Hi|Hi].
  - rewrite !list_lookup_lookup_total_lt by lia. f_equal.
    apply Hd. by apply layout_elem.
  - rewrite !lookup_ge_None_2; [done|lia|lia].
Qed.

Lemma strides_nonneg : Forall (fun v => 0 <= v) strides.
Proof.
  destruct strides_ok as (Hslen & Hpos & _).
  apply Forall_lookup_2. intros i s Hi.
  assert (Hlt : (i < length dims)%nat).
  { rewrite <- Hslen. by eapply lookup_lt_Some. }
  destruct (Hpos i Hlt) as [Hp _].
  rewrite (list_lookup_total_correct _ _ _ Hi) in Hp. lia.
Qed.

Lemma in_full_nonneg e : in_full dims e -> Forall (fun v => 0 <= v) e.
Proof.
  intros He. apply in_full_spec in He as [Hlen He].
  apply Forall_lookup_2. intros i v Hi.
  assert (Hlt : (i < length dims)%nat).
  { rewrite <- Hlen. by eapply lookup_lt_Some. }
  specialize (He i Hlt).
  rewrite (list_lookup_total_correct _ _ _ Hi) in He. lia.
Qed.

Lemma GetFlatTensorOffset_exact e :
  in_full dims e -> GetFlatTensorOffset strides e = Ok (dot strides e).
Proof.
  intros He. unfold GetFlatTensorOffset.
  pose proof (dot_bounds e He).
  rewrite GetFlatTensorOffset_loop_exact; [done| | | |lia|lia].
  - destruct strides_ok as (Hslen & _). apply in_full_spec in He as [Hlen _].
    lia.
  - by apply in_full_nonneg.
  - apply strides_nonneg.
Qed.

End Offsets.

Lemma ComputeShapeStrides_exact (s : Shape) :
  valid_layout s ->
  Forall (fun n => 0 < n) (dimensions s) ->
  product (dimensions s) < 2 ^ 63 ->
  exists strides,
    ComputeShapeStrides s = Ok strides /\
    strides_for (dimensions s) (minor_to_major s) strides.
Proof.
  intros Hv Hpos Hfit. unfold ComputeShapeStrides.
  destruct (ComputeShapeStrides_loop_exact (dimensions s) Hpos
              (minor_to_major s) (replicate (rank s) 0) 1)
    as (strides & Hrun & Hlen & _ & Hspos & Hsum).
  - by apply valid_layout_NoDup.
  - intros d Hd. by apply valid_layout_lt.
  - by rewrite length_replicate.
  - lia.
  - rewrite (volume_perm _ _ _ Hv). unfold rank. rewrite volume_seq. lia.
  - exists strides. split; [done|]. split; [done|]. split.
    + intros i Hi.
      assert (Hin : i ∈ minor_to_major s).
      { unfold valid_layout in Hv. rewrite Hv.
        apply elem_of_seq. unfold rank. lia. }
      destruct (Hspos i Hin) as [Hp Hle]. split; [done|].
      rewrite (volume_perm _ _ _ Hv) in Hle. unfold rank in Hle.
      rewrite volume_seq in Hle. lia.
    + intros x. rewrite Hsum. lia.
Qed.

(** ** Buffers as sets of written cells *)

Section Written.

Variable pos : list Z -> nat.
Variable val : list Z -> Z.
Variable Dom : list Z -> Prop.

Hypothesis pos_inj : forall e e', Dom e -> Dom e' -> pos e = pos e' -> e = e'.

Lemma written_none P d : (forall e, ~ P e) -> written pos val P d d.
Proof.
  intros Hnone. split; [done|]. split.
  - intros e He. by destruct (Hnone e).
  - intros q v Hq. by right.
Qed.

Lemma written_single e d :
  (pos e < length d)%nat ->
  written pos val (fun e' => e' = e) d (<[pos e:=val e]> d).
Proof.
  intros Hlt. split; [by rewrite length_insert|]. split.
  - intros e' ->. by apply list_lookup_insert_eq.
  - intros q v Hq. destruct (decide (pos e = q)) as [<-|Hne].
    + rewrite list_lookup_insert_eq in Hq by done. injection Hq as <-.
      left. by exists e.
    + rewrite list_lookup_insert_ne in Hq by done. by right.
Qed.

Lemma written_ext P Q d d' :
  (forall e, P e <-> Q e) -> written pos val P d d' -> written pos val Q d d'.
Proof.
  intros Hext (Hlen & Hin & Hout). split; [done|]. split.
  - intros e He. apply Hin. by apply Hext.
  - intros q v Hq. destruct (Hout q v Hq) as [(e & He & Hpos & Hval)|Hold].
    + left. exists e. split; [by apply Hext|done].
    + by right.
Qed.

Lemma written_trans P Q d d' d'' :
  (forall e, P e -> Dom e) -> (forall e, Q e -> Dom e) ->
  written pos val P d d' -> written pos val Q d' d'' ->
  written pos val (fun e => P e \/ Q e) d d''.
Proof.
  intros HP HQ (Hlen1 & Hin1 & Hout1) (Hlen2 & Hin2 & Hout2).
  split; [congruence|]. split.
  - intros e [He|He]; [|by apply Hin2].
    pose proof (Hin1 e He) as Hcell.
    assert (Hlt : (pos e < length d'')%nat).
    { rewrite Hlen2. by eapply lookup_lt_Some. }
    destruct (lookup_lt_is_Some_2 d'' (pos e) Hlt) as [v Hv].
    destruct (Hout2 _ _ Hv) as [(e' & He' & Hpos & ->)|Hold].
    + rewrite Hv. f_equal. f_equal. apply pos_inj; [by apply HQ|by apply HP|done].
    + congruence.
  - intros q v Hq. destruct (Hout2 q v Hq) as [(e & He & Hpos & Hval)|Hold].
    + left. exists e. split; [by right|done].
    + destruct (Hout1 q v Hold) as [(e & He & Hpos & Hval)|Hold'].
      * left. exists e. split; [by left|done].
      * by right.
Qed.

Lemma written_unique P d d1 d2 :
  written pos val P d d1 -> written pos val P d d2 -> d1 = d2.
Proof.
  intros (Hlen1 & Hin1 & Hout1) (Hlen2 & Hin2 & Hout2).
  apply list_eq. intros i.
  destruct (decide (i < length d)%nat) as [Hi|Hi].
  - destruct (lookup_lt_is_Some_2 d1 i ltac:(lia)) as [v1 Hv1].
    destruct (lookup_lt_is_Some_2 d2 i ltac:(lia)) as [v2 Hv2].
    rewrite Hv1, Hv2. f_equal.
    destruct (Hout1 i v1 Hv1) as [(e & He & <- & ->)|Hold1].
    + rewrite (Hin2 e He) in Hv2. by injection Hv2.
    + destruct (Hout2 i v2 Hv2) as [(e & He & <- & ->)|Hold2].
      * rewrite (Hin1 e He) in Hv1. by injection Hv1.
      * congruence.
  - rewrite !lookup_ge_None_2; [done|lia|lia].
Qed.

End Written.

Lemma dot_insert strides x i k :
  (i < length x)%nat -> (length x <= length strides)%nat ->
  dot strides (<[i:=k]> x) = dot strides x + (k - x !!! i) * strides !!! i.
Proof.
  revert strides i.
  induction x as [|a x IH]; intros strides i Hi Hlen; simpl in Hi; [lia|].
  destruct strides as [|s strides]; simpl in Hlen; [lia|].
  destruct i as [|i]; simpl.
  - change ((a :: x) !!! 0%nat) with a. change ((s :: strides) !!! 0%nat) with s.
    ring.
  - rewrite IH by lia.
    change ((a :: x) !!! S i) with (x !!! i).
    change ((s :: strides) !!! S i) with (strides !!! i). ring.
Qed.

(** ** The odometer of [SlicedCopy] *)

Lemma agree_cons d ds a b :
  agree (d :: ds) a b <-> a !!! d = b !!! d /\ agree ds a b.
Proof.
  unfold agree. split.
  - intros H. split; [apply H; left|]. intros d' Hd'. apply H. by right.
  - intros [Hd H] d' Hd'. apply elem_of_cons in Hd' as [->|Hd']; [done|].
    by apply H.
Qed.

Lemma agree_trans_r ds a b b' : agree ds b b' -> agree ds a b <-> agree ds a b'.
Proof.
  unfold agree. intros Hb. split; intros H d Hd.
  - rewrite <- Hb by done. by apply H.
  - rewrite Hb by done. by apply H.
Qed.

Lemma lex_lt_agree_r ds a b b' :
  agree ds b b' -> lex_lt ds a b <-> lex_lt ds a b'.
Proof.
  induction ds as [|d ds IH]; intros Hb; simpl; [done|].
  apply agree_cons in Hb as [Hd Hb].
  rewrite (IH Hb), (agree_trans_r ds a b b' Hb), Hd. done.
Qed.

Lemma odometer_rank_agree p ds x x' :
  agree ds x x' -> odometer_rank p ds x = odometer_rank p ds x'.
Proof.
  induction ds as [|d ds IH]; intros Hx; simpl; [done|].
  apply agree_cons in Hx as [Hd Hx]. by rewrite (IH Hx), Hd.
Qed.

Section Odometer.

Variable dims : list Z.
Variable p : CopyPartition.
Variable iter_dims : list nat.

Hypothesis dims_fit : forall i, (i < length dims)%nat -> dims !!! i < 2 ^ 63.
Hypothesis p_ok : part_ok dims p.

Lemma in_part_length e : in_part p e -> length e = length dims.
Proof. destruct p_ok as (_ & Hl & _). intros [He _]. lia. Qed.

Lemma in_part_bounds e i :
  in_part p e -> (i < length dims)%nat ->
  base p !!! i <= e !!! i < limit p !!! i.
Proof.
  destruct p_ok as (_ & Hl & _). intros [_ He] Hi. apply He. lia.
Qed.

Lemma in_part_insert e i v :
  in_part p e -> base p !!! i <= v < limit p !!! i ->
  in_part p (<[i:=v]> e).
Proof.
  destruct p_ok as (_ & Hl & _). intros [Hlen He] Hv.
  split; [by rewrite length_insert|].
  intros j Hj. destruct (decide (j = i)) as [->|Hne].
  - rewrite list_lookup_total_insert_eq by lia. done.
  - rewrite list_lookup_total_insert_ne by done. by apply He.
Qed.

Lemma in_part_full e : in_part p e -> in_full dims e.
Proof.
  intros He. apply in_full_spec. split; [by apply in_part_length|].
  intros i Hi. pose proof (in_part_bounds e i He Hi).
  destruct p_ok as (_ & _ & Hp). specialize (Hp i Hi). lia.
Qed.

Lemma odometer_rank_bounds ds x :
  (forall d, d ∈ ds -> (d < length dims)%nat) -> in_part p x ->
  0 <= odometer_rank p ds x < extent_volume p ds.
Proof.
  intros Hlt Hx.
  induction ds as [|d ds IH]; simpl; [lia|].
  pose proof (in_part_bounds x d Hx (Hlt d ltac:(left))).
  assert (0 <= odometer_rank p ds x < extent_volume p ds) as Hrest.
  { apply IH. intros; apply Hlt; by right. }
  unfold extent_volume in *. nia.
Qed.

(** Before the base of the partition there is nothing. *)
Lemma lex_lt_base ds a x :
  (forall d, d ∈ ds -> (d < length dims)%nat) -> in_part p a ->
  (forall d, d ∈ ds -> x !!! d = base p !!! d) ->
  ~ lex_lt ds a x.
Proof.
  intros Hlt Ha. induction ds as [|d ds IH]; intros Hx; simpl; [tauto|].
  intros [Hrest|[_ Hd]].
  - apply IH; [intros; apply Hlt; by right|intros; apply Hx; by right|done].
  - pose proof (in_part_bounds a d Ha (Hlt d ltac:(left))).
    rewrite (Hx d) in Hd by left. lia.
Qed.

(** At the last index vector everything is before it or on its row. *)
Lemma lex_lt_top ds a x :
  (forall d, d ∈ ds -> (d < length dims)%nat) -> in_part p a ->
  (forall d, d ∈ ds -> x !!! d = limit p !!! d - 1) ->
  lex_lt ds a x \/ agree ds a x.
Proof.
  intros Hlt Ha. induction ds as [|d ds IH]; intros Hx; simpl.
  - right. intros d Hd. by apply elem_of_nil in Hd.
  - pose proof (in_part_bounds a d Ha (Hlt d ltac:(left))) as Hd.
    pose proof (Hx d ltac:(left)) as Hxd.
    destruct IH as [Hrest|Hrest];
      [intros; apply Hlt; by right|intros; apply Hx; by right|tauto|].
    destruct (decide (a !!! d = x !!! d)) as [Heq|Hne].
    + right. by apply agree_cons.
    + left. right. split; [done|lia].
Qed.

(** One turn of the odometer. *)
Lemma SlicedCopy_advance_spec ns ds x :
  Forall2 (fun n d => iter_dims !! n = Some d) ns ds ->
  (forall d, d ∈ ds -> (d < length dims)%nat) ->
  NoDup ds ->
  in_part p x ->
  exists next,
    SlicedCopy_advance iter_dims p ns x = Ok next /\
    match next with
    | None => forall d, d ∈ ds -> x !!! d = limit p !!! d - 1
    | Some x' =>
        in_part p x' /\
        (forall i, i ∉ ds -> x' !!! i = x !!! i) /\
        (forall a, in_part p a ->
           lex_lt ds a x' <-> lex_lt ds a x \/ agree ds a x) /\
        odometer_rank p ds x' = odometer_rank p ds x + 1
    end.
Proof.
  intros Hf. revert x.
  induction Hf as [|n d ns ds Hn Hf IH]; intros x Hlt Hnd Hx.
  - exists None. split; [done|]. intros d Hd. by apply elem_of_nil in Hd.
  - apply NoDup_cons in Hnd as [Hd Hnd].
    assert (Hdlt : (d < length dims)%nat) by (apply Hlt; left).
    assert (Hdslt : forall d', d' ∈ ds -> (d' < length dims)%nat).
    { intros d' Hd'. apply Hlt. by right. }
    pose proof (in_part_bounds x d Hx Hdlt) as Hxd.
    pose proof (in_part_length x Hx) as Hxlen.
    destruct p_ok as (Hblen & Hllen & Hp).
    destruct (Hp d Hdlt) as (Hb0 & Hbl & Hld).
    pose proof (dims_fit d Hdlt) as Hfit.
    cbn [SlicedCopy_advance].
    rewrite (vec_get_Ok iter_dims n d Hn). cbn [bind].
    rewrite (vec_get_Ok x d (x !!! d))
      by (apply list_lookup_lookup_total_lt; lia). cbn [bind].
    rewrite wrap64_id by (unfold int64_range; lia).
    rewrite vec_set_Ok by lia. cbn [bind].
    rewrite (vec_get_Ok (limit p) d (limit p !!! d))
      by (apply list_lookup_lookup_total_lt; lia). cbn [bind].
    destruct (Z.ltb_spec (x !!! d + 1) (limit p !!! d)) as [Hinc|Hwrap].
    + exists (Some (<[d:=x !!! d + 1]> x)). split; [done|].
      assert (Hag : agree ds (<[d:=x !!! d + 1]> x) x).
      { intros d' Hd'. apply list_lookup_total_insert_ne. by intros ->. }
      split; [apply in_part_insert; [done|lia]|]. split; [|split].
      * intros i Hi. apply not_elem_of_cons in Hi as [Hne _].
        by apply list_lookup_total_insert_ne.
      * intros a Ha. cbn [lex_lt].
        rewrite (lex_lt_agree_r ds a _ x Hag), (agree_trans_r ds a _ x Hag).
        rewrite list_lookup_total_insert_eq by lia.
        rewrite agree_cons.
        split; [intros [?|[? ?]]|intros [[?|[? ?]]|[? ?]]]; try tauto.
        -- destruct (decide (a !!! d = x !!! d)); [tauto|].
           left. right. split; [done|lia].
        -- right. split; [done|lia].
        -- right. split; [done|lia].
      * cbn [odometer_rank]. rewrite (odometer_rank_agree p ds _ x Hag).
        rewrite list_lookup_total_insert_eq by lia. lia.
    + rewrite (vec_get_Ok (base p) d (base p !!! d))
        by (apply list_lookup_lookup_total_lt; lia). cbn [bind].
      rewrite vec_set_Ok by (rewrite length_insert; lia). cbn [bind].
      rewrite list_insert_insert_eq.
      set (x2 := <[d:=base p !!! d]> x).
      assert (Hx2 : in_part p x2) by (apply in_part_insert; [done|lia]).
      assert (Hag : agree ds x2 x).
      { intros d' Hd'. apply list_lookup_total_insert_ne. by intros ->. }
      assert (Hx2d : x2 !!! d = base p !!! d).
      { apply list_lookup_total_insert_eq. lia. }
      destruct (IH x2) as (next & Hrun & Hnext); try done.
      exists next. split; [done|]. destruct next as [x'|].
      * destruct Hnext as (Hx' & Hout & Hlex & Hrank).
        assert (Hx'd : x' !!! d = base p !!! d).
        { rewrite Hout by done. done. }
        split; [done|]. split; [|split].
        -- intros i Hi. apply not_elem_of_cons in Hi as [Hne Hi].
           rewrite Hout by done. by apply list_lookup_total_insert_ne.
        -- intros a Ha. cbn [lex_lt].
           pose proof (in_part_bounds a d Ha Hdlt) as Had.
           rewrite (Hlex a Ha).
           rewrite (lex_lt_agree_r ds a x2 x Hag), (agree_trans_r ds a x2 x Hag).
           rewrite agree_cons, Hx'd.
           split.
           ++ intros [[Hl|Hr]|[_ Hlt']]; [tauto| |lia].
              destruct (decide (a !!! d = x !!! d)); [tauto|].
              left. right. split; [done|lia].
           ++ intros [[Hl|[Hr _]]|[_ Hr]]; tauto.
        -- cbn [odometer_rank]. rewrite Hrank.
           rewrite (odometer_rank_agree p ds x2 x Hag), Hx'd.
           assert (x !!! d = limit p !!! d - 1) as -> by lia. ring.
      * intros d' Hd'. apply elem_of_cons in Hd' as [->|Hd'].
        -- lia.
        -- rewrite <- (Hag d' Hd'). by apply Hnext.
Qed.

End Odometer.

(** ** The strided kernel *)

Section Kernel.

Variable static_cast : CType -> CType -> Z -> Z.
Variables S D : CType.
Variable src_buf : list Z.
Variable dims : list Z.
Variables src_m2m dest_m2m : list nat.
Variables src_strides dest_strides : list Z.

Hypothesis dims_pos : Forall (fun n => 0 < n) dims.
Hypothesis dims_fit : product dims < 2 ^ 63.
Hypothesis src_perm : src_m2m ≡ₚ seq 0 (length dims).
Hypothesis dest_perm : dest_m2m ≡ₚ seq 0 (length dims).
Hypothesis src_ok : strides_for dims src_m2m src_strides.
Hypothesis dest_ok : strides_for dims dest_m2m dest_strides.
Hypothesis src_len : length src_buf = Z.to_nat (product dims).

Local Abbreviation pos := (cell_pos dest_strides).
Local Abbreviation val := (cell_val static_cast S D src_buf src_strides).
Local Abbreviation copied := (written pos val).

Lemma cell_pos_inj e e' :
  in_full dims e -> in_full dims e' -> pos e = pos e' -> e = e'.
Proof.
  intros He He' Heq. unfold cell_pos in Heq.
  pose proof (dot_bounds dims dest_m2m dest_strides dest_perm dest_ok e He).
  pose proof (dot_bounds dims dest_m2m dest_strides dest_perm dest_ok e' He').
  apply (dot_inj dims dest_m2m dest_strides dest_perm dest_ok); try done. lia.
Qed.

Lemma copied_trans P Q d d' d'' :
  (forall e, P e -> in_full dims e) -> (forall e, Q e -> in_full dims e) ->
  copied P d d' -> copied Q d' d'' -> copied (fun e => P e \/ Q e) d d''.
Proof. apply written_trans. apply cell_pos_inj. Qed.

Lemma in_full_row inner indices i :
  (inner < length dims)%nat -> in_full dims indices ->
  Z.of_nat i < dims !!! inner ->
  in_full dims (<[inner:=Z.of_nat i]> indices).
Proof.
  intros Hinner Hfull Hi. apply in_full_spec in Hfull as [Hlen Hbox].
  apply in_full_spec. split; [by rewrite length_insert|].
  intros j Hj. destruct (decide (j = inner)) as [->|Hne].
  - rewrite list_lookup_total_insert_eq by lia. lia.
  - rewrite list_lookup_total_insert_ne by done. by apply Hbox.
Qed.

(** One call of [StridedCopy] on the row of [indices]: from the [j]-th
    element on, it writes the cells of the remaining index vectors of the
    row. *)
Lemma StridedCopy_loop_row inner indices n :
  (inner < length dims)%nat -> in_full dims indices ->
  indices !!! inner = 0 -> Z.of_nat n = dims !!! inner ->
  forall k j fuel d dest source,
    (j + k = n)%nat -> (k <= fuel)%nat ->
    length d = Z.to_nat (product dims) ->
    dest = dot dest_strides indices + Z.of_nat j * dest_strides !!! inner ->
    source = dot src_strides indices + Z.of_nat j * src_strides !!! inner ->
    exists d',
      StridedCopy_loop static_cast fuel S D d dest (dest_strides !!! inner)
        src_buf source (src_strides !!! inner)
        (dot src_strides indices + Z.of_nat n * src_strides !!! inner)
      = Ok d' /\
      copied (in_row inner indices j n) d d'.
Proof.
  intros Hinner Hfull Hzero Hn.
  assert (Hlen : length indices = length dims).
  { apply in_full_spec in Hfull. tauto. }
  destruct src_ok as (Hslen & Hspos & _).
  destruct dest_ok as (Hdlen & Hdpos & _).
  destruct (Hspos inner Hinner) as [Hss _].
  induction k as [|k IH]; intros j fuel d dest source Hjk Hfuel Hd -> ->.
  - assert (j = n) as -> by lia.
    exists d. split.
    + destruct fuel; simpl; by rewrite Z.ltb_irrefl.
    + apply written_none. intros e (i & Hi & _). lia.
  - destruct fuel as [|fuel]; [lia|]. simpl.
    destruct (Z.ltb_spec
                (dot src_strides indices + Z.of_nat j * src_strides !!! inner)
                (dot src_strides indices + Z.of_nat n * src_strides !!! inner))
      as [_|Hge]; [|nia].
    set (e := <[inner:=Z.of_nat j]> indices).
    assert (He : in_full dims e) by (apply in_full_row; [done..|lia]).
    assert (Hsrc : dot src_strides e
              = dot src_strides indices + Z.of_nat j * src_strides !!! inner).
    { unfold e. rewrite dot_insert by lia. rewrite Hzero. ring. }
    assert (Hdest : dot dest_strides e
              = dot dest_strides indices + Z.of_nat j * dest_strides !!! inner).
    { unfold e. rewrite dot_insert by lia. rewrite Hzero. ring. }
    rewrite <- Hsrc, <- Hdest.
    pose proof (dot_bounds dims src_m2m src_strides src_perm src_ok e He).
    pose proof (dot_bounds dims dest_m2m dest_strides dest_perm dest_ok e He).
    unfold buf_read, buf_write.
    destruct (Z.ltb_spec (dot src_strides e) 0); [lia|].
    destruct (Z.ltb_spec (dot dest_strides e) 0); [lia|].
    rewrite (vec_get_Ok src_buf _ (src_buf !!! Z.to_nat (dot src_strides e)))
      by (apply list_lookup_lookup_total_lt; lia).
    simpl. rewrite vec_set_Ok by lia. simpl.
    fold (cell_val static_cast S D src_buf src_strides e).
    fold (cell_pos dest_strides e).
    destruct (IH (Datatypes.S j) fuel (<[pos e:=val e]> d)
                (dot dest_strides e + dest_strides !!! inner)
                (dot src_strides e + src_strides !!! inner))
      as (d' & Hrun & Hcopied);
      [lia|lia|by rewrite length_insert|rewrite Hdest; lia|rewrite Hsrc; lia|].
    exists d'. split; [done|].
    eapply written_ext;
      [|apply (copied_trans (fun e' => e' = e)
                 (in_row inner indices (Datatypes.S j) n)
                 d (<[pos e:=val e]> d) d')].
    + intros e'. unfold in_row. split.
      * intros [->|(i & Hi & ->)]; [exists j|exists i]; split; (lia || done).
      * intros (i & Hi & ->). destruct (decide (i = j)) as [->|Hne].
        -- by left.
        -- right. exists i. split; [lia|done].
    + by intros e' ->.
    + intros e' (i & Hi & ->). apply in_full_row; [done..|lia].
    + apply written_single. unfold cell_pos. lia.
    + done.
Qed.

Lemma dims_lookup_fit i : (i < length dims)%nat -> dims !!! i < 2 ^ 63.
Proof.
  intros Hi. destruct (lookup_lt_is_Some_2 dims i Hi) as [n Hn].
  rewrite (list_lookup_total_correct _ _ _ Hn).
  destruct (product_lookup_le dims i n dims_pos Hn) as (Hpos & Hmul & Hq).
  nia.
Qed.

Lemma Forall2_seq_tail (a : nat) (ds : list nat) :
  Forall2 (fun n d => (a :: ds) !! n = Some d) (seq 1 (length ds)) ds.
Proof.
  apply Forall2_same_length_lookup_2; [by rewrite length_seq|].
  intros i n d Hn Hd. apply lookup_seq in Hn as [-> _]. done.
Qed.

Section Sliced.

Variable p : CopyPartition.
Variable inner : nat.
Variable ds : list nat.

Hypothesis iter_perm : inner :: ds ≡ₚ seq 0 (length dims).
Hypothesis p_ok : part_ok dims p.
Hypothesis p_inner_base : base p !!! inner = 0.
Hypothesis p_inner_limit : limit p !!! inner = dims !!! inner.

Lemma iter_lt d : d ∈ inner :: ds -> (d < length dims)%nat.
Proof. rewrite iter_perm. intros Hd. apply elem_of_seq in Hd. lia. Qed.

Lemma iter_elem d : (d < length dims)%nat -> d ∈ inner :: ds.
Proof. rewrite iter_perm. intros Hd. apply elem_of_seq. lia. Qed.

Lemma iter_NoDup : NoDup (inner :: ds).
Proof. rewrite iter_perm. apply NoDup_seq. Qed.

Lemma inner_lt : (inner < length dims)%nat.
Proof. apply iter_lt. left. Qed.

(** The row of a visited index vector is what the partition holds on the
    outer coordinates of that vector. *)
Lemma in_row_spec indices n e :
  in_part p indices -> indices !!! inner = 0 ->
  Z.of_nat n = dims !!! inner ->
  in_row inner indices 0 n e <-> in_part p e /\ agree ds e indices.
Proof.
  intros Hidx Hzero Hn.
  pose proof iter_NoDup as Hnd. apply NoDup_cons in Hnd as [Hinner _].
  pose proof inner_lt as Hlt.
  pose proof (in_part_length dims p p_ok indices Hidx) as Hlen.
  split.
  - intros (i & Hi & ->). split.
    + apply (in_part_insert dims p p_ok); [done|lia].
    + intros d Hd. apply list_lookup_total_insert_ne. by intros ->.
  - intros [He Hag].
    pose proof (in_part_bounds dims p p_ok e inner He Hlt) as Hb.
    pose proof (in_part_length dims p p_ok e He) as Helen.
    exists (Z.to_nat (e !!! inner)). split; [lia|].
    rewrite Z2Nat.id by lia. apply list_eq. intros j.
    destruct (decide (j < length dims)%nat) as [Hj|Hj].
    + rewrite !list_lookup_lookup_total_lt by (rewrite ?length_insert; lia).
      f_equal. destruct (decide (j = inner)) as [->|Hne].
      * by rewrite list_lookup_total_insert_eq by lia.
      * rewrite list_lookup_total_insert_ne by done. apply Hag.
        pose proof (iter_elem j Hj) as Hin.
        by apply elem_of_cons in Hin as [?|?].
    + rewrite !lookup_ge_None_2; [done|rewrite length_insert; lia|lia].
Qed.

Lemma SlicedCopy_loop_spec budget d0 :
  dims !!! inner <= Z.of_nat budget ->
  forall fuel indices d,
    in_part p indices -> indices !!! inner = 0 ->
    length d = Z.to_nat (product dims) ->
    copied (fun e => in_part p e /\ lex_lt ds e indices) d0 d ->
    extent_volume p ds - odometer_rank p ds indices <= Z.of_nat fuel ->
    exists d',
      SlicedCopy_loop static_cast fuel budget S D dims src_buf src_strides
        dest_strides (inner :: ds) p (src_strides !!! inner)
        (dest_strides !!! inner) indices d = Ok d' /\
      copied (in_part p) d0 d'.
Proof.
  intros Hbudget.
  pose proof inner_lt as Hinner.
  pose proof iter_NoDup as Hnd. apply NoDup_cons in Hnd as [Hinner_out Hnd].
  assert (Hdslt : forall d, d ∈ ds -> (d < length dims)%nat).
  { intros d Hd. apply iter_lt. by right. }
  pose proof (Forall_pos_lookup dims inner dims_pos Hinner) as Hn0.
  set (n := Z.to_nat (dims !!! inner)).
  assert (Hn : Z.of_nat n = dims !!! inner) by lia.
  induction fuel as [|fuel IH]; intros indices d Hidx Hzero Hd Hinv Hfuel.
  - pose proof (odometer_rank_bounds dims p p_ok ds indices Hdslt Hidx). lia.
  - pose proof (in_part_full dims p p_ok indices Hidx) as Hfull.
    pose proof (in_part_length dims p p_ok indices Hidx) as Hlen.
    cbn [SlicedCopy_loop].
    rewrite (GetFlatTensorOffset_exact dims dest_m2m dest_strides dims_fit
               dest_perm dest_ok indices Hfull). cbn [bind].
    rewrite (GetFlatTensorOffset_exact dims src_m2m src_strides dims_fit
               src_perm src_ok indices Hfull). cbn [bind].
    rewrite (vec_get_Ok (inner :: ds) 0 inner eq_refl). cbn [bind].
    rewrite (vec_get_Ok dims inner (dims !!! inner))
      by (by apply list_lookup_lookup_total_lt). cbn [bind].
    unfold StridedCopy.
    destruct src_ok as (_ & Hspos & _).
    destruct (Hspos inner Hinner) as [Hss Hsle].
    rewrite wrap64_id by (unfold int64_range; nia).
    rewrite <- Hn.
    destruct (StridedCopy_loop_row inner indices n Hinner Hfull Hzero Hn
                n 0%nat budget d (dot dest_strides indices)
                (dot src_strides indices))
      as (d1 & Hrow & Hcopied); [lia|lia|done|lia|lia|].
    rewrite Hrow. cbn [bind].
    assert (Hd1 : length d1 = Z.to_nat (product dims)).
    { destruct Hcopied as (Hl & _). lia. }
    destruct (SlicedCopy_advance_spec dims p (inner :: ds) dims_lookup_fit
                p_ok (seq 1 (length indices - 1)) ds indices)
      as (next & Hadv & Hnext); [|done|done|done|].
    { replace (length indices - 1)%nat with (length ds).
      - apply Forall2_seq_tail.
      - apply Permutation_length in iter_perm.
        rewrite length_seq in iter_perm. simpl in iter_perm. lia. }
    rewrite Hadv. cbn [bind].
    assert (Hstep : copied (fun e => (in_part p e /\ lex_lt ds e indices)
                                     \/ in_row inner indices 0 n e) d0 d1).
    { apply (copied_trans _ _ d0 d d1); try done.
      - intros e [He _]. by apply (in_part_full dims p p_ok).
      - intros e He.
        apply (in_row_spec indices n e Hidx Hzero Hn) in He as [He _].
        by apply (in_part_full dims p p_ok). }
    destruct next as [indices'|].
    + destruct Hnext as (Hidx' & Hout & Hlex & Hrank).
      apply IH; try done.
      * by rewrite Hout.
      * eapply written_ext; [|exact Hstep]. intros e. cbv beta.
        rewrite (in_row_spec indices n e Hidx Hzero Hn). split.
        -- intros [[He Hl]|[He Ha]]; (split; [done|]); apply Hlex; tauto.
        -- intros [He Hl]. apply Hlex in Hl; tauto.
      * lia.
    + exists d1. split; [done|].
      eapply written_ext; [|exact Hstep]. intros e. cbv beta.
      rewrite (in_row_spec indices n e Hidx Hzero Hn). split.
      * intros [[He _]|[He _]]; done.
      * intros He.
        destruct (lex_lt_top dims p p_ok ds e indices Hdslt He Hnext); tauto.
Qed.

End Sliced.

Lemma extent_volume_bounds p ds :
  part_ok dims p -> (forall d, d ∈ ds -> (d < length dims)%nat) ->
  0 < extent_volume p ds <= volume dims ds.
Proof.
  intros (_ & _ & Hp) Hlt. unfold extent_volume, volume.
  induction ds as [|d ds IH]; simpl; [lia|].
  destruct (Hp d (Hlt d ltac:(left))) as (Hb & Hbl & Hld).
  assert (IH' := IH ltac:(intros; apply Hlt; by right)). nia.
Qed.

Lemma in_part_base p : part_ok dims p -> in_part p (base p).
Proof.
  intros (Hb & Hl & Hp). split; [lia|].
  intros i Hi. destruct (Hp i ltac:(lia)) as (? & ? & ?). lia.
Qed.

(** One closure: [SlicedCopy] on a partition that spans the inner
    dimension writes exactly the cells of the partition. *)
Lemma SlicedCopy_spec inner ds p fuel d0 :
  inner :: ds ≡ₚ seq 0 (length dims) ->
  part_ok dims p ->
  base p !!! inner = 0 -> limit p !!! inner = dims !!! inner ->
  product dims <= Z.of_nat fuel ->
  length d0 = Z.to_nat (product dims) ->
  exists d',
    SlicedCopy static_cast fuel S D dims src_buf src_strides d0 dest_strides
      (inner :: ds) p = Ok d' /\
    copied (in_part p) d0 d'.
Proof.
  intros Hperm Hp Hbase Hlimit Hfuel Hd0.
  pose proof (inner_lt inner ds Hperm) as Hinner.
  assert (Hdslt : forall d, d ∈ ds -> (d < length dims)%nat).
  { intros d Hd. apply (iter_lt inner ds Hperm). by right. }
  destruct src_ok as (Hslen & Hspos & _).
  destruct dest_ok as (Hdlen & _ & _).
  destruct (Hspos inner Hinner) as [Hss Hsle].
  unfold SlicedCopy.
  rewrite (vec_get_Ok (inner :: ds) 0 inner eq_refl). cbn [bind].
  rewrite (vec_get_Ok src_strides inner (src_strides !!! inner))
    by (apply list_lookup_lookup_total_lt; lia). cbn [bind].
  rewrite (vec_get_Ok dest_strides inner (dest_strides !!! inner))
    by (apply list_lookup_lookup_total_lt; lia). cbn [bind].
  rewrite bool_decide_eq_true_2 by (destruct Hp as (-> & _); lia).
  pose proof (extent_volume_bounds p ds Hp Hdslt) as Hvol.
  pose proof (Forall_pos_lookup dims inner dims_pos Hinner) as Hn0.
  assert (Hprod : volume dims (inner :: ds) = product dims).
  { rewrite (volume_perm _ _ _ Hperm). apply volume_seq. }
  simpl in Hprod. fold (volume dims ds) in Hprod.
  pose proof (in_part_base p Hp) as Hidx.
  apply (SlicedCopy_loop_spec p inner ds Hperm Hp Hbase Hlimit fuel d0);
    try done.
  - nia.
  - apply written_none. intros e [He Hl].
    by apply (lex_lt_base dims p Hp ds e (base p) Hdslt He).
  - pose proof (odometer_rank_bounds dims p Hp ds (base p) Hdslt Hidx). nia.
Qed.

(** All closures, in any order. *)
Lemma run_closures_spec inner ds fuel tasks d0 :
  inner :: ds ≡ₚ seq 0 (length dims) ->
  (forall p, p ∈ tasks ->
     part_ok dims p /\ base p !!! inner = 0 /\
     limit p !!! inner = dims !!! inner) ->
  product dims <= Z.of_nat fuel ->
  length d0 = Z.to_nat (product dims) ->
  exists d',
    run_closures static_cast fuel S D dims src_buf src_strides dest_strides
      (inner :: ds) tasks d0 = Ok d' /\
    copied (fun e => exists p, p ∈ tasks /\ in_part p e) d0 d'.
Proof.
  intros Hperm Htasks Hfuel. revert d0.
  induction tasks as [|p tasks IH]; intros d0 Hd0.
  - exists d0. split; [done|]. apply written_none.
    intros e (p & Hp & _). by apply elem_of_nil in Hp.
  - destruct (Htasks p ltac:(left)) as (Hp & Hbase & Hlimit).
    destruct (SlicedCopy_spec inner ds p fuel d0 Hperm Hp Hbase Hlimit Hfuel Hd0)
      as (d1 & Hrun1 & Hc1).
    cbn [run_closures]. rewrite Hrun1. cbn [bind].
    destruct (IH ltac:(intros; apply Htasks; by right) d1)
      as (d' & Hrun & Hc).
    { destruct Hc1 as (Hl & _). lia. }
    exists d'. split; [done|].
    assert (Hall : copied (fun e => in_part p e \/
                                    exists q, q ∈ tasks /\ in_part q e) d0 d').
    { apply (copied_trans _ _ d0 d1 d'); try done.
      - intros e He. by apply (in_part_full dims p Hp).
      - intros e (q & Hq & He).
        destruct (Htasks q ltac:(by right)) as (Hqok & _).
        by apply (in_part_full dims q Hqok). }
    eapply written_ext; [|exact Hall].
    intros e. cbv beta. split.
    + intros [He|(q & Hq & He)]; [exists p|exists q];
        (split; [|done]); [left|by right].
    + intros (q & Hq & He). apply elem_of_cons in Hq as [->|Hq];
        [by left|right; by exists q].
Qed.

End Kernel.

(** ** The iteration order is a reordering of the layout *)

Lemma GetIterationDimensions_loop_index dims m2m rest i index scaled :
  drop i m2m = rest ->
  (forall d, d ∈ m2m -> (d < length dims)%nat) ->
  exists index',
    GetIterationDimensions_loop dims rest i index scaled = Ok index' /\
    (index' = index \/ (i <= index' < length m2m)%nat).
Proof.
  intros Hdrop Hlt. revert i index scaled Hdrop.
  induction rest as [|dim rest IH]; intros i index scaled Hdrop; simpl.
  - exists index. split; [done|by left].
  - assert (Hi : m2m !! i = Some dim).
    { rewrite <- (Nat.add_0_r i), <- lookup_drop, Hdrop. done. }
    assert (Hrest : drop (S i) m2m = rest).
    { rewrite (drop_S _ _ _ Hi) in Hdrop. by injection Hdrop. }
    assert (Hdim : (dim < length dims)%nat).
    { apply Hlt. by eapply list_elem_of_lookup_2. }
    rewrite (vec_get_Ok dims dim (dims !!! dim))
      by (by apply list_lookup_lookup_total_lt). simpl.
    apply lookup_lt_Some in Hi.
    destruct (scaled <? dims !!! dim).
    + destruct (IH (S i) i (dims !!! dim) Hrest) as (index' & Hrun & Hidx).
      exists index'. split; [done|]. right. lia.
    + destruct (IH (S i) index scaled Hrest) as (index' & Hrun & Hidx).
      exists index'. split; [done|]. destruct Hidx; [by left|right; lia].
Qed.

Lemma insert_swap_perm {A} (v : list A) j a b :
  v !! 0%nat = Some a -> v !! j = Some b ->
  <[j:=a]> (<[0%nat:=b]> v) ≡ₚ v.
Proof.
  intros Ha Hb. destruct v as [|a' t]; [done|]. simpl in Ha.
  injection Ha as ->. destruct j as [|j]; simpl in *.
  - by injection Hb as ->.
  - rewrite <- (take_drop_middle t j b Hb) at 2.
    rewrite (insert_take_drop t j a) by (by eapply lookup_lt_Some).
    rewrite <- !Permutation_middle. apply perm_swap.
Qed.

Lemma GetIterationDimensions_perm (s : Shape) :
  valid_layout s -> (0 < rank s)%nat ->
  exists iter_dims,
    GetIterationDimensions s = Ok iter_dims /\
    iter_dims ≡ₚ minor_to_major s.
Proof.
  intros Hv Hrank.
  pose proof (valid_layout_length s Hv) as Hlen.
  destruct (lookup_lt_is_Some_2 (minor_to_major s) 0 ltac:(lia)) as [first Hfirst].
  assert (Hflt : (first < rank s)%nat).
  { apply valid_layout_lt; [done|]. by eapply list_elem_of_lookup_2. }
  unfold GetIterationDimensions.
  rewrite (vec_get_Ok _ _ _ Hfirst). cbn [bind].
  rewrite (vec_get_Ok (dimensions s) first (dimensions s !!! first))
    by (by apply list_lookup_lookup_total_lt). cbn [bind].
  destruct (GetIterationDimensions_loop_index (dimensions s)
              (minor_to_major s) (drop 1 (minor_to_major s)) 1 0
              (wrap64 (kMinorDimScale * dimensions s !!! first)) eq_refl)
    as (index & Hrun & Hindex).
  { intros d Hd. by apply valid_layout_lt. }
  rewrite Hrun. cbn [bind].
  assert (Hilt : (index < length (minor_to_major s))%nat) by lia.
  destruct (lookup_lt_is_Some_2 _ _ Hilt) as [chosen Hchosen].
  rewrite (vec_swap_Ok _ _ _ _ _ Hfirst Hchosen).
  eexists. split; [done|]. by apply insert_swap_perm.
Qed.

(** ** The tiles cover the box *)

Section Tiles.

Variable dims : list Z.
Variables inner m : nat.
Variables size ps : Z.

Hypothesis dims_pos : Forall (fun n => 0 < n) dims.
Hypothesis inner_lt : (inner < length dims)%nat.
Hypothesis m_lt : (m < length dims)%nat.
Hypothesis m_inner : m <> inner.
Hypothesis m_size : dims !!! m = size.
Hypothesis ps_pos : 0 < ps.

Lemma tile_ok k :
  (k < tile_count size ps)%nat ->
  part_ok dims (tile dims m size ps k) /\
  base (tile dims m size ps k) !!! inner = 0 /\
  limit (tile dims m size ps k) !!! inner = dims !!! inner.
Proof.
  intros Hk. apply tile_count_spec in Hk; [|done]. simpl.
  split; [|split].
  - unfold part_ok. simpl.
    split; [by rewrite length_insert, length_replicate|].
    split; [by rewrite length_insert|].
    intros i Hi. destruct (decide (i = m)) as [->|Hne].
    + rewrite !list_lookup_total_insert_eq
        by (rewrite ?length_replicate; lia). nia.
    + rewrite !list_lookup_total_insert_ne by done.
      rewrite lookup_total_replicate_2 by done.
      pose proof (Forall_pos_lookup dims i dims_pos Hi). lia.
  - rewrite list_lookup_total_insert_ne by done.
    by apply lookup_total_replicate_2.
  - by rewrite list_lookup_total_insert_ne by done.
Qed.

Lemma tiling_cover e :
  (exists p, p ∈ tiling dims m size ps /\ in_part p e) <-> in_full dims e.
Proof.
  split.
  - intros (p & Hp & He). apply tiling_elem in Hp as (k & Hk & ->).
    destruct (tile_ok k Hk) as (Hok & _).
    by apply (in_part_full dims _ Hok).
  - intros He. apply in_full_spec in He as [Hlen Hbox].
    pose proof (Hbox m m_lt) as Hm. rewrite m_size in Hm.
    pose proof (Z.mul_div_le (e !!! m) ps ps_pos) as Hlo.
    pose proof (Z.mul_succ_div_gt (e !!! m) ps ps_pos) as Hhi.
    pose proof (Z.div_pos (e !!! m) ps (proj1 Hm) ps_pos) as Hk0.
    set (k := Z.to_nat (e !!! m / ps)).
    assert (Hk : (k < tile_count size ps)%nat).
    { apply tile_count_spec; [done|]. unfold k. rewrite Z2Nat.id by lia. nia. }
    exists (tile dims m size ps k). split.
    + apply tiling_elem. by exists k.
    + unfold in_part, in_box. simpl. rewrite length_insert.
      split; [done|]. intros i Hi.
      destruct (decide (i = m)) as [->|Hne].
      * rewrite !list_lookup_total_insert_eq
          by (rewrite ?length_replicate; lia).
        unfold k. rewrite Z2Nat.id by lia. nia.
      * rewrite !list_lookup_total_insert_ne by done.
        rewrite lookup_total_replicate_2 by done. by apply Hbox.
Qed.

End Tiles.

(** ** The strided path of [CopyTensors] *)

Lemma layouts_differ_rank (a b : Shape) :
  valid_layout a -> valid_layout b ->
  dimensions a = dimensions b ->
  minor_to_major a <> minor_to_major b ->
  (2 <= rank b)%nat.
Proof.
  unfold valid_layout, rank. intros Ha Hb Hdims Hne. rewrite Hdims in Ha.
  destruct (length (dimensions b)) as [|[|r]]; [| |lia]; simpl in *.
  - apply Permutation_nil_r in Ha, Hb. congruence.
  - apply Permutation_singleton_r in Ha, Hb. congruence.
Qed.

Section Strided.

Variable static_cast : CType -> CType -> Z -> Z.
Variables S D : CType.
Variables src_buffer dest_buffer : list Z.
Variables src_shape dest_shape : Shape.
Variable dest_buffer_size : Z.

Local Abbreviation dims := (dimensions dest_shape).

Hypothesis src_valid : valid_layout src_shape.
Hypothesis dest_valid : valid_layout dest_shape.
Hypothesis same_dims : dimensions src_shape = dims.
Hypothesis layouts_differ :
  minor_to_major src_shape <> minor_to_major dest_shape.
Hypothesis dims_pos : Forall (fun n => 0 < n) dims.
Hypothesis dims_fit : product dims < 2 ^ 63.
Hypothesis src_len : length src_buffer = Z.to_nat (product dims).
Hypothesis dest_len : length dest_buffer = Z.to_nat (product dims).
Hypothesis size_ok : dest_buffer_size = (product dims * sizeof D) mod 2 ^ 64.

Lemma CopyTensors_strided src_strides dest_strides :
  ComputeShapeStrides src_shape = Ok src_strides ->
  ComputeShapeStrides dest_shape = Ok dest_strides ->
  forall env pool_order fuel,
    (forall parts, pool_order parts ≡ₚ parts) ->
    product dims <= Z.of_nat fuel ->
    exists result,
      CopyTensors static_cast pool_order env fuel S D src_buffer src_shape
        dest_buffer dest_buffer_size dest_shape = Ok result /\
      written (cell_pos dest_strides)
        (cell_val static_cast S D src_buffer src_strides)
        (in_full dims) dest_buffer result.
Proof.
  intros Hsrc Hdest env pool_order fuel Hpool Hfuel.
  pose proof (layouts_differ_rank src_shape dest_shape src_valid dest_valid
                same_dims layouts_differ) as Hrank.
  assert (Hsperm : minor_to_major src_shape ≡ₚ seq 0 (length dims)).
  { unfold valid_layout, rank in src_valid. by rewrite same_dims in src_valid. }
  assert (Hdperm : minor_to_major dest_shape ≡ₚ seq 0 (length dims)).
  { exact dest_valid. }
  destruct (ComputeShapeStrides_exact src_shape src_valid) as (ss & Hss & Hsok).
  { by rewrite same_dims. } { by rewrite same_dims. }
  destruct (ComputeShapeStrides_exact dest_shape dest_valid dims_pos dims_fit)
    as (dstr & Hds & Hdok).
  rewrite Hsrc in Hss. injection Hss as <-.
  rewrite Hdest in Hds. injection Hds as <-.
  rewrite same_dims in Hsok.
  destruct (GetIterationDimensions_perm dest_shape dest_valid ltac:(lia))
    as (iter_dims & Hiter & Hiperm).
  destruct iter_dims as [|inner ds].
  { rewrite Hdperm in Hiperm. apply Permutation_length in Hiperm.
    rewrite length_seq in Hiperm. unfold rank in Hrank. simpl in Hiperm. lia. }
  rewrite Hdperm in Hiperm.
  assert (Hinner : (inner < length dims)%nat).
  { assert (Hin : inner ∈ seq 0 (length dims)) by (rewrite <- Hiperm; left).
    apply elem_of_seq in Hin. lia. }
  destruct (CreateCopyPartitions_Ok env dims inner dims_pos dims_fit)
    as (m & size & Hlarge & Hsize & Hparts).
  { unfold rank in Hrank. destruct (decide (inner = 0%nat)) as [->|Hne].
    - exists 1%nat. lia.
    - exists 0%nat. lia. }
  destruct Hlarge as (Hm & Hminner & _).
  pose proof (part_size_bounds env dims m size dims_pos dims_fit Hsize) as Hps.
  destruct (product_lookup_le dims m size dims_pos Hsize) as (Hpos & Hmul & Hq).
  pose proof (product_pos dims dims_pos) as Hprod.
  assert (Hsize' : dims !!! m = size) by (by apply list_lookup_total_correct).
  set (ps := part_size env dims size) in *.
  pose proof (tile_count_le size ps ltac:(lia) ltac:(lia)) as Hcount.
  assert (Hsize_le : size <= product dims) by nia.
  unfold CopyTensors, SameDimensions, ElementsIn.
  rewrite bool_decide_eq_true_2 by done. cbn [check bind].
  rewrite same_dims, (Multiply_exact dims dims_pos dims_fit).
  rewrite size_ok, Z.eqb_refl. cbn [check bind].
  rewrite bool_decide_eq_false_2 by done.
  destruct (Z.ltb_spec 0 (product dims)) as [_|]; [|lia].
  rewrite Hsrc, Hdest, Hiter. cbn [bind].
  rewrite (vec_get_Ok (inner :: ds) 0 inner eq_refl). cbn [bind].
  rewrite Hparts by lia. cbn [bind].
  destruct (run_closures_spec static_cast S D src_buffer dims
              (minor_to_major src_shape) (minor_to_major dest_shape)
              src_strides dest_strides dims_pos dims_fit Hsperm Hdperm
              Hsok Hdok src_len inner ds fuel
              (pool_order (tiling dims m size ps)) dest_buffer Hiperm)
    as (result & Hrun & Hwritten); [|done|done|].
  { intros p Hp. rewrite Hpool in Hp. apply tiling_elem in Hp as (k & Hk & ->).
    apply (tile_ok dims inner m size ps); (done || lia). }
  exists result. split; [done|].
  eapply written_ext; [|exact Hwritten]. intros e. cbv beta.
  rewrite <- (tiling_cover dims inner m size ps dims_pos Hinner Hm Hminner
                Hsize' ltac:(lia) e).
  split; intros (p & Hp & He); exists p; (split; [|done]).
  - by rewrite Hpool in Hp.
  - by rewrite Hpool.
Qed.

End Strided.

Lemma CopyPartition_of_ok dims inner :
  Forall (fun n => 0 < n) dims -> (inner < length dims)%nat ->
  part_ok dims (CopyPartition_of dims) /\
  base (CopyPartition_of dims) !!! inner = 0 /\
  limit (CopyPartition_of dims) !!! inner = dims !!! inner.
Proof.
  intros Hpos Hinner. unfold part_ok, CopyPartition_of. simpl.
  split; [|split; [by apply lookup_total_replicate_2|done]].
  split; [by rewrite length_replicate|]. split; [done|].
  intros i Hi. rewrite lookup_total_replicate_2 by done.
  pose proof (Forall_pos_lookup dims i Hpos Hi). lia.
Qed.

(** Every number of parts from 1 on is the [max_parts] of some number of
    hardware threads. *)
Lemma max_parts_onto n :
  1 <= n -> exists env, max_parts env = n.
Proof.
  intros Hn. exists (mkEnv false false (mkDevice CPU 0) (2 * n)).
  unfold max_parts. simpl.
  rewrite Z.mul_comm, Z.quot_mul by lia. lia.
Qed.

(** C7: for a fixed source buffer, source shape, destination shape and
    destination buffer on the strided path (valid layouts that differ,
    equal dimensions of positive sizes, buffers of [ElementsIn] elements),
    there is one destination content that [CopyTensors] produces for every
    number of hardware threads, hence for every [max_parts], and for every
    order in which the pool runs the closures.  It is also what a single
    [SlicedCopy] over the whole box produces, and it holds at the cell of
    each index vector the cast of the source element of that index
    vector. *)
Theorem CopyTensors_partition_independent
    (static_cast : CType -> CType -> Z -> Z) (S D : CType)
    (src_buffer : list Z) (src_shape : Shape)
    (dest_buffer : list Z) (dest_buffer_size : Z) (dest_shape : Shape) :
  valid_layout src_shape -> valid_layout dest_shape ->
  dimensions src_shape = dimensions dest_shape ->
  minor_to_major src_shape <> minor_to_major dest_shape ->
  Forall (fun n => 0 < n) (dimensions dest_shape) ->
  product (dimensions dest_shape) < 2 ^ 63 ->
  length src_buffer = Z.to_nat (product (dimensions dest_shape)) ->
  length dest_buffer = Z.to_nat (product (dimensions dest_shape)) ->
  dest_buffer_size
    = (product (dimensions dest_shape) * sizeof D) mod 2 ^ 64 ->
  exists result,
    (forall env pool_order fuel,
       (forall parts, pool_order parts ≡ₚ parts) ->
       product (dimensions dest_shape) <= Z.of_nat fuel ->
       CopyTensors static_cast pool_order env fuel S D src_buffer src_shape
         dest_buffer dest_buffer_size dest_shape = Ok result) /\
    (exists src_strides dest_strides iter_dims,
       ComputeShapeStrides src_shape = Ok src_strides /\
       ComputeShapeStrides dest_shape = Ok dest_strides /\
       GetIterationDimensions dest_shape = Ok iter_dims /\
       (forall fuel,
          product (dimensions dest_shape) <= Z.of_nat fuel ->
          SlicedCopy static_cast fuel S D (dimensions dest_shape) src_buffer
            src_strides dest_buffer dest_strides iter_dims
            (CopyPartition_of (dimensions dest_shape)) = Ok result) /\
       (forall e, in_full (dimensions dest_shape) e ->
          result !! cell_pos dest_strides e
          = Some (cell_val static_cast S D src_buffer src_strides e))).
Proof.
  intros Hsv Hdv Hdims Hne Hpos Hfit Hslen Hdlen Hsize.
  set (dims := dimensions dest_shape) in *.
  pose proof (layouts_differ_rank src_shape dest_shape Hsv Hdv Hdims Hne)
    as Hrank.
  assert (Hsperm : minor_to_major src_shape ≡ₚ seq 0 (length dims)).
  { unfold valid_layout, rank in Hsv. by rewrite Hdims in Hsv. }
  destruct (ComputeShapeStrides_exact src_shape Hsv) as (ss & Hss & Hsok).
  { by rewrite Hdims. } { by rewrite Hdims. }
  destruct (ComputeShapeStrides_exact dest_shape Hdv Hpos Hfit)
    as (dstr & Hds & Hdok).
  rewrite Hdims in Hsok. fold dims in Hdok, Hsok.
  destruct (GetIterationDimensions_perm dest_shape Hdv ltac:(lia))
    as (iter_dims & Hiter & Hiperm).
  assert (Hdperm : minor_to_major dest_shape ≡ₚ seq 0 (length dims))
    by exact Hdv.
  rewrite Hdperm in Hiperm. unfold rank in Hrank. fold dims in Hrank.
  destruct iter_dims as [|inner ds].
  { apply Permutation_length in Hiperm. rewrite length_seq in Hiperm.
    simpl in Hiperm. lia. }
  assert (Hinner : (inner < length dims)%nat).
  { assert (Hin : inner ∈ seq 0 (length dims)) by (rewrite <- Hiperm; left).
    apply elem_of_seq in Hin. lia. }
  assert (Hstrided := CopyTensors_strided static_cast S D src_buffer
            dest_buffer src_shape dest_shape dest_buffer_size Hsv Hdv Hdims
            Hne Hpos Hfit Hslen Hdlen Hsize ss dstr Hss Hds).
  destruct (CopyPartition_of_ok dims inner Hpos Hinner)
    as (Hfull & Hfbase & Hflimit).
  destruct (SlicedCopy_spec static_cast S D src_buffer dims
              (minor_to_major src_shape) (minor_to_major dest_shape)
              ss dstr Hpos Hfit Hsperm Hdperm Hsok Hdok Hslen inner ds
              (CopyPartition_of dims) (Z.to_nat (product dims)) dest_buffer
              Hiperm Hfull Hfbase Hflimit)
    as (result & Hone & Hwritten); [lia|done|].
  exists result. split.
  - intros env pool_order fuel Hpool Hfuel.
    destruct (Hstrided env pool_order fuel Hpool Hfuel) as (r & Hrun & Hw).
    rewrite Hrun. f_equal.
    exact (written_unique _ _ _ _ _ _ Hw Hwritten).
  - exists ss, dstr, (inner :: ds).
    split; [done|]. split; [done|]. split; [done|]. split.
    + intros fuel Hfuel.
      destruct (SlicedCopy_spec static_cast S D src_buffer dims
                  (minor_to_major src_shape) (minor_to_major dest_shape)
                  ss dstr Hpos Hfit Hsperm Hdperm Hsok Hdok Hslen inner ds
                  (CopyPartition_of dims) fuel dest_buffer
                  Hiperm Hfull Hfbase Hflimit Hfuel Hdlen)
        as (r & Hrun & Hw).
      rewrite Hrun. f_equal.
      exact (written_unique _ _ _ _ _ _ Hw Hwritten).
    + intros e He. destruct Hwritten as (_ & Hcells & _). by apply Hcells.
Qed.

(** Scenario S1 of the specification: a row-major [[2; 3]] tensor copied to
    a column-major destination. *)
Example CopyTensors_S1 :
  CopyTensors (fun _ _ v => v) (fun parts => parts)
    (mkEnv false false (mkDevice CPU 0) 8) 6 c_int32 c_int32
    [1; 2; 3; 4; 5; 6] (mkShape S32 [2; 3] [1; 0]%nat [])
    [0; 0; 0; 0; 0; 0] 24 (mkShape S32 [2; 3] [0; 1]%nat [])
  = Ok [1; 4; 2; 5; 3; 6].
Proof. vm_compute. reflexivity. Qed.

Lemma CopyTensors_partition_independent_witness :
  exists result,
    forall env pool_order fuel,
      (forall parts, pool_order parts ≡ₚ parts) ->
      product [2; 3] <= Z.of_nat fuel ->
      CopyTensors (fun _ _ v => v) pool_order env fuel c_int32 c_int32
        [1; 2; 3; 4; 5; 6] (mkShape S32 [2; 3] [1; 0]%nat [])
        [0; 0; 0; 0; 0; 0] 24 (mkShape S32 [2; 3] [0; 1]%nat [])
      = Ok result.
Proof.
  destruct (CopyTensors_partition_independent (fun _ _ v => v)
              c_int32 c_int32
              [1; 2; 3; 4; 5; 6] (mkShape S32 [2; 3] [1; 0]%nat [])
              [0; 0; 0; 0; 0; 0] 24 (mkShape S32 [2; 3] [0; 1]%nat []))
    as (result & Hall & _).
  - unfold valid_layout. simpl. apply perm_swap.
  - unfold valid_layout. simpl. reflexivity.
  - reflexivity.
  - simpl. intros E. discriminate E.
  - simpl. repeat constructor.
  - simpl. lia.
  - reflexivity.
  - reflexivity.
  - reflexivity.
  - exists result. exact Hall.
Defined.

(** * Further properties of the transfer core *)

(** ** Type mapper *)

(** X1: device promotion is idempotent: promoting an already promoted
    primitive type for the same device and toggles changes nothing. *)
Theorem GetDevicePrimitiveType_idempotent env type device :
  GetDevicePrimitiveType env (GetDevicePrimitiveType env type device) device
  = GetDevicePrimitiveType env type device.
Proof.
  unfold GetDevicePrimitiveType.
  destruct type; simpl; try reflexivity;
    destruct (UseBF16 env), (Use32BitLong env),
      (is_TPU (GetDeviceOrCurrent env device)); reflexivity.
Qed.

(** X2: what device promotion never returns: on a TPU none of F64, U8, S8,
    U16, S16 and C128; with BF16 mode enabled neither F32 nor F64; with
    32-bit-long mode enabled neither S64 nor U64. *)
Theorem GetDevicePrimitiveType_excludes env type device :
  (is_TPU (GetDeviceOrCurrent env device) = true ->
   (GetDevicePrimitiveType env type device
      ∉ [F64; U8; S8; U16; S16; C128])) /\
  (UseBF16 env = true ->
   (GetDevicePrimitiveType env type device ∉ [F32; F64])) /\
  (Use32BitLong env = true ->
   (GetDevicePrimitiveType env type device ∉ [S64; U64])).
Proof.
  unfold GetDevicePrimitiveType.
  split; [|split]; intros Hmode Hin; rewrite ?Hmode in Hin;
    destruct type; simpl in Hin;
    destruct (UseBF16 env), (Use32BitLong env),
      (is_TPU (GetDeviceOrCurrent env device));
    try discriminate Hmode;
    repeat (apply elem_of_cons in Hin as [Hin|Hin]; [discriminate Hin|]);
    by apply elem_of_nil in Hin.
Qed.

Lemma GetDevicePrimitiveType_excludes_witness :
  (GetDevicePrimitiveType (mkEnv true true (mkDevice TPU 0) 8) U8 None
     ∉ [F64; U8; S8; U16; S16; C128]) /\
  (GetDevicePrimitiveType (mkEnv true true (mkDevice TPU 0) 8) F64 None
     ∉ [F32; F64]) /\
  (GetDevicePrimitiveType (mkEnv true true (mkDevice TPU 0) 8) S64 None
     ∉ [S64; U64]).
Proof.
  split; [|split].
  - apply (GetDevicePrimitiveType_excludes
             (mkEnv true true (mkDevice TPU 0) 8) U8 None). reflexivity.
  - apply (GetDevicePrimitiveType_excludes
             (mkEnv true true (mkDevice TPU 0) 8) F64 None). reflexivity.
  - apply (GetDevicePrimitiveType_excludes
             (mkEnv true true (mkDevice TPU 0) 8) S64 None). reflexivity.
Defined.

(** X3: the raw mapping is inverted by [TensorTypeFromXlaType]: a supported
    scalar kind mapped to its raw primitive type and back is the same kind,
    except that BFloat16 comes back as Float when BF16 mode is enabled. *)
Theorem TensorTypeFromXlaType_raw env k p :
  TensorTypeToRawXlaType k = Ok p ->
  TensorTypeFromXlaType env p
  = Ok (if UseBF16 env && bool_decide (k = BFloat16) then Float else k).
Proof.
  intros Hraw. destruct k; simpl in Hraw; try discriminate Hraw;
    injection Hraw as <-; simpl; destruct (UseBF16 env); reflexivity.
Qed.

Lemma TensorTypeFromXlaType_raw_witness :
  TensorTypeFromXlaType (mkEnv true false (mkDevice CPU 0) 8) BF16 = Ok Float /\
  TensorTypeFromXlaType (mkEnv true false (mkDevice CPU 0) 8) S64 = Ok Long.
Proof.
  split.
  - exact (TensorTypeFromXlaType_raw (mkEnv true false (mkDevice CPU 0) 8)
             BFloat16 BF16 eq_refl).
  - exact (TensorTypeFromXlaType_raw (mkEnv true false (mkDevice CPU 0) 8)
             Long S64 eq_refl).
Defined.

(** X4: [MakeXlaPrimitiveType] is the device promotion of the raw mapping,
    and it fails, with TypeUnsupported, exactly when the raw mapping
    does. *)
Theorem MakeXlaPrimitiveType_compose env k device :
  MakeXlaPrimitiveType env k device
  = let! raw := TensorTypeToRawXlaType k in
    Ok (GetDevicePrimitiveType env raw device).
Proof. destruct k; reflexivity. Qed.

(** ** Row-major strides *)

Lemma ComputeArrayStrides_loop_spec sizes i strides :
  (i <= length sizes)%nat -> length strides = length sizes ->
  exists r,
    ComputeArrayStrides_loop sizes i strides = Ok r /\
    length r = length sizes /\
    (forall d, (i - 1 <= d)%nat -> r !! d = strides !! d) /\
    (forall j s n, (S j < i)%nat ->
       r !! S j = Some s -> sizes !! S j = Some n ->
       r !! j = Some (wrap64 (s * n))).
Proof.
  revert strides. induction i as [|i IH]; intros strides Hi Hlen.
  - exists strides. repeat split; try done. intros; lia.
  - destruct i as [|j].
    + exists strides. repeat split; try done. intros; lia.
    + cbn [ComputeArrayStrides_loop].
      destruct (lookup_lt_is_Some_2 strides (S j) ltac:(lia)) as [s0 Hs0].
      destruct (lookup_lt_is_Some_2 sizes (S j) ltac:(lia)) as [n0 Hn0].
      rewrite (vec_get_Ok _ _ _ Hs0), (vec_get_Ok _ _ _ Hn0). cbn [bind].
      rewrite vec_set_Ok by lia. cbn [bind].
      destruct (IH (<[j:=wrap64 (s0 * n0)]> strides))
        as (r & Hrun & Hrlen & Hkeep & Hstep);
        [lia|by rewrite length_insert|].
      exists r. split; [done|]. split; [done|]. split.
      * intros d Hd. rewrite Hkeep by lia.
        apply list_lookup_insert_ne. lia.
      * intros k s n Hk Hs Hn. destruct (decide (k = j)) as [->|Hne].
        -- rewrite Hkeep in Hs by lia.
           rewrite list_lookup_insert_ne in Hs by lia.
           rewrite Hs0 in Hs. injection Hs as <-.
           rewrite Hn0 in Hn. injection Hn as <-.
           rewrite Hkeep by lia. apply list_lookup_insert_eq. lia.
        -- apply Hstep; [lia|done..].
Qed.

(** X5: [ComputeArrayStrides] returns one stride per size; the last stride
    is 1 and every other stride is the product of the next stride and the
    next size, the product being the one of the integers whenever it is
    representable in 64 bits. *)
Theorem ComputeArrayStrides_row_major (sizes : list Z) :
  exists strides,
    ComputeArrayStrides sizes = Ok strides /\
    length strides = length sizes /\
    (forall d, S d = length sizes -> strides !! d = Some 1) /\
    (forall j s n,
       strides !! S j = Some s -> sizes !! S j = Some n ->
       int64_range (s * n) -> strides !! j = Some (s * n)).
Proof.
  unfold ComputeArrayStrides.
  destruct (ComputeArrayStrides_loop_spec sizes (length sizes)
              (replicate (length sizes) 1))
    as (r & Hrun & Hlen & Hkeep & Hstep);
    [lia|by rewrite length_replicate|].
  exists r. split; [done|]. split; [done|]. split.
  - intros d Hd. rewrite Hkeep by lia. apply lookup_replicate_2. lia.
  - intros j s n Hs Hn Hfit. rewrite <- (wrap64_id (s * n)) by done.
    apply Hstep; [|done..]. apply lookup_lt_Some in Hn. lia.
Qed.

(** Two stride vectors that end in 1 and obey the row-major recurrence are
    equal. *)
Lemma row_major_unique sizes (a b : list Z) :
  length a = length sizes -> length b = length sizes ->
  (forall d, S d = length sizes -> a !! d = Some 1 /\ b !! d = Some 1) ->
  (forall j s n, a !! S j = Some s -> sizes !! S j = Some n ->
                 a !! j = Some (wrap64 (s * n))) ->
  (forall j s n, b !! S j = Some s -> sizes !! S j = Some n ->
                 b !! j = Some (wrap64 (s * n))) ->
  a = b.
Proof.
  intros Ha Hb Hlast Hsa Hsb.
  assert (H : forall k d, (d + k = length sizes)%nat -> (0 < k)%nat ->
                          a !! d = b !! d).
  { induction k as [|k IH]; intros d Hd Hk; [lia|].
    destruct k as [|k].
    - destruct (Hlast d ltac:(lia)) as [-> ->]. done.
    - assert (Hnext : a !! S d = b !! S d) by (apply IH; lia).
      destruct (lookup_lt_is_Some_2 a (S d) ltac:(lia)) as [s Hs].
      destruct (lookup_lt_is_Some_2 sizes (S d) ltac:(lia)) as [n Hn].
      rewrite (Hsa d s n Hs Hn). rewrite Hs in Hnext.
      by rewrite (Hsb d s n (eq_sym Hnext) Hn). }
  apply list_eq. intros d.
  destruct (decide (d < length sizes)%nat) as [Hd|Hd].
  - apply (H (length sizes - d)%nat); lia.
  - rewrite !lookup_ge_None_2; [done|lia|lia].
Qed.

Lemma rev_is_reverse {A} (l : list A) : rev l = reverse l.
Proof. unfold reverse. apply rev_alt. Qed.

Lemma lookup_rev_seq n k :
  (k < n)%nat -> rev (seq 0 n) !! k = Some (n - 1 - k)%nat.
Proof.
  intros Hk. rewrite rev_is_reverse.
  rewrite reverse_lookup by (rewrite length_seq; lia).
  rewrite length_seq. rewrite lookup_seq_lt by lia. f_equal. lia.
Qed.

(** X6: on a shape whose layout is the row-major one, the last dimension
    being the most minor, [ComputeShapeStrides] returns what
    [ComputeArrayStrides] returns on the dimension sizes. *)
Theorem ComputeShapeStrides_row_major (s : Shape) :
  minor_to_major s = rev (seq 0 (rank s)) ->
  ComputeShapeStrides s = ComputeArrayStrides (dimensions s).
Proof.
  intros Hlayout. unfold ComputeShapeStrides, ComputeArrayStrides.
  set (dims := dimensions s). set (n := length dims).
  assert (Hrank : rank s = n) by done.
  destruct (ComputeShapeStrides_loop_spec dims (minor_to_major s)
              (replicate (rank s) 0) 1)
    as (a & Hruna & Hlena & Hfirst & Hstepa & _).
  { rewrite Hlayout, rev_is_reverse, reverse_Permutation. apply NoDup_seq. }
  { intros d. rewrite Hlayout, rev_is_reverse, elem_of_reverse, elem_of_seq.
    lia. }
  { by rewrite length_replicate. }
  destruct (ComputeArrayStrides_loop_spec dims n (replicate n 1))
    as (b & Hrunb & Hlenb & Hkeep & Hstepb);
    [lia|by rewrite length_replicate|].
  rewrite Hruna, Hrunb. f_equal.
  apply (row_major_unique dims); try done.
  - intros d Hd. split.
    + apply Hfirst. rewrite Hlayout, Hrank, lookup_rev_seq by lia.
      f_equal. lia.
    + rewrite Hkeep by lia. apply lookup_replicate_2. lia.
  - intros j sj nj Hs Hn.
    assert (Hj : (S j < n)%nat) by (by eapply lookup_lt_Some).
    apply (Hstepa (n - 1 - S j)%nat (S j) j sj nj); try done.
    + rewrite Hlayout, Hrank, lookup_rev_seq by lia. f_equal. lia.
    + rewrite Hlayout, Hrank, lookup_rev_seq by lia. f_equal. lia.
  - intros j sj nj Hs Hn. apply Hstepb; [|done..].
    apply lookup_lt_Some in Hn. lia.
Qed.

Lemma ComputeShapeStrides_row_major_witness :
  ComputeShapeStrides (mkShape F32 [2; 3; 4] [2; 1; 0]%nat [])
  = ComputeArrayStrides [2; 3; 4].
Proof.
  apply (ComputeShapeStrides_row_major (mkShape F32 [2; 3; 4] [2; 1; 0]%nat [])).
  reflexivity.
Defined.

(** ** Offsets address every cell exactly once *)

Lemma decode_index_length dims ds q e :
  length (decode_index dims ds q e) = length e.
Proof.
  revert q e. induction ds as [|d ds IH]; intros q e; simpl; [done|].
  by rewrite IH, length_insert.
Qed.

Lemma decode_index_keeps dims ds q e d :
  d ∉ ds -> decode_index dims ds q e !!! d = e !!! d.
Proof.
  revert q e. induction ds as [|d' ds IH]; intros q e Hd; simpl; [done|].
  apply not_elem_of_cons in Hd as [Hne Hd].
  rewrite IH by done. by apply list_lookup_total_insert_ne.
Qed.

Lemma decode_index_spec dims ds q e :
  Forall (fun n => 0 < n) dims -> NoDup ds ->
  (forall d, d ∈ ds -> (d < length dims)%nat /\ (d < length e)%nat) ->
  0 <= q < volume dims ds ->
  digits_ok dims ds (decode_index dims ds q e) /\
  mixed_radix dims ds (decode_index dims ds q e) = q.
Proof.
  intros Hpos. revert q e.
  induction ds as [|d ds IH]; intros q e Hnd Hlt Hq; simpl.
  - split; [|simpl in Hq; lia]. intros d Hd. by apply elem_of_nil in Hd.
  - apply NoDup_cons in Hnd as [Hd Hnd].
    destruct (Hlt d ltac:(left)) as [Hdd Hde].
    pose proof (Forall_pos_lookup dims d Hpos Hdd) as Hn.
    simpl in Hq. fold (volume dims ds) in Hq.
    set (n := dims !!! d) in *.
    pose proof (Z.mod_pos_bound q n Hn) as Hmod.
    pose proof (Z.div_mod q n ltac:(lia)) as Hdm.
    assert (Hquot : 0 <= q / n < volume dims ds).
    { split; [apply Z.div_pos; lia|apply Z.div_lt_upper_bound; lia]. }
    destruct (IH (q / n) (<[d:=q mod n]> e) Hnd) as [Hdig Hval]; [|done|].
    { intros d' Hd'. destruct (Hlt d' ltac:(by right)).
      by rewrite length_insert. }
    assert (Hhead : decode_index dims ds (q / n) (<[d:=q mod n]> e) !!! d
                    = q mod n).
    { rewrite decode_index_keeps by done.
      by apply list_lookup_total_insert_eq. }
    split.
    + intros d' Hd'. apply elem_of_cons in Hd' as [->|Hd'].
      * rewrite Hhead. fold n. lia.
      * by apply Hdig.
    + rewrite Hhead, Hval. lia.
Qed.

Lemma dot_surj dims m2m strides q :
  Forall (fun n => 0 < n) dims ->
  m2m ≡ₚ seq 0 (length dims) ->
  strides_for dims m2m strides ->
  0 <= q < product dims ->
  exists e, in_full dims e /\ dot strides e = q.
Proof.
  intros Hpos Hperm Hok Hq.
  set (e := decode_index dims m2m q (replicate (length dims) 0)).
  assert (Hlt : forall d, d ∈ m2m -> (d < length dims)%nat).
  { intros d. rewrite Hperm, elem_of_seq. lia. }
  destruct (decode_index_spec dims m2m q (replicate (length dims) 0) Hpos)
    as [Hdig Hval].
  { rewrite Hperm. apply NoDup_seq. }
  { intros d Hd. rewrite length_replicate. split; by apply Hlt. }
  { by rewrite (volume_perm _ _ _ Hperm), volume_seq. }
  assert (He : in_full dims e).
  { apply in_full_spec. unfold e.
    rewrite decode_index_length, length_replicate. split; [done|].
    intros i Hi. apply Hdig. rewrite Hperm, elem_of_seq. lia. }
  exists e. split; [done|].
  by rewrite (dot_mixed_radix dims m2m strides Hperm Hok e He).
Qed.

(** X7: for a shape with a valid layout, positive sizes and a representable
    element count, the strides of [ComputeShapeStrides] make
    [GetFlatTensorOffset] a one-to-one correspondence between the index
    vectors of the shape and the positions of a buffer of [ElementsIn]
    elements: every index vector has an offset inside the buffer, two index
    vectors with the same offset are equal, and every position is the
    offset of an index vector. *)
Theorem GetFlatTensorOffset_bijective (s : Shape) :
  valid_layout s ->
  Forall (fun n => 0 < n) (dimensions s) ->
  product (dimensions s) < 2 ^ 63 ->
  exists strides,
    ComputeShapeStrides s = Ok strides /\
    ElementsIn s = product (dimensions s) /\
    (forall e, in_full (dimensions s) e ->
       exists off, GetFlatTensorOffset strides e = Ok off /\
                   0 <= off < ElementsIn s) /\
    (forall e e' off,
       in_full (dimensions s) e -> in_full (dimensions s) e' ->
       GetFlatTensorOffset strides e = Ok off ->
       GetFlatTensorOffset strides e' = Ok off -> e = e') /\
    (forall off, 0 <= off < ElementsIn s ->
       exists e, in_full (dimensions s) e /\
                 GetFlatTensorOffset strides e = Ok off).
Proof.
  intros Hv Hpos Hfit.
  destruct (ComputeShapeStrides_exact s Hv Hpos Hfit) as (strides & Hrun & Hok).
  assert (Hperm : minor_to_major s ≡ₚ seq 0 (length (dimensions s)))
    by exact Hv.
  assert (Hoff : forall e, in_full (dimensions s) e ->
                 GetFlatTensorOffset strides e = Ok (dot strides e)).
  { intros e He.
    by apply (GetFlatTensorOffset_exact (dimensions s) (minor_to_major s)). }
  assert (Hcount : ElementsIn s = product (dimensions s)).
  { unfold ElementsIn. by apply Multiply_exact. }
  exists strides. split; [done|]. split; [done|]. rewrite Hcount.
  split; [|split].
  - intros e He. exists (dot strides e). split; [by apply Hoff|].
    by apply (dot_bounds (dimensions s) (minor_to_major s)).
  - intros e e' off He He' H1 H2.
    rewrite (Hoff e He) in H1. rewrite (Hoff e' He') in H2.
    apply (dot_inj (dimensions s) (minor_to_major s) strides Hperm Hok);
      try done. congruence.
  - intros off Hq.
    destruct (dot_surj (dimensions s) (minor_to_major s) strides off
                Hpos Hperm Hok Hq) as (e & He & Hdot).
    exists e. split; [done|]. by rewrite (Hoff e He), Hdot.
Qed.

Lemma GetFlatTensorOffset_bijective_witness :
  exists strides,
    ComputeShapeStrides (mkShape S32 [2; 3] [0; 1]%nat []) = Ok strides /\
    ElementsIn (mkShape S32 [2; 3] [0; 1]%nat []) = 6.
Proof.
  destruct (GetFlatTensorOffset_bijective (mkShape S32 [2; 3] [0; 1]%nat []))
    as (strides & Hrun & Hcount & _).
  - unfold valid_layout. simpl. reflexivity.
  - simpl. repeat constructor.
  - simpl. lia.
  - exists strides. split; [exact Hrun|exact Hcount].
Defined.

(** ** What the strided copy leaves in the destination *)

Lemma written_content pos val P d r :
  written pos val P d r ->
  (forall q, (q < length d)%nat -> exists e, P e /\ pos e = q) ->
  forall q, (q < length d)%nat ->
    exists e, P e /\ pos e = q /\ r !! q = Some (val e).
Proof.
  intros (Hlen & Hin & _) Honto q Hq.
  destruct (Honto q Hq) as (e & He & <-).
  exists e. split; [done|]. split; [done|]. by apply Hin.
Qed.

Lemma cell_pos_onto dims m2m strides q :
  Forall (fun n => 0 < n) dims ->
  m2m ≡ₚ seq 0 (length dims) ->
  strides_for dims m2m strides ->
  (q < Z.to_nat (product dims))%nat ->
  exists e, in_full dims e /\ cell_pos strides e = q.
Proof.
  intros Hpos Hperm Hok Hq.
  destruct (dot_surj dims m2m strides (Z.of_nat q) Hpos Hperm Hok)
    as (e & He & Hdot); [lia|].
  exists e. split; [done|]. unfold cell_pos. rewrite Hdot. lia.
Qed.

(** X8: the strided copy overwrites every element of the destination: on
    the strided path the content [CopyTensors] returns is the same whatever
    the destination buffer held before, for every number of hardware
    threads and every order of the closures. *)
Theorem CopyTensors_overwrites_destination
    (static_cast : CType -> CType -> Z -> Z) (S D : CType)
    (src_buffer : list Z) (src_shape : Shape)
    (dest_buffer_size : Z) (dest_shape : Shape) :
  valid_layout src_shape -> valid_layout dest_shape ->
  dimensions src_shape = dimensions dest_shape ->
  minor_to_major src_shape <> minor_to_major dest_shape ->
  Forall (fun n => 0 < n) (dimensions dest_shape) ->
  product (dimensions dest_shape) < 2 ^ 63 ->
  length src_buffer = Z.to_nat (product (dimensions dest_shape)) ->
  dest_buffer_size
    = (product (dimensions dest_shape) * sizeof D) mod 2 ^ 64 ->
  exists result,
    forall dest_buffer env pool_order fuel,
      length dest_buffer = Z.to_nat (product (dimensions dest_shape)) ->
      (forall parts, pool_order parts ≡ₚ parts) ->
      product (dimensions dest_shape) <= Z.of_nat fuel ->
      CopyTensors static_cast pool_order env fuel S D src_buffer src_shape
        dest_buffer dest_buffer_size dest_shape = Ok result.
Proof.
  intros Hsv Hdv Hdims Hne Hpos Hfit Hslen Hsize.
  set (dims := dimensions dest_shape) in *.
  set (total := Z.to_nat (product dims)).
  destruct (ComputeShapeStrides_exact src_shape Hsv) as (ss & Hss & Hsok).
  { by rewrite Hdims. } { by rewrite Hdims. }
  destruct (ComputeShapeStrides_exact dest_shape Hdv Hpos Hfit)
    as (dstr & Hds & Hdok).
  fold dims in Hdok.
  assert (Hdperm : minor_to_major dest_shape ≡ₚ seq 0 (length dims))
    by exact Hdv.
  assert (Hrun : forall dest_buffer env pool_order fuel,
    length dest_buffer = total ->
    (forall parts, pool_order parts ≡ₚ parts) ->
    product dims <= Z.of_nat fuel ->
    exists r,
      CopyTensors static_cast pool_order env fuel S D src_buffer src_shape
        dest_buffer dest_buffer_size dest_shape = Ok r /\
      length r = total /\
      forall q, (q < total)%nat ->
        exists e, in_full dims e /\ cell_pos dstr e = q /\
                  r !! q = Some (cell_val static_cast S D src_buffer ss e)).
  { intros dest_buffer env pool_order fuel Hdlen Hpool Hfuel.
    destruct (CopyTensors_strided static_cast S D src_buffer dest_buffer
                src_shape dest_shape dest_buffer_size Hsv Hdv Hdims Hne Hpos
                Hfit Hslen Hdlen Hsize ss dstr Hss Hds env pool_order fuel
                Hpool Hfuel) as (r & Hr & Hw).
    exists r. split; [done|]. split.
    - destruct Hw as (Hl & _). fold dims in Hl. unfold total. lia.
    - intros q Hq.
      apply (written_content _ _ _ _ _ Hw); [|fold dims; lia].
      intros q' Hq'. fold dims in Hq'.
      apply (cell_pos_onto dims (minor_to_major dest_shape)); try done. lia. }
  destruct (Hrun (replicate total 0) (mkEnv false false (mkDevice CPU 0) 0)
              (fun parts => parts) total)
    as (result & _ & Hlen & Hcells);
    [by rewrite length_replicate|done|unfold total; lia|].
  exists result. intros dest_buffer env pool_order fuel Hdlen Hpool Hfuel.
  destruct (Hrun dest_buffer env pool_order fuel Hdlen Hpool Hfuel)
    as (r & Hr & Hrlen & Hrcells).
  rewrite Hr. f_equal. apply list_eq. intros q.
  destruct (decide (q < total)%nat) as [Hq|Hq].
  - destruct (Hrcells q Hq) as (e & He & Hpe & ->).
    destruct (Hcells q Hq) as (e' & He' & Hpe' & ->).
    do 2 f_equal.
    assert (Hposeq : cell_pos dstr e = cell_pos dstr e') by congruence.
    unfold cell_pos in Hposeq.
    pose proof (dot_bounds dims _ dstr Hdperm Hdok e He).
    pose proof (dot_bounds dims _ dstr Hdperm Hdok e' He').
    apply (dot_inj dims (minor_to_major dest_shape) dstr Hdperm Hdok);
      try done. lia.
  - rewrite !lookup_ge_None_2; [done|lia|lia].
Qed.

Lemma CopyTensors_overwrites_destination_witness :
  exists result,
    forall dest_buffer env pool_order fuel,
      length dest_buffer = Z.to_nat (product [2; 3]) ->
      (forall parts, pool_order parts ≡ₚ parts) ->
      product [2; 3] <= Z.of_nat fuel ->
      CopyTensors (fun _ _ v => v) pool_order env fuel c_int32 c_int32
        [1; 2; 3; 4; 5; 6] (mkShape S32 [2; 3] [1; 0]%nat [])
        dest_buffer 24 (mkShape S32 [2; 3] [0; 1]%nat [])
      = Ok result.
Proof.
  apply (CopyTensors_overwrites_destination (fun _ _ v => v)
           c_int32 c_int32 [1; 2; 3; 4; 5; 6]
           (mkShape S32 [2; 3] [1; 0]%nat []) 24
           (mkShape S32 [2; 3] [0; 1]%nat [])).
  - unfold valid_layout. simpl. apply perm_swap.
  - unfold valid_layout. simpl. reflexivity.
  - reflexivity.
  - simpl. intros E. discriminate E.
  - simpl. repeat constructor.
  - simpl. lia.
  - reflexivity.
  - reflexivity.
Defined.

Lemma ComputeShapeStrides_same (a b : Shape) :
  dimensions a = dimensions b -> minor_to_major a = minor_to_major b ->
  ComputeShapeStrides a = ComputeShapeStrides b.
Proof.
  destruct a, b. simpl. intros -> ->. reflexivity.
Qed.

Lemma valid_layout_same (a b : Shape) :
  dimensions a = dimensions b -> minor_to_major a = minor_to_major b ->
  valid_layout a -> valid_layout b.
Proof.
  unfold valid_layout, rank. by intros -> ->.
Qed.

(** Copying from layout [a] to a different layout [b] and back to the
    layout of [a]. *)
Lemma CopyTensors_there_and_back
    (static_cast : CType -> CType -> Z -> Z) (T : CType)
    (buf dest1 dest2 : list Z) (a b a' : Shape) (size : Z) :
  NeedCast T = false ->
  (forall v, static_cast T T v = v) ->
  valid_layout a -> valid_layout b ->
  dimensions a = dimensions b ->
  minor_to_major a <> minor_to_major b ->
  dimensions a' = dimensions a -> minor_to_major a' = minor_to_major a ->
  Forall (fun n => 0 < n) (dimensions a) ->
  product (dimensions a) < 2 ^ 63 ->
  length buf = Z.to_nat (product (dimensions a)) ->
  length dest1 = Z.to_nat (product (dimensions a)) ->
  length dest2 = Z.to_nat (product (dimensions a)) ->
  size = (product (dimensions a) * sizeof T) mod 2 ^ 64 ->
  forall env1 env2 pool1 pool2 fuel,
    (forall parts, pool1 parts ≡ₚ parts) ->
    (forall parts, pool2 parts ≡ₚ parts) ->
    product (dimensions a) <= Z.of_nat fuel ->
    exists there,
      CopyTensors static_cast pool1 env1 fuel T T buf a dest1 size b
        = Ok there /\
      length there = Z.to_nat (product (dimensions a)) /\
      CopyTensors static_cast pool2 env2 fuel T T there b dest2 size a'
        = Ok buf.
Proof.
  intros HT Hid Hav Hbv Hdims Hne Hdims' Hm2m' Hpos Hfit Hlen Hl1 Hl2 Hsize
         env1 env2 pool1 pool2 fuel Hp1 Hp2 Hfuel.
  assert (Hposb : Forall (fun n => 0 < n) (dimensions b))
    by (by rewrite <- Hdims).
  assert (Hfitb : product (dimensions b) < 2 ^ 63) by (by rewrite <- Hdims).
  assert (Hav' : valid_layout a')
    by (by apply (valid_layout_same a a')).
  assert (Hpos' : Forall (fun n => 0 < n) (dimensions a'))
    by (by rewrite Hdims').
  assert (Hfit' : product (dimensions a') < 2 ^ 63) by (by rewrite Hdims').
  destruct (ComputeShapeStrides_exact a Hav Hpos Hfit) as (sa & Hsa & Hoka).
  destruct (ComputeShapeStrides_exact b Hbv Hposb Hfitb) as (sb & Hsb & Hokb).
  assert (Hsa' : ComputeShapeStrides a' = Ok sa)
    by (by rewrite (ComputeShapeStrides_same a' a)).
  assert (Hcast : forall v, Caster_cast static_cast T T v = v).
  { intros v. unfold Caster_cast. by rewrite HT, Hid. }
  destruct (CopyTensors_strided static_cast T T buf dest1 a b size
              Hav Hbv Hdims Hne Hposb Hfitb) with
    (src_strides := sa) (dest_strides := sb) (env := env1)
    (pool_order := pool1) (fuel := fuel) as (there & Hthere & Hw1);
    try done; try (rewrite <- Hdims; done).
  destruct Hw1 as (Hlt & Hin1 & _).
  assert (Hne' : minor_to_major b <> minor_to_major a') by congruence.
  assert (Hdimsb : dimensions b = dimensions a') by congruence.
  destruct (CopyTensors_strided static_cast T T there dest2 b a' size
              Hbv Hav' Hdimsb Hne' Hpos' Hfit') with
    (src_strides := sb) (dest_strides := sa) (env := env2)
    (pool_order := pool2) (fuel := fuel) as (back & Hback & Hw2);
    try done; try (rewrite Hdims'; done); try (rewrite Hdims'; lia).
  exists there. split; [done|]. split; [lia|]. rewrite Hback. f_equal.
  rewrite Hdims' in Hw2.
  destruct Hw2 as (Hlb & Hin2 & _).
  assert (Haperm : minor_to_major a ≡ₚ seq 0 (length (dimensions a)))
    by exact Hav.
  apply list_eq. intros q.
  destruct (decide (q < Z.to_nat (product (dimensions a)))%nat) as [Hq|Hq].
  - destruct (cell_pos_onto (dimensions a) (minor_to_major a) sa q
                Hpos Haperm Hoka Hq) as (e & He & Hpe).
    rewrite <- Hpe, (Hin2 e He). unfold cell_val at 1. rewrite Hcast.
    assert (He' : in_full (dimensions b) e) by (by rewrite <- Hdims).
    pose proof (Hin1 e He') as Hcell.
    fold (cell_pos sb e).
    rewrite (list_lookup_total_correct _ _ _ Hcell).
    unfold cell_val. rewrite Hcast. fold (cell_pos sa e).
    symmetry. apply list_lookup_lookup_total_lt. lia.
  - rewrite !lookup_ge_None_2; [done|lia|lia].
Qed.

(** X9: changing the layout and changing it back is the identity: for an
    element type that is copied by a plain conversion which leaves a value
    of its own type unchanged, copying a buffer from layout [a] to a
    different layout [b] and the result back from [b] to [a] returns the
    buffer it started from, whatever the two destinations held and however
    the two copies were split and scheduled. *)
Theorem CopyTensors_layout_round_trip
    (static_cast : CType -> CType -> Z -> Z) (T : CType)
    (buf dest1 dest2 : list Z) (a b : Shape) (size : Z) :
  NeedCast T = false ->
  (forall v, static_cast T T v = v) ->
  valid_layout a -> valid_layout b ->
  dimensions a = dimensions b ->
  minor_to_major a <> minor_to_major b ->
  Forall (fun n => 0 < n) (dimensions a) ->
  product (dimensions a) < 2 ^ 63 ->
  length buf = Z.to_nat (product (dimensions a)) ->
  length dest1 = Z.to_nat (product (dimensions a)) ->
  length dest2 = Z.to_nat (product (dimensions a)) ->
  size = (product (dimensions a) * sizeof T) mod 2 ^ 64 ->
  forall env1 env2 pool1 pool2 fuel,
    (forall parts, pool1 parts ≡ₚ parts) ->
    (forall parts, pool2 parts ≡ₚ parts) ->
    product (dimensions a) <= Z.of_nat fuel ->
    exists there,
      CopyTensors static_cast pool1 env1 fuel T T buf a dest1 size b
        = Ok there /\
      CopyTensors static_cast pool2 env2 fuel T T there b dest2 size a
        = Ok buf.
Proof.
  intros HT Hid Hav Hbv Hdims Hne Hpos Hfit Hlen Hl1 Hl2 Hsize
         env1 env2 pool1 pool2 fuel Hp1 Hp2 Hfuel.
  destruct (CopyTensors_there_and_back static_cast T buf dest1 dest2 a b a
              size HT Hid Hav Hbv Hdims Hne eq_refl eq_refl Hpos Hfit Hlen
              Hl1 Hl2 Hsize env1 env2 pool1 pool2 fuel Hp1 Hp2 Hfuel)
    as (there & H1 & _ & H2).
  by exists there.
Qed.

Lemma CopyTensors_layout_round_trip_witness :
  exists there,
    CopyTensors (fun _ _ v => v) (fun parts => parts)
      (mkEnv false false (mkDevice CPU 0) 4) 6 c_float c_float
      [10; 11; 12; 13; 14; 15] (mkShape F32 [2; 3] [1; 0]%nat [])
      [0; 0; 0; 0; 0; 0] 24 (mkShape F32 [2; 3] [0; 1]%nat [])
      = Ok there /\
    CopyTensors (fun _ _ v => v) (@rev CopyPartition)
      (mkEnv false false (mkDevice CPU 0) 1) 6 c_float c_float
      there (mkShape F32 [2; 3] [0; 1]%nat [])
      [7; 7; 7; 7; 7; 7] 24 (mkShape F32 [2; 3] [1; 0]%nat [])
      = Ok [10; 11; 12; 13; 14; 15].
Proof.
  apply (CopyTensors_layout_round_trip (fun _ _ v => v) c_float
           [10; 11; 12; 13; 14; 15] [0; 0; 0; 0; 0; 0] [7; 7; 7; 7; 7; 7]
           (mkShape F32 [2; 3] [1; 0]%nat [])
           (mkShape F32 [2; 3] [0; 1]%nat []) 24).
  - reflexivity.
  - reflexivity.
  - unfold valid_layout. simpl. apply perm_swap.
  - unfold valid_layout. simpl. reflexivity.
  - reflexivity.
  - simpl. intros E. discriminate E.
  - simpl. repeat constructor.
  - simpl. lia.
  - reflexivity.
  - reflexivity.
  - reflexivity.
  - reflexivity.
  - intros parts. reflexivity.
  - intros parts. rewrite rev_is_reverse. apply reverse_Permutation.
  - simpl. lia.
Defined.

(** ** The iteration order and the number of partitions *)

(** X10: for a shape of rank at least 1 with a valid layout,
    [GetIterationDimensions] returns a list that names every dimension of
    the shape exactly once: it is a rearrangement of [minor_to_major], so
    that [SlicedCopy] steps through each dimension. *)
Theorem GetIterationDimensions_permutation (s : Shape) :
  valid_layout s -> (0 < rank s)%nat ->
  exists iter_dims,
    GetIterationDimensions s = Ok iter_dims /\
    iter_dims ≡ₚ minor_to_major s /\
    length iter_dims = rank s /\
    NoDup iter_dims /\
    forall d, (d < rank s)%nat <-> d ∈ iter_dims.
Proof.
  intros Hv Hrank.
  destruct (GetIterationDimensions_perm s Hv Hrank) as (it & Hrun & Hperm).
  exists it. split; [done|]. split; [done|].
  assert (Hseq : it ≡ₚ seq 0 (rank s)) by (by rewrite Hperm).
  split; [by rewrite Hseq, length_seq|].
  split; [rewrite Hseq; apply NoDup_seq|].
  intros d. rewrite Hseq, elem_of_seq. lia.
Qed.

Lemma GetIterationDimensions_permutation_witness :
  exists iter_dims,
    GetIterationDimensions (mkShape F32 [2; 3; 100] [1; 0; 2]%nat [])
      = Ok iter_dims /\
    iter_dims ≡ₚ [1; 0; 2]%nat /\
    length iter_dims = 3%nat /\
    NoDup iter_dims /\
    forall d, (d < 3)%nat <-> d ∈ iter_dims.
Proof.
  apply (GetIterationDimensions_permutation
           (mkShape F32 [2; 3; 100] [1; 0; 2]%nat [])).
  - unfold valid_layout. simpl. apply perm_swap.
  - unfold rank. simpl. lia.
Defined.

Lemma tile_count_bound size ps mp :
  1 <= mp -> 0 < size -> Z.max (size / mp) 1 <= ps ->
  (1 <= tile_count size ps)%nat /\
  Z.of_nat (tile_count size ps) <= 2 * mp - 1.
Proof.
  intros Hmp Hsize Hps.
  assert (Hps1 : 0 < ps) by lia.
  split.
  - apply (tile_count_spec size ps 0 Hps1). lia.
  - destruct (decide (Z.of_nat (tile_count size ps) <= 2 * mp - 1))
      as [|Hn]; [done|exfalso].
    assert (Hj : (Z.to_nat (2 * mp - 1) < tile_count size ps)%nat) by lia.
    apply (tile_count_spec size ps _ Hps1) in Hj.
    rewrite Z2Nat.id in Hj by lia.
    pose proof (Z.mul_div_le size mp ltac:(lia)) as Hlo.
    pose proof (Z.mul_succ_div_gt size mp ltac:(lia)) as Hhi.
    set (f := size / mp) in *.
    assert (Hf : f <= ps) by lia.
    assert (H2 : 2 * mp <= size) by nia.
    assert (Hf2 : 2 <= f) by nia.
    assert (Hmul : (2 * mp - 1) * f <= (2 * mp - 1) * ps) by nia.
    assert (Hmp1 : mp < 2) by nia.
    assert (mp = 1) as Hone by lia.
    rewrite Hone in *. nia.
Qed.

Lemma tile_count_one size ps :
  0 < size -> size <= ps -> tile_count size ps = 1%nat.
Proof.
  intros Hsize Hps.
  assert (Hps1 : 0 < ps) by lia.
  assert (H0 : (0 < tile_count size ps)%nat)
    by (apply (tile_count_spec size ps 0 Hps1); lia).
  assert (H1 : ~ (1 < tile_count size ps)%nat).
  { intros H. apply (tile_count_spec size ps 1 Hps1) in H. lia. }
  lia.
Qed.

(** X11: the number of partitions.  For a dimension list of positive sizes
    whose product is representable and an inner dimension that leaves some
    other one, [CreateCopyPartitions] returns at least one partition and at
    most [2 * max_parts - 1] of them, so the count may exceed [max_parts]
    but never reaches twice it; and a tensor of at most
    [kMinThreadElements] elements is never split: it gets exactly one
    partition, whatever the number of hardware threads. *)
Theorem CreateCopyPartitions_count env dims sd :
  Forall (fun d => 0 < d) dims -> product dims < 2 ^ 63 ->
  (exists i, (i < length dims)%nat /\ i <> sd) ->
  exists parts,
    (forall fuel, product dims <= Z.of_nat fuel ->
       CreateCopyPartitions env fuel dims sd = Ok parts) /\
    (1 <= length parts)%nat /\
    Z.of_nat (length parts) <= 2 * max_parts env - 1 /\
    (product dims <= kMinThreadElements -> length parts = 1%nat).
Proof.
  intros Hall Hfit Hother.
  destruct (CreateCopyPartitions_Ok env dims sd Hall Hfit Hother)
    as (m & size & Hlarge & Hsize & Hrun).
  destruct (product_lookup_le dims m size Hall Hsize) as (Hpos & Hmul & Hunit).
  pose proof (part_size_bounds env dims m size Hall Hfit Hsize) as Hps.
  pose proof (max_parts_pos env) as Hmp.
  assert (Hle : size <= product dims) by nia.
  exists (tiling dims m size (part_size env dims size)).
  rewrite tiling_length.
  destruct (tile_count_bound size (part_size env dims size) (max_parts env))
    as (Hone & Htwo); [done|done|unfold part_size; lia|].
  split; [|split; [done|split; [done|]]].
  - intros fuel Hfuel. apply Hrun.
    pose proof (tile_count_le size (part_size env dims size)
                  ltac:(lia) ltac:(lia)). lia.
  - intros Hsmall. apply tile_count_one; [done|].
    unfold part_size. unfold kMinThreadElements in *.
    set (unit := product dims / size) in *.
    assert (size <= 100000 / unit).
    { apply Z.div_le_lower_bound; [done|]. nia. }
    lia.
Qed.

Lemma CreateCopyPartitions_count_witness :
  exists parts,
    (forall fuel, product [300; 400; 2] <= Z.of_nat fuel ->
       CreateCopyPartitions (mkEnv false false (mkDevice CPU 0) 8) fuel
         [300; 400; 2] 2 = Ok parts) /\
    (1 <= length parts)%nat /\
    Z.of_nat (length parts)
      <= 2 * max_parts (mkEnv false false (mkDevice CPU 0) 8) - 1 /\
    (product [300; 400; 2] <= kMinThreadElements -> length parts = 1%nat).
Proof.
  apply (CreateCopyPartitions_count (mkEnv false false (mkDevice CPU 0) 8)
           [300; 400; 2] 2).
  - repeat constructor.
  - simpl. lia.
  - exists 0%nat. simpl. lia.
Defined.

(** ** The copy kernel on its own *)

Section StridedCopyKernel.

Variable static_cast : CType -> CType -> Z -> Z.
Variables S D : CType.
Variable src_buf : list Z.
Variables source dest source_stride dest_stride : Z.
Variable n : nat.
Variable len : nat.

Hypothesis source_stride_pos : 0 < source_stride.
Hypothesis dest_stride_pos : 0 < dest_stride.
Hypothesis source_nonneg : 0 <= source.
Hypothesis dest_nonneg : 0 <= dest.
Hypothesis source_fits :
  source + (Z.of_nat n - 1) * source_stride < Z.of_nat (length src_buf).
Hypothesis dest_fits :
  dest + (Z.of_nat n - 1) * dest_stride < Z.of_nat len.

Local Abbreviation to i := (Z.to_nat (dest + Z.of_nat i * dest_stride)).
Local Abbreviation from i := (Z.to_nat (source + Z.of_nat i * source_stride)).

Lemma StridedCopy_loop_cells k :
  forall j fuel d,
    (j + k = n)%nat -> (k <= fuel)%nat -> length d = len ->
    exists d',
      StridedCopy_loop static_cast fuel S D d
        (dest + Z.of_nat j * dest_stride) dest_stride src_buf
        (source + Z.of_nat j * source_stride) source_stride
        (source + Z.of_nat n * source_stride) = Ok d' /\
      length d' = len /\
      (forall i, (j <= i < n)%nat ->
         d' !! to i = Some (Caster_cast static_cast S D (src_buf !!! from i))) /\
      (forall q, (forall i, (j <= i < n)%nat -> q <> to i) ->
         d' !! q = d !! q).
Proof.
  induction k as [|k IH]; intros j fuel d Hjk Hfuel Hd.
  - assert (j = n) as -> by lia. exists d.
    split; [|split; [done|split; [intros i Hi; lia|done]]].
    destruct fuel; simpl;
      by rewrite Z.ltb_irrefl.
  - destruct fuel as [|fuel]; [lia|]. simpl.
    assert (Hlt : source + Z.of_nat j * source_stride
                  < source + Z.of_nat n * source_stride) by nia.
    destruct (Z.ltb_spec (source + Z.of_nat j * source_stride)
                (source + Z.of_nat n * source_stride)); [|lia].
    assert (Hsj : 0 <= source + Z.of_nat j * source_stride) by nia.
    assert (Hdj : 0 <= dest + Z.of_nat j * dest_stride) by nia.
    assert (Hsin : (from j < length src_buf)%nat) by nia.
    assert (Hdin : (to j < length d)%nat) by nia.
    unfold buf_read, buf_write.
    destruct (Z.ltb_spec (source + Z.of_nat j * source_stride) 0); [lia|].
    destruct (Z.ltb_spec (dest + Z.of_nat j * dest_stride) 0); [lia|].
    rewrite (vec_get_Ok src_buf (from j) (src_buf !!! from j))
      by (by apply list_lookup_lookup_total_lt).
    cbn [bind]. rewrite vec_set_Ok by done. cbn [bind].
    set (v := Caster_cast static_cast S D (src_buf !!! from j)).
    destruct (IH (Datatypes.S j) fuel (<[to j:=v]> d)) as (d' & Hrun & Hl & Hin & Hout);
      [lia|lia|by rewrite length_insert|].
    replace (dest + Z.of_nat j * dest_stride + dest_stride)
      with (dest + Z.of_nat (Datatypes.S j) * dest_stride) by lia.
    replace (source + Z.of_nat j * source_stride + source_stride)
      with (source + Z.of_nat (Datatypes.S j) * source_stride) by lia.
    exists d'. split; [done|]. split; [done|]. split.
    + intros i Hi. destruct (decide (i = j)) as [->|Hne].
      * rewrite Hout; [by apply list_lookup_insert_eq|].
        intros i Hi'. nia.
      * apply Hin. lia.
    + intros q Hq. rewrite Hout.
      * apply list_lookup_insert_ne. specialize (Hq j). lia.
      * intros i Hi. apply Hq. lia.
Qed.

Lemma StridedCopy_cells_aux fuel d :
  int64_range (Z.of_nat n * source_stride) ->
  (n <= fuel)%nat -> length d = len ->
  exists d',
    StridedCopy static_cast fuel S D d dest dest_stride src_buf source
      source_stride (Z.of_nat n) = Ok d' /\
    length d' = len /\
    (forall i, (i < n)%nat ->
       d' !! to i = Some (Caster_cast static_cast S D (src_buf !!! from i))) /\
    (forall q, (forall i, (i < n)%nat -> q <> to i) -> d' !! q = d !! q).
Proof.
  intros Hrange Hfuel Hd. unfold StridedCopy. rewrite wrap64_id by done.
  destruct (StridedCopy_loop_cells n 0 fuel d) as (d' & Hrun & Hl & Hin & Hout);
    [lia|done|done|].
  replace (dest + Z.of_nat 0 * dest_stride) with dest in Hrun by lia.
  replace (source + Z.of_nat 0 * source_stride) with source in Hrun by lia.
  exists d'. split; [done|]. split; [done|]. split.
  - intros i Hi. apply Hin. lia.
  - intros q Hq. apply Hout. intros i Hi. apply Hq. lia.
Qed.

End StridedCopyKernel.

(** X12: [StridedCopy] on its own.  For positive strides, [n] elements
    inside both buffers and a loop budget of [n], it returns a buffer of
    the same length in which the [i]-th destination cell, [dest_stride]
    apart from the previous one, holds the cast of the [i]-th source
    element, [source_stride] apart from the previous one, for every
    [i < n]; every other cell of the destination is left as it was. *)
Theorem StridedCopy_cells (static_cast : CType -> CType -> Z -> Z)
    (S D : CType) (dest_buf src_buf : list Z)
    (dest dest_stride source source_stride : Z) (n fuel : nat) :
  0 < source_stride -> 0 < dest_stride -> 0 <= source -> 0 <= dest ->
  source + (Z.of_nat n - 1) * source_stride < Z.of_nat (length src_buf) ->
  dest + (Z.of_nat n - 1) * dest_stride < Z.of_nat (length dest_buf) ->
  int64_range (Z.of_nat n * source_stride) ->
  (n <= fuel)%nat ->
  exists result,
    StridedCopy static_cast fuel S D dest_buf dest dest_stride src_buf source
      source_stride (Z.of_nat n) = Ok result /\
    length result = length dest_buf /\
    (forall i, (i < n)%nat ->
       result !! Z.to_nat (dest + Z.of_nat i * dest_stride)
       = Some (Caster_cast static_cast S D
                 (src_buf !!! Z.to_nat (source + Z.of_nat i * source_stride)))) /\
    (forall q,
       (forall i, (i < n)%nat ->
          q <> Z.to_nat (dest + Z.of_nat i * dest_stride)) ->
       result !! q = dest_buf !! q).
Proof.
  intros Hss Hds Hs Hd Hsfit Hdfit Hrange Hfuel.
  by apply (StridedCopy_cells_aux static_cast S D src_buf source dest
              source_stride dest_stride n (length dest_buf)).
Qed.

Lemma StridedCopy_cells_witness :
  exists result,
    StridedCopy (fun _ _ v => v + 100) 3 c_int32 c_int64
      [0; 0; 0; 0; 0; 0; 0] 1 2 [10; 11; 12; 13; 14; 15; 16] 0 3 (Z.of_nat 3)
      = Ok result /\
    length result = 7%nat /\
    (forall i, (i < 3)%nat ->
       result !! Z.to_nat (1 + Z.of_nat i * 2)
       = Some (Caster_cast (fun _ _ v => v + 100) c_int32 c_int64
                 ([10; 11; 12; 13; 14; 15; 16]
                    !!! Z.to_nat (0 + Z.of_nat i * 3)))) /\
    (forall q,
       (forall i, (i < 3)%nat -> q <> Z.to_nat (1 + Z.of_nat i * 2)) ->
       result !! q = [0; 0; 0; 0; 0; 0; 0] !! q).
Proof.
  apply (StridedCopy_cells (fun _ _ v => v + 100) c_int32 c_int64
           [0; 0; 0; 0; 0; 0; 0] [10; 11; 12; 13; 14; 15; 16] 1 2 0 3
           3 3).
  - lia.
  - lia.
  - lia.
  - lia.
  - simpl. lia.
  - simpl. lia.
  - unfold int64_range. simpl. lia.
  - lia.
Defined.



(** ** The linear path *)

Lemma StridedCopy_unit_stride static_cast S D fuel dest_buf src_buf :
  length dest_buf = length src_buf ->
  (length src_buf <= fuel)%nat ->
  Z.of_nat (length src_buf) < 2 ^ 63 ->
  StridedCopy static_cast fuel S D dest_buf 0 1 src_buf 0 1
    (Z.of_nat (length src_buf))
  = Ok (Caster_cast static_cast S D <$> src_buf).
Proof.
  intros Hlen Hfuel Hfit.
  destruct (StridedCopy_cells_aux static_cast S D src_buf 0 0 1 1
              (length src_buf) (length src_buf)
              ltac:(lia) ltac:(lia) ltac:(lia) ltac:(lia) ltac:(lia)
              ltac:(lia) fuel dest_buf)
    as (d' & Hrun & Hl & Hin & _);
    [unfold int64_range; lia|done|done|].
  rewrite Hrun. f_equal. apply list_eq. intros i.
  rewrite list_lookup_fmap.
  destruct (decide (i < length src_buf)%nat) as [Hi|Hi].
  - specialize (Hin i Hi).
    replace (Z.to_nat (0 + Z.of_nat i * 1)) with i in Hin by lia.
    rewrite Hin.
    by rewrite (list_lookup_lookup_total_lt src_buf i Hi).
  - rewrite !lookup_ge_None_2; [done|lia|lia].
Qed.

Lemma copy_elements_map f src_buf dest_buf :
  length dest_buf = length src_buf ->
  copy_elements f (length src_buf) 0 dest_buf src_buf = Ok (f <$> src_buf).
Proof.
  intros Hlen.
  destruct (copy_elements_lookup f (length src_buf) 0 dest_buf src_buf)
    as (r & Hrun & Hrlen & Hr); [lia|lia|].
  rewrite Hrun. f_equal. apply list_eq. intros i.
  rewrite Hr, list_lookup_fmap.
  destruct (decide (0 <= i < 0 + length src_buf)%nat) as [Hi|Hi]; [done|].
  rewrite !lookup_ge_None_2; [done|lia|lia].
Qed.

Lemma CopyData_map static_cast fuel S D dest_buf src_buf :
  length dest_buf = length src_buf ->
  (length src_buf <= fuel)%nat ->
  Z.of_nat (length src_buf) < 2 ^ 63 ->
  CopyData static_cast fuel D S dest_buf src_buf (Z.of_nat (length src_buf))
  = Ok (CopyData_conversion static_cast S D <$> src_buf).
Proof.
  intros Hlen Hfuel Hfit.
  assert (Hneg : (Z.of_nat (length src_buf) <? 0) = false) by lia.
  assert (Hid : (fun v : Z => v) <$> src_buf = src_buf) by apply list_fmap_id.
  unfold CopyData, CheckedMemcpy, CopyData_conversion.
  destruct S, D; cbn [NeedCast orb]; rewrite ?Hneg, ?Nat2Z.id;
    first [ by apply StridedCopy_unit_stride
          | by (rewrite copy_elements_map by done;
                unfold Caster_cast; cbn [NeedCast])
          | by (rewrite copy_elements_map by done; rewrite Hid) ].
Qed.

(** The linear path of [CopyTensors] for every pair of element types. *)
Lemma CopyTensors_same_layout
    (static_cast : CType -> CType -> Z -> Z)
    (pool_order : list CopyPartition -> list CopyPartition)
    (env : Env) (fuel : nat) (S D : CType)
    (src_buffer : list Z) (src_shape : Shape)
    (dest_buffer : list Z) (dest_buffer_size : Z) (dest_shape : Shape) :
  dimensions src_shape = dimensions dest_shape ->
  minor_to_major src_shape = minor_to_major dest_shape ->
  ElementsIn src_shape = Z.of_nat (length src_buffer) ->
  length dest_buffer = length src_buffer ->
  dest_buffer_size = (ElementsIn src_shape * sizeof D) mod 2 ^ 64 ->
  (length src_buffer <= fuel)%nat ->
  CopyTensors static_cast pool_order env fuel S D src_buffer src_shape
    dest_buffer dest_buffer_size dest_shape
  = Ok (CopyData_conversion static_cast S D <$> src_buffer).
Proof.
  intros Hdims Hlayout Hcount Hlen Hsize Hfuel. unfold CopyTensors.
  unfold SameDimensions. rewrite bool_decide_eq_true_2 by done. cbn [check bind].
  rewrite Hsize, Z.eqb_refl. cbn [check bind].
  rewrite bool_decide_eq_true_2 by done.
  rewrite Hcount. apply CopyData_map; [done|done|].
  assert (Hr : int64_range (ElementsIn src_shape)).
  { unfold ElementsIn, Multiply.
    generalize (dimensions src_shape) as l. intros l.
    induction l as [|x l IH] using rev_ind; [unfold int64_range; simpl; lia|].
    rewrite fold_left_app. simpl. unfold wrap64, int64_range.
    match goal with |- context [?a mod ?b] =>
      pose proof (Z.mod_pos_bound a b ltac:(lia)) end.
    lia. }
  unfold int64_range in Hr. lia.
Qed.

(** X14: the linear path.  When the two shapes have equal dimensions and
    equal layouts, [CopyTensors] returns the source buffer with every
    element converted and the positions unchanged, for every pair of
    element types: the conversion is the cast of [Caster] (through [float]
    when the source is a BF16 type), and none at all between the two BF16
    representations.  Neither the old content of the destination nor the
    number of hardware threads has any influence. *)
Theorem CopyTensors_linear
    (static_cast : CType -> CType -> Z -> Z)
    (pool_order : list CopyPartition -> list CopyPartition)
    (env : Env) (fuel : nat) (S D : CType)
    (src_buffer : list Z) (src_shape : Shape)
    (dest_buffer : list Z) (dest_buffer_size : Z) (dest_shape : Shape) :
  dimensions src_shape = dimensions dest_shape ->
  minor_to_major src_shape = minor_to_major dest_shape ->
  ElementsIn src_shape = Z.of_nat (length src_buffer) ->
  length dest_buffer = length src_buffer ->
  dest_buffer_size = (ElementsIn src_shape * sizeof D) mod 2 ^ 64 ->
  (length src_buffer <= fuel)%nat ->
  CopyTensors static_cast pool_order env fuel S D src_buffer src_shape
    dest_buffer dest_buffer_size dest_shape
  = Ok (CopyData_conversion static_cast S D <$> src_buffer).
Proof.
  intros Hdims Hlayout Hcount Hlen Hsize Hfuel.
  by apply CopyTensors_same_layout.
Qed.

Lemma CopyTensors_linear_witness :
  CopyTensors (fun _ _ v => 2 * v) (fun parts => parts)
    (mkEnv false false (mkDevice CPU 0) 4) 6 c_int32 c_float
    [1; 2; 3; 4; 5; 6] (mkShape S32 [2; 3] [1; 0]%nat [])
    [0; 0; 0; 0; 0; 0] 24 (mkShape F32 [2; 3] [1; 0]%nat [])
  = Ok (CopyData_conversion (fun _ _ v => 2 * v) c_int32 c_float
          <$> [1; 2; 3; 4; 5; 6]).
Proof.
  apply (CopyTensors_linear (fun _ _ v => 2 * v) (fun parts => parts)
           (mkEnv false false (mkDevice CPU 0) 4) 6 c_int32 c_float
           [1; 2; 3; 4; 5; 6] (mkShape S32 [2; 3] [1; 0]%nat [])
           [0; 0; 0; 0; 0; 0] 24 (mkShape F32 [2; 3] [1; 0]%nat [])).
  - reflexivity.
  - reflexivity.
  - reflexivity.
  - reflexivity.
  - reflexivity.
  - simpl. lia.
Defined.

(** ** Empty tensors *)

Lemma wrap64_0 : wrap64 0 = 0.
Proof. reflexivity. Qed.

Lemma Multiply_loop_zero dims :
  fold_left (fun acc d => wrap64 (acc * d)) dims 0 = 0.
Proof.
  induction dims as [|d dims IH]; cbn [fold_left]; [done|].
  by rewrite Z.mul_0_l, wrap64_0.
Qed.

Lemma Multiply_zero dims : 0 ∈ dims -> Multiply dims = 0.
Proof.
  unfold Multiply. generalize 1 as acc.
  induction dims as [|d dims IH]; intros acc Hin.
  - by apply elem_of_nil in Hin.
  - cbn [fold_left]. apply elem_of_cons in Hin as [<-|Hin].
    + rewrite Z.mul_0_r, wrap64_0. apply Multiply_loop_zero.
    + by apply IH.
Qed.

Lemma CopyData_zero static_cast fuel D S dest_buf src_buf :
  CopyData static_cast fuel D S dest_buf src_buf 0 = Ok dest_buf.
Proof.
  unfold CopyData, CheckedMemcpy.
  destruct (NeedCast S || NeedCast D).
  - assert (Hs : StridedCopy static_cast fuel S D dest_buf 0 1 src_buf 0 1 0
                 = Ok dest_buf).
    { unfold StridedCopy. replace (wrap64 (0 * 1)) with 0 by reflexivity.
      by destruct fuel. }
    destruct D, S; done.
  - done.
Qed.

(** X15: a tensor without elements.  When some dimension has size 0, the
    product of the sizes is 0 whatever the other sizes are, and
    [CopyTensors] with a destination size of 0 bytes and equal dimensions
    returns the destination as it was: on the linear path the copy of zero
    elements, on the strided path the branch guarded by
    [total_elements > 0], which is skipped before any stride or partition
    is computed.  This holds for every pair of element types and every two
    layouts. *)
Theorem CopyTensors_empty
    (static_cast : CType -> CType -> Z -> Z)
    (pool_order : list CopyPartition -> list CopyPartition)
    (env : Env) (fuel : nat) (S D : CType)
    (src_buffer : list Z) (src_shape : Shape)
    (dest_buffer : list Z) (dest_shape : Shape) :
  dimensions src_shape = dimensions dest_shape ->
  0 ∈ dimensions src_shape ->
  ElementsIn src_shape = 0 /\
  CopyTensors static_cast pool_order env fuel S D src_buffer src_shape
    dest_buffer 0 dest_shape = Ok dest_buffer.
Proof.
  intros Hdims Hzero.
  assert (Hn : ElementsIn src_shape = 0) by (by apply Multiply_zero).
  split; [done|]. unfold CopyTensors.
  unfold SameDimensions. rewrite bool_decide_eq_true_2 by done.
  cbn [check bind]. rewrite Hn. cbn [check bind Z.mul Z.modulo Z.eqb].
  replace (0 =? 0 mod 2 ^ 64) with true by reflexivity. cbn [check bind].
  destruct (bool_decide _); [apply CopyData_zero|done].
Qed.

Lemma CopyTensors_empty_witness :
  ElementsIn (mkShape F32 [3; 0; 2 ^ 40; 2 ^ 40] [3; 2; 1; 0]%nat []) = 0 /\
  CopyTensors (fun _ _ v => v) (fun parts => parts)
    (mkEnv false false (mkDevice CPU 0) 4) 0 c_float c_tf_bfloat16
    [] (mkShape F32 [3; 0; 2 ^ 40; 2 ^ 40] [3; 2; 1; 0]%nat [])
    [] 0 (mkShape BF16 [3; 0; 2 ^ 40; 2 ^ 40] [0; 1; 2; 3]%nat [])
  = Ok [].
Proof.
  apply (CopyTensors_empty (fun _ _ v => v) (fun parts => parts)
           (mkEnv false false (mkDevice CPU 0) 4) 0 c_float c_tf_bfloat16
           [] (mkShape F32 [3; 0; 2 ^ 40; 2 ^ 40] [3; 2; 1; 0]%nat [])
           [] (mkShape BF16 [3; 0; 2 ^ 40; 2 ^ 40] [0; 1; 2; 3]%nat [])).
  - reflexivity.
  - simpl. apply elem_of_cons. right. apply elem_of_cons. by left.
Defined.

(** ** What a successful copy implies *)

Lemma bind_Ok {A B} (m : Result A) (k : A -> Result B) r :
  bind m k = Ok r -> exists a, m = Ok a /\ k a = Ok r.
Proof. destruct m as [a|e]; simpl; [by exists a|done]. Qed.

Lemma vec_set_length {A} (v : list A) i x v' :
  vec_set v i x = Ok v' -> length v' = length v.
Proof.
  unfold vec_set. destruct (decide _); [|done].
  intros [= <-]. apply length_insert.
Qed.

Lemma buf_write_length buf pos x buf' :
  buf_write buf pos x = Ok buf' -> length buf' = length buf.
Proof.
  unfold buf_write. destruct (pos <? 0); [done|]. apply vec_set_length.
Qed.

Lemma StridedCopy_loop_length static_cast fuel S D src_buf ss ds top :
  forall d dest source d',
    StridedCopy_loop static_cast fuel S D d dest ds src_buf source ss top
      = Ok d' ->
    length d' = length d.
Proof.
  induction fuel as [|fuel IH]; intros d dest source d'; simpl.
  - destruct (source <? top); [done|]. by intros [= <-].
  - destruct (source <? top); [|by intros [= <-]].
    intros H. apply bind_Ok in H as (v & _ & H).
    apply bind_Ok in H as (d1 & Hw & H).
    apply IH in H. apply buf_write_length in Hw. lia.
Qed.

Lemma StridedCopy_length static_cast fuel S D d dest ds src_buf source ss n d' :
  StridedCopy static_cast fuel S D d dest ds src_buf source ss n = Ok d' ->
  length d' = length d.
Proof. unfold StridedCopy. apply StridedCopy_loop_length. Qed.

Lemma copy_elements_length f n :
  forall pos d src_buf d',
    copy_elements f n pos d src_buf = Ok d' -> length d' = length d.
Proof.
  induction n as [|n IH]; intros pos d src_buf d'; simpl.
  - by intros [= <-].
  - intros H. apply bind_Ok in H as (v & _ & H).
    apply bind_Ok in H as (d1 & Hw & H).
    apply IH in H. apply vec_set_length in Hw. lia.
Qed.

Lemma CopyData_length static_cast fuel D S d src_buf n d' :
  CopyData static_cast fuel D S d src_buf n = Ok d' -> length d' = length d.
Proof.
  unfold CopyData, CheckedMemcpy.
  destruct (NeedCast S || NeedCast D).
  - destruct D, S; try apply StridedCopy_length;
      (destruct (n <? 0); [done|apply copy_elements_length]).
  - destruct (n <? 0); [done|apply copy_elements_length].
Qed.

Lemma SlicedCopy_loop_length static_cast fuel budget S D dims src_buf ss ds
    iter_dims part iss ids :
  forall indices d d',
    SlicedCopy_loop static_cast fuel budget S D dims src_buf ss ds iter_dims
      part iss ids indices d = Ok d' ->
    length d' = length d.
Proof.
  induction fuel as [|fuel IH]; intros indices d d'; simpl; [done|].
  intros H.
  apply bind_Ok in H as (doff & _ & H).
  apply bind_Ok in H as (soff & _ & H).
  apply bind_Ok in H as (front & _ & H).
  apply bind_Ok in H as (n & _ & H).
  apply bind_Ok in H as (d1 & Hs & H).
  apply bind_Ok in H as (next & _ & H).
  apply StridedCopy_length in Hs.
  destruct next as [indices'|].
  - apply IH in H. lia.
  - injection H as <-. done.
Qed.

Lemma SlicedCopy_length static_cast fuel S D dims src_buf ss d ds iter_dims
    part d' :
  SlicedCopy static_cast fuel S D dims src_buf ss d ds iter_dims part = Ok d' ->
  length d' = length d.
Proof.
  unfold SlicedCopy. intros H.
  apply bind_Ok in H as (front & _ & H).
  apply bind_Ok in H as (iss & _ & H).
  apply bind_Ok in H as (ids & _ & H).
  destruct (bool_decide _).
  - by apply SlicedCopy_loop_length in H.
  - by injection H as <-.
Qed.

Lemma run_closures_length static_cast fuel S D dims src_buf ss ds iter_dims
    tasks :
  forall d d',
    run_closures static_cast fuel S D dims src_buf ss ds iter_dims tasks d
      = Ok d' ->
    length d' = length d.
Proof.
  induction tasks as [|part tasks IH]; intros d d'; simpl.
  - by intros [= <-].
  - intros H. apply bind_Ok in H as (d1 & Hs & H).
    apply IH in H. apply SlicedCopy_length in Hs. lia.
Qed.

(** What [CopyTensors] has checked and kept when it returns. *)
Lemma CopyTensors_success
    (static_cast : CType -> CType -> Z -> Z)
    (pool_order : list CopyPartition -> list CopyPartition)
    (env : Env) (fuel : nat) (S D : CType)
    (src_buffer : list Z) (src_shape : Shape)
    (dest_buffer : list Z) (dest_buffer_size : Z) (dest_shape : Shape)
    (result : list Z) :
  CopyTensors static_cast pool_order env fuel S D src_buffer src_shape
    dest_buffer dest_buffer_size dest_shape = Ok result ->
  dimensions src_shape = dimensions dest_shape /\
  dest_buffer_size = (ElementsIn src_shape * sizeof D) mod 2 ^ 64 /\
  length result = length dest_buffer.
Proof.
  unfold CopyTensors, SameDimensions, check. intros H.
  destruct (bool_decide_reflect (dimensions src_shape = dimensions dest_shape))
    as [Hdims|]; [|done].
  cbn [bind] in H.
  destruct (Z.eqb_spec dest_buffer_size
              ((ElementsIn src_shape * sizeof D) mod 2 ^ 64)) as [Hsize|];
    [|done].
  cbn [bind] in H. split; [done|]. split; [done|].
  destruct (bool_decide _).
  - by apply CopyData_length in H.
  - destruct (0 <? ElementsIn src_shape); [|by injection H as <-].
    apply bind_Ok in H as (ss & _ & H).
    apply bind_Ok in H as (ds & _ & H).
    apply bind_Ok in H as (it & _ & H).
    apply bind_Ok in H as (front & _ & H).
    apply bind_Ok in H as (parts & _ & H).
    by apply run_closures_length in H.
Qed.

(** X16: what a successful [CopyTensors] implies, for every input: the two
    shapes had the same dimensions, the destination size in bytes was the
    element count times the size of the destination element type (as a
    [size_t]), and the buffer returned has as many elements as the
    destination had.  No run of the copy engine, on either path and with
    any partitioning, grows or shrinks the destination. *)
Theorem CopyTensors_Ok_inv
    (static_cast : CType -> CType -> Z -> Z)
    (pool_order : list CopyPartition -> list CopyPartition)
    (env : Env) (fuel : nat) (S D : CType)
    (src_buffer : list Z) (src_shape : Shape)
    (dest_buffer : list Z) (dest_buffer_size : Z) (dest_shape : Shape)
    (result : list Z) :
  CopyTensors static_cast pool_order env fuel S D src_buffer src_shape
    dest_buffer dest_buffer_size dest_shape = Ok result ->
  dimensions src_shape = dimensions dest_shape /\
  dest_buffer_size = (ElementsIn src_shape * sizeof D) mod 2 ^ 64 /\
  length result = length dest_buffer.
Proof. apply CopyTensors_success. Qed.

Lemma CopyTensors_Ok_inv_witness :
  dimensions (mkShape S32 [2; 3] [1; 0]%nat [])
    = dimensions (mkShape S32 [2; 3] [0; 1]%nat []) /\
  24 = (ElementsIn (mkShape S32 [2; 3] [1; 0]%nat []) * sizeof c_int32)
         mod 2 ^ 64 /\
  length [1; 4; 2; 5; 3; 6] = length [0; 0; 0; 0; 0; 0].
Proof.
  apply (CopyTensors_Ok_inv (fun _ _ v => v) (fun parts => parts)
           (mkEnv false false (mkDevice CPU 0) 4) 6 c_int32 c_int32
           [1; 2; 3; 4; 5; 6] (mkShape S32 [2; 3] [1; 0]%nat [])
           [0; 0; 0; 0; 0; 0] 24 (mkShape S32 [2; 3] [0; 1]%nat [])
           [1; 4; 2; 5; 3; 6]).
  vm_compute. reflexivity.
Defined.

(** ** Literals of any layout *)

Lemma row_major_valid dims type :
  valid_layout (MakeSwiftTensorLayout dims type).
Proof.
  unfold valid_layout, MakeSwiftTensorLayout, rank. simpl.
  rewrite rev_is_reverse. apply reverse_Permutation.
Qed.

(** The two copies of a literal round trip, for an element type copied
    without a cast: from the row-major host layout into a literal of shape
    [s], and from that literal back into the row-major host layout. *)
Lemma CopyTensors_literal_round_trip
    (static_cast : CType -> CType -> Z -> Z) (T : CType)
    (buf : list Z) (s : Shape) (type1 type2 : PrimitiveType)
    pool1 pool2 env fuel :
  (forall T v, static_cast T T v = v) ->
  NeedCast T = false ->
  valid_layout s ->
  Forall (fun n => 0 < n) (dimensions s) ->
  product (dimensions s) < 2 ^ 63 ->
  length buf = Z.to_nat (product (dimensions s)) ->
  (forall parts, pool1 parts ≡ₚ parts) ->
  (forall parts, pool2 parts ≡ₚ parts) ->
  product (dimensions s) <= Z.of_nat fuel ->
  exists there,
    CopyTensors static_cast pool1 env fuel T T buf
      (MakeSwiftTensorLayout (dimensions s) type1)
      (replicate (Z.to_nat (Multiply (dimensions s))) 0)
      (wrap64 (Multiply (dimensions s) * sizeof T) mod 2 ^ 64) s
      = Ok there /\
    CopyTensors static_cast pool2 env fuel T T there s
      (replicate (Z.to_nat (Multiply (dimensions s))) 0)
      ((Multiply (dimensions s) * sizeof T) mod 2 ^ 64)
      (MakeSwiftTensorLayout (dimensions s) type2)
      = Ok buf.
Proof.
  intros Hsame HT Hv Hpos Hfit Hlen Hp1 Hp2 Hfuel.
  rewrite wrap64_mod, (Multiply_exact _ Hpos Hfit).
  set (dims := dimensions s) in *.
  set (a := MakeSwiftTensorLayout dims type1).
  set (a' := MakeSwiftTensorLayout dims type2).
  pose proof (product_pos dims Hpos) as Hprod.
  assert (Hzeros : length (replicate (Z.to_nat (product dims)) 0)
                   = Z.to_nat (product dims)) by apply length_replicate.
  destruct (decide (minor_to_major a = minor_to_major s)) as [Heq|Hne].
  - exists buf.
    assert (Hbc : bit_copy T T) by (by left).
    assert (Hcount : Multiply dims = Z.of_nat (length buf)).
    { rewrite (Multiply_exact _ Hpos Hfit). lia. }
    assert (Hmod : forall x, (x mod 2 ^ 64) mod 2 ^ 64 = x mod 2 ^ 64).
    { intros x. apply Z.mod_mod. lia. }
    split.
    + rewrite <- (Hmod (product dims * sizeof T)).
      apply (CopyTensors_bit_copy static_cast pool1 Hsame); try done.
      * lia.
      * rewrite Hmod. unfold ElementsIn. simpl.
        by rewrite (Multiply_exact _ Hpos Hfit).
    + rewrite <- (Hmod (product dims * sizeof T)).
      apply (CopyTensors_bit_copy static_cast pool2 Hsame); try done.
      * lia.
      * rewrite Hmod. unfold ElementsIn. fold dims.
        by rewrite (Multiply_exact _ Hpos Hfit).
  - destruct (CopyTensors_there_and_back static_cast T buf
                (replicate (Z.to_nat (product dims)) 0)
                (replicate (Z.to_nat (product dims)) 0) a s a'
                ((product dims * sizeof T) mod 2 ^ 64) HT (Hsame T))
      with (env1 := env) (env2 := env) (pool1 := pool1) (pool2 := pool2)
           (fuel := fuel) as (there & H1 & _ & H2); try done.
    + apply row_major_valid.
    + by exists there.
Qed.

(** X17: the round trip through a literal of any layout.  For a tensor of
    a kind other than BF16 and [Half], positive dimension sizes and a shape
    that has the raw element type of the kind, the tensor's dimensions and
    any valid layout, [GetTensorLiteral] with that shape returns a literal
    of that shape, and [MakeTensorFromXlaLiteral] with the tensor's kind
    returns the tensor from it: same kind, same dimensions, same elements
    in the same row-major order.  This holds on every device and for every
    way the two copies are split and scheduled. *)
Theorem literal_layout_round_trip
    (static_cast : CType -> CType -> Z -> Z)
    (pool1 pool2 : list CopyPartition -> list CopyPartition)
    (env : Env) (fuel : nat) (t : Tensor) (s : Shape)
    (device : option Device) :
  (forall T v, static_cast T T v = v) ->
  scalar_type t <> BFloat16 ->
  TensorTypeToRawXlaType (scalar_type t) = Ok (element_type s) ->
  dimensions s = shape t ->
  valid_layout s ->
  Forall (fun n => 0 < n) (shape t) ->
  product (shape t) < 2 ^ 63 ->
  length (buffer t) = Z.to_nat (product (shape t)) ->
  (forall parts, pool1 parts ≡ₚ parts) ->
  (forall parts, pool2 parts ≡ₚ parts) ->
  product (shape t) <= Z.of_nat fuel ->
  exists literal,
    GetTensorLiteral static_cast pool1 env fuel t (Some s) device
      = Ok literal /\
    literal_shape literal = s /\
    MakeTensorFromXlaLiteral static_cast pool2 env fuel literal
      (scalar_type t) = Ok t.
Proof.
  intros Hsame Hbf Hraw Hdims Hv Hpos Hfit Hlen Hp1 Hp2 Hfuel.
  destruct t as [k dims buf]. simpl in *. subst dims.
  assert (Hrt := fun T type1 type2 HT =>
    CopyTensors_literal_round_trip static_cast T buf s type1 type2
      pool1 pool2 env fuel Hsame HT Hv Hpos Hfit Hlen Hp1 Hp2 Hfuel).
  unfold GetTensorLiteral, size_bytes, Literal_of, PopulateTensorBuffer,
    TensorToBufferSType, TensorToBuffer, MakeTensorFromXlaLiteral,
    XlaLiteralToTensorHelper, XlaLiteralToTensor, ElementsIn.
  cbn [scalar_type shape buffer literal_shape literal_data bind].
  destruct k; try done; simpl in Hraw; injection Hraw as Hraw;
    rewrite <- Hraw;
    cbn [ByteSizeOfPrimitiveType XlaTypeFromTensorType bind];
    match goal with
    | |- context [CopyTensors _ _ _ _ ?T ?T buf
                    (MakeSwiftTensorLayout _ ?type1)] =>
        match type of Hraw with
        | ?p = _ =>
            destruct (Hrt T type1 p eq_refl) as (there & H1 & H2)
        end
    end;
    exists (mkLiteral s there);
    (split; [cbn [sizeof] in H1; by rewrite H1|split; [reflexivity|]]);
    cbn [literal_shape literal_data]; rewrite <- Hraw;
    unfold MakeSwiftTensorLayout in H2 |- *; cbn [dimensions];
    by rewrite H2.
Qed.

Lemma literal_layout_round_trip_witness :
  exists literal,
    GetTensorLiteral (fun _ _ v => v) (fun parts => parts)
      (mkEnv false false (mkDevice TPU 0) 8) 6
      (mkTensor Float [2; 3] [1; 2; 3; 4; 5; 6])
      (Some (mkShape F32 [2; 3] [0; 1]%nat [])) None = Ok literal /\
    literal_shape literal = mkShape F32 [2; 3] [0; 1]%nat [] /\
    MakeTensorFromXlaLiteral (fun _ _ v => v) (@rev CopyPartition)
      (mkEnv false false (mkDevice TPU 0) 8) 6 literal Float
    = Ok (mkTensor Float [2; 3] [1; 2; 3; 4; 5; 6]).
Proof.
  apply (literal_layout_round_trip (fun _ _ v => v) (fun parts => parts)
           (@rev CopyPartition) (mkEnv false false (mkDevice TPU 0) 8) 6
           (mkTensor Float [2; 3] [1; 2; 3; 4; 5; 6])
           (mkShape F32 [2; 3] [0; 1]%nat []) None).
  - reflexivity.
  - intros E. discriminate E.
  - reflexivity.
  - reflexivity.
  - unfold valid_layout. simpl. reflexivity.
  - simpl. repeat constructor.
  - simpl. lia.
  - reflexivity.
  - intros parts. reflexivity.
  - intros parts. rewrite rev_is_reverse. apply reverse_Permutation.
  - simpl. lia.
Defined.

(** ** Host types and device types *)

(** X18: the host-side type and the device-side type of a tensor kind.
    With both toggles off, [XlaTypeFromTensorType], which types the
    row-major source shape of an upload, agrees with
    [MakeXlaPrimitiveType], which types the device data, exactly when the
    device is not a TPU or the kind is none of the small integer kinds
    [Byte], [Char] and [Short]: on a TPU both narrow [Double] to F32, but
    only the device-side mapping widens the small integers. *)
Theorem XlaTypeFromTensorType_device_type env k device :
  UseBF16 env = false -> Use32BitLong env = false -> supported k ->
  (XlaTypeFromTensorType k device = MakeXlaPrimitiveType env k (Some device)
   <-> ~ (is_TPU device = true /\ (k = Byte \/ k = Char \/ k = Short))).
Proof.
  intros Hbf Hlong Hk. unfold supported in Hk.
  destruct k; try done; simpl; rewrite ?Hbf, ?Hlong;
    destruct (is_TPU device); simpl;
    (split;
     [ intros H [Ht Hor];
       first [ discriminate H | discriminate Ht
             | destruct Hor as [E|[E|E]]; discriminate E ]
     | intros H;
       first [ reflexivity
             | exfalso; apply H; split; [reflexivity|auto] ] ]).
Qed.

Lemma XlaTypeFromTensorType_device_type_witness :
  XlaTypeFromTensorType Double (mkDevice TPU 0)
  = MakeXlaPrimitiveType (mkEnv false false (mkDevice CPU 0) 8) Double
      (Some (mkDevice TPU 0))
  <-> ~ (is_TPU (mkDevice TPU 0) = true /\
         (Double = Byte \/ Double = Char \/ Double = Short)).
Proof.
  apply (XlaTypeFromTensorType_device_type
           (mkEnv false false (mkDevice CPU 0) 8) Double (mkDevice TPU 0)).
  - reflexivity.
  - reflexivity.
  - intros E. discriminate E.
Defined.

(** ** Closures of different partitions *)

(** X19: the closures of one strided copy never write the same element.
    For a destination shape of rank at least 2 with a valid layout,
    positive sizes and a representable element count, take the partitions
    [CreateCopyPartitions] returns and the strides [ComputeShapeStrides]
    returns: two index vectors that lie in partitions at different
    positions of the list have different destination offsets.  The pool
    may thus run the closures in parallel without two of them storing to
    one element. *)
Theorem CreateCopyPartitions_disjoint_writes env (s : Shape) (sd : nat) :
  valid_layout s ->
  Forall (fun n => 0 < n) (dimensions s) ->
  product (dimensions s) < 2 ^ 63 ->
  (sd < rank s)%nat -> (2 <= rank s)%nat ->
  exists parts strides,
    (forall fuel, product (dimensions s) <= Z.of_nat fuel ->
       CreateCopyPartitions env fuel (dimensions s) sd = Ok parts) /\
    ComputeShapeStrides s = Ok strides /\
    forall i j p q e1 e2,
      parts !! i = Some p -> parts !! j = Some q -> i <> j ->
      in_part p e1 -> in_part q e2 ->
      exists o1 o2,
        GetFlatTensorOffset strides e1 = Ok o1 /\
        GetFlatTensorOffset strides e2 = Ok o2 /\
        o1 <> o2.
Proof.
  intros Hv Hpos Hfit Hsd Hrank. unfold rank in *.
  set (dims := dimensions s) in *.
  assert (Hother : exists i, (i < length dims)%nat /\ i <> sd).
  { destruct (decide (sd = 0%nat)) as [->|Hne].
    - exists 1%nat. lia.
    - exists 0%nat. lia. }
  destruct (CreateCopyPartitions_Ok env dims sd Hpos Hfit Hother)
    as (m & size & Hlarge & Hsize & Hrun).
  destruct (ComputeShapeStrides_exact s Hv Hpos Hfit) as (strides & Hstr & Hok).
  fold dims in Hok.
  assert (Hperm : minor_to_major s ≡ₚ seq 0 (length dims)) by exact Hv.
  pose proof (part_size_bounds env dims m size Hpos Hfit Hsize) as Hps.
  set (ps := part_size env dims size) in *.
  destruct (product_lookup_le dims m size Hpos Hsize) as (Hspos & Hmul & Hunit).
  destruct Hlarge as (Hm & Hmsd & _).
  assert (Hmsize : dims !!! m = size)
    by (by apply list_lookup_total_correct).
  exists (tiling dims m size ps), strides.
  split; [|split; [done|]].
  - intros fuel Hfuel. apply Hrun.
    pose proof (tile_count_le size ps ltac:(lia) ltac:(lia)). nia.
  - intros i j p q e1 e2 Hi Hj Hne H1 H2.
    apply tiling_lookup in Hi as (Hi & ->).
    apply tiling_lookup in Hj as (Hj & ->).
    destruct (tile_ok dims sd m size ps Hpos Hsd Hm Hmsd Hmsize
                ltac:(lia) i Hi) as (Hoki & _).
    destruct (tile_ok dims sd m size ps Hpos Hsd Hm Hmsd Hmsize
                ltac:(lia) j Hj) as (Hokj & _).
    pose proof (in_part_full dims _ Hoki e1 H1) as Hf1.
    pose proof (in_part_full dims _ Hokj e2 H2) as Hf2.
    rewrite (GetFlatTensorOffset_exact dims (minor_to_major s) strides
               Hfit Hperm Hok e1 Hf1).
    rewrite (GetFlatTensorOffset_exact dims (minor_to_major s) strides
               Hfit Hperm Hok e2 Hf2).
    eexists _, _. split; [done|]. split; [done|].
    intros Heq.
    apply (dot_inj dims (minor_to_major s) strides Hperm Hok) in Heq;
      [|done|done].
    subst e2.
    pose proof (in_part_bounds dims _ Hoki e1 m H1 Hm) as B1.
    pose proof (in_part_bounds dims _ Hokj e1 m H2 Hm) as B2.
    simpl in B1, B2.
    rewrite !list_lookup_total_insert_eq in B1, B2
      by (rewrite ?length_replicate; lia).
    assert (i < j \/ j < i)%nat as [Hlt|Hlt] by lia; nia.
Qed.

Lemma CreateCopyPartitions_disjoint_writes_witness :
  exists parts strides,
    (forall fuel, product [300; 400; 2] <= Z.of_nat fuel ->
       CreateCopyPartitions (mkEnv false false (mkDevice CPU 0) 8) fuel
         [300; 400; 2] 2 = Ok parts) /\
    ComputeShapeStrides (mkShape F32 [300; 400; 2] [2; 1; 0]%nat [])
      = Ok strides /\
    forall i j p q e1 e2,
      parts !! i = Some p -> parts !! j = Some q -> i <> j ->
      in_part p e1 -> in_part q e2 ->
      exists o1 o2,
        GetFlatTensorOffset strides e1 = Ok o1 /\
        GetFlatTensorOffset strides e2 = Ok o2 /\
        o1 <> o2.
Proof.
  apply (CreateCopyPartitions_disjoint_writes
           (mkEnv false false (mkDevice CPU 0) 8)
           (mkShape F32 [300; 400; 2] [2; 1; 0]%nat []) 2).
  - unfold valid_layout. simpl.
    change [2; 1; 0]%nat with (reverse [0; 1; 2]%nat).
    apply reverse_Permutation.
  - simpl. repeat constructor.
  - simpl. lia.
  - unfold rank. simpl. lia.
  - unfold rank. simpl. lia.
Defined.

(** ** Transfers that convert *)

(** The linear path between two element types that need no cast: the
    implicit conversion of [std::copy], element by element. *)
Lemma CopyTensors_direct static_cast pool_order env fuel S D src_buf
    src_shape dest_buf size dest_shape :
  NeedCast S = false -> NeedCast D = false ->
  dimensions src_shape = dimensions dest_shape ->
  minor_to_major src_shape = minor_to_major dest_shape ->
  ElementsIn src_shape = Z.of_nat (length src_buf) ->
  length dest_buf = length src_buf ->
  size mod 2 ^ 64 = (ElementsIn src_shape * sizeof D) mod 2 ^ 64 ->
  CopyTensors static_cast pool_order env fuel S D src_buf src_shape dest_buf
    (size mod 2 ^ 64) dest_shape
  = Ok (static_cast S D <$> src_buf).
Proof.
  intros HS HD Hdims Hlayout Hcount Hlen Hsize. unfold CopyTensors.
  unfold SameDimensions. rewrite bool_decide_eq_true_2 by done. cbn [check bind].
  rewrite Hsize, Z.eqb_refl. cbn [check bind].
  rewrite bool_decide_eq_true_2 by done.
  rewrite Hcount. unfold CopyData. rewrite HS, HD. cbn [orb].
  replace (Z.of_nat (length src_buf) <? 0) with false by lia.
  rewrite Nat2Z.id. by apply copy_elements_map.
Qed.

(** X20: a [Double] tensor on a TPU.  With a null shape,
    [GetTensorLiteral] builds an F32 literal in the row-major layout whose
    elements are the tensor's elements narrowed by [static_cast<float>],
    and [MakeTensorFromXlaLiteral] with destination kind [Double] returns a
    [Double] tensor of the same dimensions whose elements are those floats
    widened again: the round trip is the identity only on values that
    survive the narrowing. *)
Theorem literal_round_trip_TPU_Double
    (static_cast : CType -> CType -> Z -> Z)
    (pool1 pool2 : list CopyPartition -> list CopyPartition)
    (env : Env) (fuel : nat) (t : Tensor) (device : option Device) :
  scalar_type t = Double ->
  is_TPU (GetDeviceOrCurrent env device) = true ->
  Z.of_nat (length (buffer t)) = Multiply (shape t) ->
  exists literal,
    GetTensorLiteral static_cast pool1 env fuel t None device = Ok literal /\
    literal_shape literal = MakeSwiftTensorLayout (shape t) F32 /\
    literal_data literal = (static_cast c_double c_float <$> buffer t) /\
    MakeTensorFromXlaLiteral static_cast pool2 env fuel literal Double
    = Ok (mkTensor Double (shape t)
            ((fun v => static_cast c_float c_double
                         (static_cast c_double c_float v)) <$> buffer t)).
Proof.
  intros Hk Htpu Hcount. destruct t as [k dims buf]. simpl in *. subst k.
  assert (Hzeros : length (replicate (Z.to_nat (Multiply dims)) 0) = length buf).
  { rewrite length_replicate. lia. }
  assert (Hto :
    CopyTensors static_cast pool1 env fuel c_double c_float buf
      (MakeSwiftTensorLayout dims F32)
      (replicate (Z.to_nat (Multiply dims)) 0)
      (wrap64 (Multiply dims * 4) mod 2 ^ 64)
      (MakeSwiftTensorLayout dims F32)
    = Ok (static_cast c_double c_float <$> buf)).
  { apply CopyTensors_direct; try done. apply wrap64_mod. }
  assert (Hfrom :
    CopyTensors static_cast pool2 env fuel c_float c_double
      (static_cast c_double c_float <$> buf)
      (MakeSwiftTensorLayout dims F32)
      (replicate (Z.to_nat (Multiply dims)) 0)
      ((Multiply dims * 8) mod 2 ^ 64)
      (MakeSwiftTensorLayout dims F32)
    = Ok (static_cast c_float c_double
            <$> (static_cast c_double c_float <$> buf))).
  { apply CopyTensors_direct; try done.
    - unfold ElementsIn. simpl. by rewrite length_fmap.
    - by rewrite length_fmap. }
  exists (mkLiteral (MakeSwiftTensorLayout dims F32)
            (static_cast c_double c_float <$> buf)).
  unfold GetTensorLiteral, size_bytes, Literal_of, PopulateTensorBuffer,
    TensorToBufferSType, TensorToBuffer, MakeTensorFromXlaLiteral,
    XlaLiteralToTensorHelper, XlaLiteralToTensor, ElementsIn.
  simpl. rewrite Htpu. simpl.
  split; [|split; [done|split; [done|]]].
  - by rewrite Hto.
  - rewrite Hfrom. simpl. by rewrite <- list_fmap_compose.
Qed.

Lemma literal_round_trip_TPU_Double_witness :
  exists literal,
    GetTensorLiteral (fun _ _ v => v / 2) (fun parts => parts)
      (mkEnv false false (mkDevice TPU 0) 8) 0
      (mkTensor Double [3] [2; 5; 8]) None None = Ok literal /\
    literal_shape literal = MakeSwiftTensorLayout [3] F32 /\
    literal_data literal = ((fun v => v / 2) <$> [2; 5; 8]) /\
    MakeTensorFromXlaLiteral (fun _ _ v => v / 2) (fun parts => parts)
      (mkEnv false false (mkDevice TPU 0) 8) 0 literal Double
    = Ok (mkTensor Double [3] ((fun v => v / 2 / 2) <$> [2; 5; 8])).
Proof.
  apply (literal_round_trip_TPU_Double (fun _ _ v => v / 2)
           (fun parts => parts) (fun parts => parts)
           (mkEnv false false (mkDevice TPU 0) 8) 0
           (mkTensor Double [3] [2; 5; 8]) None).
  - reflexivity.
  - reflexivity.
  - reflexivity.
Defined.

(** ** What a successful transfer implies *)

(** X21: what a successful [PopulateTensorBuffer] implies, for every
    input: the tensor's kind is one of the nine supported kinds, the
    destination shape has one of the twelve element types of the dispatch
    and the tensor's dimensions, the destination size in bytes is the
    element count times the width of the destination element type, and the
    buffer returned has as many elements as the destination had. *)
Theorem PopulateTensorBuffer_Ok_inv
    (static_cast : CType -> CType -> Z -> Z)
    (pool_order : list CopyPartition -> list CopyPartition)
    (env : Env) (fuel : nat) (tensor : Tensor) (dest_shape : Shape)
    (dest_buffer : list Z) (dest_buffer_size : Z) (device : Device)
    (result : list Z) :
  PopulateTensorBuffer static_cast pool_order env fuel tensor dest_shape
    dest_buffer dest_buffer_size device = Ok result ->
  supported (scalar_type tensor) /\
  element_type dest_shape
    ∈ [BF16; F32; F64; PRED; U8; S8; S16; U16; S32; U32; S64; U64] /\
  shape tensor = dimensions dest_shape /\
  (exists width,
     ByteSizeOfPrimitiveType (element_type dest_shape) = Ok width /\
     dest_buffer_size = (Multiply (shape tensor) * width) mod 2 ^ 64) /\
  length result = length dest_buffer.
Proof.
  unfold PopulateTensorBuffer, TensorToBufferSType, TensorToBuffer,
    supported.
  intros H.
  destruct (scalar_type tensor) eqn:Hk; try done;
    (split; [done|]);
    destruct (element_type dest_shape) eqn:Hp; try done;
    (split; [rewrite !elem_of_cons; tauto|]);
    cbn [XlaTypeFromTensorType bind] in H;
    apply CopyTensors_success in H as (Hdims & Hsize & Hlen);
    (split; [exact Hdims|]);
    (split; [|exact Hlen]);
    eexists; (split; [reflexivity|]); exact Hsize.
Qed.

Lemma PopulateTensorBuffer_Ok_inv_witness :
  supported (scalar_type (mkTensor Int [2; 3] [1; 2; 3; 4; 5; 6])) /\
  element_type (mkShape F32 [2; 3] [0; 1]%nat [])
    ∈ [BF16; F32; F64; PRED; U8; S8; S16; U16; S32; U32; S64; U64] /\
  shape (mkTensor Int [2; 3] [1; 2; 3; 4; 5; 6])
    = dimensions (mkShape F32 [2; 3] [0; 1]%nat []) /\
  (exists width,
     ByteSizeOfPrimitiveType (element_type (mkShape F32 [2; 3] [0; 1]%nat []))
       = Ok width /\
     24 = (Multiply (shape (mkTensor Int [2; 3] [1; 2; 3; 4; 5; 6])) * width)
            mod 2 ^ 64) /\
  length [1; 4; 2; 5; 3; 6] = length [0; 0; 0; 0; 0; 0].
Proof.
  apply (PopulateTensorBuffer_Ok_inv (fun _ _ v => v) (fun parts => parts)
           (mkEnv false false (mkDevice CPU 0) 4) 6
           (mkTensor Int [2; 3] [1; 2; 3; 4; 5; 6])
           (mkShape F32 [2; 3] [0; 1]%nat [])
           [0; 0; 0; 0; 0; 0] 24 (mkDevice CPU 0) [1; 4; 2; 5; 3; 6]).
  vm_compute. reflexivity.
Defined.

(** X22: what a successful [MakeTensorFromXlaLiteral] implies, for every
    literal: the literal has one of the twelve element types of the
    dispatch, the requested kind is one of the nine supported kinds, and
    the tensor returned has the requested kind, the dimensions of the
    literal and as many elements as the literal's shape counts. *)
Theorem MakeTensorFromXlaLiteral_Ok_inv
    (static_cast : CType -> CType -> Z -> Z)
    (pool_order : list CopyPartition -> list CopyPartition)
    (env : Env) (fuel : nat) (literal : Literal)
    (dest_element_type : ScalarType) (t : Tensor) :
  MakeTensorFromXlaLiteral static_cast pool_order env fuel literal
    dest_element_type = Ok t ->
  element_type (literal_shape literal)
    ∈ [PRED; BF16; F32; F64; U8; S8; S16; U16; S32; U32; S64; U64] /\
  supported dest_element_type /\
  scalar_type t = dest_element_type /\
  shape t = dimensions (literal_shape literal) /\
  length (buffer t) = Z.to_nat (ElementsIn (literal_shape literal)).
Proof.
  unfold MakeTensorFromXlaLiteral, XlaLiteralToTensorHelper,
    XlaLiteralToTensor, supported.
  intros H.
  destruct (element_type (literal_shape literal)) eqn:Hp; try done;
    (split; [rewrite !elem_of_cons; tauto|]);
    destruct dest_element_type; try done;
    (split; [done|]);
    apply bind_Ok in H as (data & Hcopy & H);
    cbn [ScalarType_of bind] in H; injection H as <-;
    apply CopyTensors_success in Hcopy as (_ & _ & Hlen);
    rewrite length_replicate in Hlen;
    (split; [reflexivity|]); (split; [reflexivity|]); exact Hlen.
Qed.

Lemma MakeTensorFromXlaLiteral_Ok_inv_witness :
  element_type
    (literal_shape (mkLiteral (mkShape S32 [2; 3] [0; 1]%nat [])
                      [1; 4; 2; 5; 3; 6]))
    ∈ [PRED; BF16; F32; F64; U8; S8; S16; U16; S32; U32; S64; U64] /\
  supported Int /\
  scalar_type (mkTensor Int [2; 3] [1; 2; 3; 4; 5; 6]) = Int /\
  shape (mkTensor Int [2; 3] [1; 2; 3; 4; 5; 6])
    = dimensions
        (literal_shape (mkLiteral (mkShape S32 [2; 3] [0; 1]%nat [])
                          [1; 4; 2; 5; 3; 6])) /\
  length (buffer (mkTensor Int [2; 3] [1; 2; 3; 4; 5; 6]))
    = Z.to_nat
        (ElementsIn
           (literal_shape (mkLiteral (mkShape S32 [2; 3] [0; 1]%nat [])
                             [1; 4; 2; 5; 3; 6]))).
Proof.
  apply (MakeTensorFromXlaLiteral_Ok_inv (fun _ _ v => v)
           (fun parts => parts) (mkEnv false false (mkDevice CPU 0) 4) 6
           (mkLiteral (mkShape S32 [2; 3] [0; 1]%nat []) [1; 4; 2; 5; 3; 6])
           Int (mkTensor Int [2; 3] [1; 2; 3; 4; 5; 6])).
  vm_compute. reflexivity.
Defined.

(** ** The hash and the scalar kind *)

Lemma TensorHash_read (hash_t : Type) (DataHash : list Z -> hash_t)
    k dims buf beyond width :
  supported k -> GetSizeof k = Ok width ->
  Z.of_nat (length buf) * width < 2 ^ 63 ->
  TensorHash hash_t DataHash (mkTensor k dims buf) beyond
  = Ok (DataHash (buffer_bytes width buf)).
Proof.
  intros Hk Hw Hfit.
  pose proof (GetSizeof_pos k width Hw) as Hpos.
  unfold TensorHash. simpl. rewrite Hw. simpl.
  rewrite wrap64_id by (unfold int64_range; lia).
  rewrite Z.mod_small by lia.
  rewrite <- (buffer_bytes_length width buf) by lia.
  rewrite Nat2Z.id, take_app_length.
  destruct k; try reflexivity. by destruct Hk.
Qed.

(** X23: the hash does not see the scalar kind.  Two tensors of supported
    kinds whose buffers have the same bytes get the same hash, whatever
    their kinds, element widths and dimensions are: the kind only selects
    the pointer type under which the same bytes are read. *)
Theorem TensorHash_ignores_kind (hash_t : Type) (DataHash : list Z -> hash_t)
    (t1 t2 : Tensor) (beyond1 beyond2 : list Z) (width1 width2 : Z) :
  supported (scalar_type t1) -> supported (scalar_type t2) ->
  GetSizeof (scalar_type t1) = Ok width1 ->
  GetSizeof (scalar_type t2) = Ok width2 ->
  Z.of_nat (length (buffer t1)) * width1 < 2 ^ 63 ->
  buffer_bytes width1 (buffer t1) = buffer_bytes width2 (buffer t2) ->
  TensorHash hash_t DataHash t1 beyond1 = TensorHash hash_t DataHash t2 beyond2.
Proof.
  intros Hk1 Hk2 Hw1 Hw2 Hfit Hbytes.
  destruct t1 as [k1 d1 b1], t2 as [k2 d2 b2]. simpl in *.
  pose proof (GetSizeof_pos k1 width1 Hw1) as Hp1.
  pose proof (GetSizeof_pos k2 width2 Hw2) as Hp2.
  assert (Hfit2 : Z.of_nat (length b2) * width2 < 2 ^ 63).
  { rewrite <- (buffer_bytes_length width2 b2), <- Hbytes,
      (buffer_bytes_length width1 b1) by lia. done. }
  rewrite (TensorHash_read hash_t DataHash k1 d1 b1 beyond1 width1) by done.
  rewrite (TensorHash_read hash_t DataHash k2 d2 b2 beyond2 width2) by done.
  by rewrite Hbytes.
Qed.

Lemma TensorHash_ignores_kind_witness :
  TensorHash Z (fun bytes => fold_right Z.add 0 bytes)
    (mkTensor Int [1] [513]) [9]
  = TensorHash Z (fun bytes => fold_right Z.add 0 bytes)
      (mkTensor Short [2; 1] [513; 0]) [].
Proof.
  apply (TensorHash_ignores_kind Z (fun bytes => fold_right Z.add 0 bytes)
           (mkTensor Int [1] [513]) (mkTensor Short [2; 1] [513; 0])
           [9] [] 4 2).
  - intros E. discriminate E.
  - intros E. discriminate E.
  - reflexivity.
  - reflexivity.
  - simpl. lia.
  - reflexivity.
Defined.

(** ** One closure *)

(** X24: [SlicedCopy] on its own.  For two shapes of equal dimensions with
    valid layouts, their strides, an iteration order that names every
    dimension once, and any partition that lies within the dimensions and
    spans the whole inner dimension, [SlicedCopy] returns a buffer of the
    same length in which the cell of every index vector of the partition
    holds the cast of the source element of that index vector, and every
    cell that belongs to no index vector of the partition is left as it
    was. *)
Theorem SlicedCopy_writes_partition
    (static_cast : CType -> CType -> Z -> Z) (S D : CType)
    (src_buffer dest_buffer : list Z) (src_shape dest_shape : Shape)
    (src_strides dest_strides : list Z)
    (inner : nat) (ds : list nat) (part : CopyPartition) (fuel : nat) :
  valid_layout src_shape -> valid_layout dest_shape ->
  dimensions src_shape = dimensions dest_shape ->
  Forall (fun n => 0 < n) (dimensions dest_shape) ->
  product (dimensions dest_shape) < 2 ^ 63 ->
  ComputeShapeStrides src_shape = Ok src_strides ->
  ComputeShapeStrides dest_shape = Ok dest_strides ->
  length src_buffer = Z.to_nat (product (dimensions dest_shape)) ->
  length dest_buffer = Z.to_nat (product (dimensions dest_shape)) ->
  inner :: ds ≡ₚ seq 0 (rank dest_shape) ->
  part_ok (dimensions dest_shape) part ->
  base part !!! inner = 0 ->
  limit part !!! inner = dimensions dest_shape !!! inner ->
  product (dimensions dest_shape) <= Z.of_nat fuel ->
  exists result,
    SlicedCopy static_cast fuel S D (dimensions dest_shape) src_buffer
      src_strides dest_buffer dest_strides (inner :: ds) part = Ok result /\
    length result = length dest_buffer /\
    (forall e, in_part part e ->
       result !! cell_pos dest_strides e
       = Some (cell_val static_cast S D src_buffer src_strides e)) /\
    (forall q, (forall e, in_part part e -> cell_pos dest_strides e <> q) ->
       result !! q = dest_buffer !! q).
Proof.
  intros Hsv Hdv Hdims Hpos Hfit Hss Hds Hslen Hdlen Hiter Hp Hbase Hlimit
         Hfuel.
  unfold rank in Hiter. set (dims := dimensions dest_shape) in *.
  destruct (ComputeShapeStrides_exact src_shape Hsv) as (ss & Hss' & Hsok).
  { by rewrite Hdims. } { by rewrite Hdims. }
  destruct (ComputeShapeStrides_exact dest_shape Hdv Hpos Hfit)
    as (dstr & Hds' & Hdok).
  assert (ss = src_strides) as -> by congruence.
  assert (dstr = dest_strides) as -> by congruence.
  rewrite Hdims in Hsok. fold dims in Hsok, Hdok.
  assert (Hsperm : minor_to_major src_shape ≡ₚ seq 0 (length dims)).
  { unfold valid_layout, rank in Hsv. by rewrite Hdims in Hsv. }
  assert (Hdperm : minor_to_major dest_shape ≡ₚ seq 0 (length dims))
    by exact Hdv.
  destruct (SlicedCopy_spec static_cast S D src_buffer dims
              (minor_to_major src_shape) (minor_to_major dest_shape)
              src_strides dest_strides Hpos Hfit Hsperm Hdperm Hsok Hdok
              Hslen inner ds part fuel dest_buffer Hiter Hp Hbase Hlimit
              Hfuel Hdlen) as (d' & Hrun & Hlen & Hin & Hout).
  exists d'. split; [done|]. split; [done|]. split; [done|].
  intros q Hq.
  destruct (d' !! q) as [v|] eqn:Hv.
  - destruct (Hout q v Hv) as [(e & He & Hpe & _)|Hold]; [|done].
    by destruct (Hq e He).
  - symmetry. apply lookup_ge_None. apply lookup_ge_None in Hv. lia.
Qed.

Lemma SlicedCopy_writes_partition_witness :
  exists result,
    SlicedCopy (fun _ _ v => v) 6 c_int32 c_int32 [2; 3]
      [1; 2; 3; 4; 5; 6] [3; 1] [0; 0; 0; 0; 0; 0] [1; 2] [0; 1]%nat
      (mkCopyPartition [0; 1] [2; 3]) = Ok result /\
    length result = length [0; 0; 0; 0; 0; 0] /\
    (forall e, in_part (mkCopyPartition [0; 1] [2; 3]) e ->
       result !! cell_pos [1; 2] e
       = Some (cell_val (fun _ _ v => v) c_int32 c_int32
                 [1; 2; 3; 4; 5; 6] [3; 1] e)) /\
    (forall q,
       (forall e, in_part (mkCopyPartition [0; 1] [2; 3]) e ->
          cell_pos [1; 2] e <> q) ->
       result !! q = [0; 0; 0; 0; 0; 0] !! q).
Proof.
  apply (SlicedCopy_writes_partition (fun _ _ v => v) c_int32 c_int32
           [1; 2; 3; 4; 5; 6] [0; 0; 0; 0; 0; 0]
           (mkShape S32 [2; 3] [1; 0]%nat [])
           (mkShape S32 [2; 3] [0; 1]%nat [])
           [3; 1] [1; 2] 0%nat [1%nat] (mkCopyPartition [0; 1] [2; 3]) 6).
  - unfold valid_layout. simpl. apply perm_swap.
  - unfold valid_layout. simpl. reflexivity.
  - reflexivity.
  - simpl. repeat constructor.
  - simpl. lia.
  - reflexivity.
  - reflexivity.
  - reflexivity.
  - reflexivity.
  - unfold rank. simpl. reflexivity.
  - unfold part_ok. simpl. split; [reflexivity|]. split; [reflexivity|].
    intros [|[|i]] Hi; simpl; [lia|lia|lia].
  - reflexivity.
  - reflexivity.
  - simpl. lia.
Defined.

Lemma ComputeArrayStrides_row_major_witness :
  exists strides,
    ComputeArrayStrides [2; 3; 4] = Ok strides /\
    length strides = length [2; 3; 4] /\
    (forall d, Datatypes.S d = length [2; 3; 4] -> strides !! d = Some 1) /\
    (forall j s n,
       strides !! Datatypes.S j = Some s -> [2; 3; 4] !! Datatypes.S j = Some n ->
       int64_range (s * n) -> strides !! j = Some (s * n)).
Proof.
  apply (ComputeArrayStrides_row_major [2; 3; 4]).
Defined.

(** ** Device types read back as host kinds *)


